(** * shipyard-action: the deployment orchestration core

    A shallow embedding of the Go packages [config], [deployment], [health]
    and [end] (the external verifier), with the properties of the
    dependency resolver, the health gate, the registry, rollback and the
    external verification that the design document states.

    Conventions.
    - A Go [map[string]T] is a [gmap string T]; reading a missing key gives
      the zero value of [T], written out at each read.
    - A Go function that returns an [error] is a computation with an
      [outcome]: [Return] when the error is [nil], [Fail e] otherwise.
    - Collaborators (container runtime, network, scanner, proxy,
      certificates) are oracles of a [World]; every call is recorded, with
      its outcome, in an event log that later oracle answers may depend on.
    - Durations are [time.Duration] values: signed 64-bit nanosecond counts;
      an [int] is 64 bits wide, as on the platforms the action is built for. *)

From stdpp Require Import gmap strings list fin_maps sets pretty relations.
From Stdlib Require Import ZArith Lia.

Local Open Scope string_scope.
Local Open Scope list_scope.

(** ** Go errors *)

(** [Errorf msg] is [fmt.Errorf(msg)] without a wrapped cause, [Wrap msg e]
    is [fmt.Errorf(msg + ": %w", e)], [Canceled] and [DeadlineExceeded] are
    the two values of [ctx.Err()]. *)
Inductive error : Type :=
  | Errorf (msg : string)
  | Wrap (msg : string) (cause : error)
  | Canceled
  | DeadlineExceeded.

(** The text of [err.Error()]. *)
Fixpoint Error (e : error) : string :=
  match e with
  | Errorf msg => msg
  | Wrap msg cause => msg +:+ ": " +:+ Error cause
  | Canceled => "context canceled"
  | DeadlineExceeded => "context deadline exceeded"
  end.

(** [errors.Is(e, target)] for the two context errors: follow the chain of
    wrapped causes. *)
Fixpoint is_context_error (e : error) : bool :=
  match e with
  | Errorf _ => false
  | Wrap _ cause => is_context_error cause
  | Canceled | DeadlineExceeded => true
  end.

#[global] Instance error_eq_dec : EqDecision error.
Proof. solve_decision. Defined.

(** Reading a [map[string]bool]: a missing key reads [false]. *)
Definition flag (m : gmap string bool) (k : string) : bool :=
  default false (m !! k).

(** Reading a [map[string][]string]: a missing key reads the nil slice. *)
Definition slice_at (m : gmap string (list string)) (k : string) : list string :=
  default [] (m !! k).

(** Reading a [map[string]int]: a missing key reads [0]. *)
Definition index_at (m : gmap string nat) (k : string) : nat :=
  default 0 (m !! k).

(** How a Go call ends: it returns a value (with a [nil] error), returns
    a non-nil error, panics (an index out of range), or, in this model
    only, runs out of the recursion budget given to a function that is
    not structurally recursive. *)
Inductive outcome (A : Type) : Type :=
  | Return (a : A)
  | Fail (e : error)
  | Panic
  | OutOfFuel.
Arguments Return {A} a.
Arguments Fail {A} e.
Arguments Panic {A}.
Arguments OutOfFuel {A}.

(** ** Package config, config.go

    The Go field [Type] is written [Type_]. *)

Module Volume.
Record t := mk { Source : string; Destination : string; Type_ : string }.
End Volume.

Module HealthCheck.
Record t := mk {
  Type_ : string;
  Path : string;
  Port : Z;
  Interval : Z;
  Timeout : Z;
  Retries : Z;
  StartPeriod : Z
}.
End HealthCheck.

Module SSLConfig.
Record t := mk {
  Enabled : bool;
  Provider : string;
  Email : string;
  SelfSigned : bool;
  DNSChallenge : bool;
  DNSProvider : string;
  DNSCredentials : gmap string string
}.
End SSLConfig.

Module ProxyConfig.
Record t := mk { Type_ : string; Port : Z; HTTPSPort : Z }.
End ProxyConfig.

Module Service.
Record t := mk {
  Name : string;
  Image : string;
  Volumes : list Volume.t;
  Environment : gmap string string;
  Ports : list string;
  DependsOn : list string;
  HealthCheck : HealthCheck.t;
  RestartPolicy : string
}.
End Service.

Module App.
Record t := mk {
  Name : string;
  Image : string;
  Subdomain : string;
  Path : string;
  Environment : gmap string string;
  Ports : list string;
  Volumes : list Volume.t;
  DependsOn : list string;
  HealthCheck : HealthCheck.t;
  RestartPolicy : string
}.
End App.

Module Config.
Record t := mk {
  Version : string;
  Domain : string;
  SSL : SSLConfig.t;
  Proxy : ProxyConfig.t;
  Services : list Service.t;
  Apps : list App.t;
  EnvGlobal : gmap string string;
  Timeout : Z;
  LogLevel : string
}.
End Config.

(** ** Package config, validation.go *)

Module Validation.

(** [strings.HasPrefix(s, prefix)] *)
Definition HasPrefix (s prefix : string) : bool := String.prefix prefix s.

(** [strings.HasSuffix(s, suffix)] *)
Definition HasSuffix (s suffix : string) : bool :=
  (String.length suffix <=? String.length s)%nat &&
  String.eqb
    (String.substring (String.length s - String.length suffix)
                      (String.length suffix) s)
    suffix.

(** normalizePath standardizes a path for comparison. *)
Definition normalizePath (path : string) : string :=
  (* Ensure path starts with / *)
  let path := if HasPrefix path "/" then path else "/" +:+ path in
  (* Remove trailing slash except for root path *)
  if negb (String.eqb path "/") && HasSuffix path "/"
  then String.substring 0 (String.length path - 1) path
  else path.

Definition service_missing_name (i : nat) : error :=
  Errorf ("service at index " +:+ pretty i +:+ " is missing a name").
Definition duplicate_service_name (name : string) : error :=
  Errorf ("duplicate service name: " +:+ name).
Definition service_missing_image (name : string) : error :=
  Errorf ("service " +:+ name +:+ " is missing an image").
Definition service_undefined_dependency (name dep : string) : error :=
  Errorf ("service " +:+ name +:+ " depends on undefined service: " +:+ dep).
Definition app_missing_name (i : nat) : error :=
  Errorf ("app at index " +:+ pretty i +:+ " is missing a name").
Definition duplicate_app_name (name : string) : error :=
  Errorf ("duplicate app name: " +:+ name).
Definition app_missing_image (name : string) : error :=
  Errorf ("app " +:+ name +:+ " is missing an image").
Definition duplicate_subdomain (subdomain : string) : error :=
  Errorf ("duplicate subdomain: " +:+ subdomain).
Definition duplicate_path (path : string) : error :=
  Errorf ("duplicate path: " +:+ path).
Definition app_undefined_dependency (name dep : string) : error :=
  Errorf ("app " +:+ name +:+ " depends on undefined service or app: " +:+ dep).

(** The loop over [config.Services]; [i] is the index of the head of
    [services] and [serviceNames] the map filled so far. Returns the first
    error, or the final [serviceNames]. *)
Fixpoint validate_services (i : nat) (services : list Service.t)
    (serviceNames : gmap string bool) : error + gmap string bool :=
  match services with
  | [] => inr serviceNames
  | service :: rest =>
      if String.eqb (Service.Name service) "" then inl (service_missing_name i)
      else if flag serviceNames (Service.Name service)
      then inl (duplicate_service_name (Service.Name service))
      else
        let serviceNames := <[Service.Name service := true]> serviceNames in
        if String.eqb (Service.Image service) ""
        then inl (service_missing_image (Service.Name service))
        else
          (* Validate service dependencies *)
          match List.find (λ dep, negb (flag serviceNames dep))
                          (Service.DependsOn service) with
          | Some dep =>
              inl (service_undefined_dependency (Service.Name service) dep)
          | None => validate_services (S i) rest serviceNames
          end
  end.

(** The three maps that the loop over [config.Apps] fills. *)
Record app_maps := AppMaps {
  appNames : gmap string bool;
  subdomains : gmap string bool;
  paths : gmap string bool
}.

Fixpoint validate_apps (serviceNames : gmap string bool) (i : nat)
    (apps : list App.t) (m : app_maps) : option error :=
  match apps with
  | [] => None
  | app :: rest =>
      if String.eqb (App.Name app) "" then Some (app_missing_name i)
      else if flag (appNames m) (App.Name app)
      then Some (duplicate_app_name (App.Name app))
      else
        let appNames := <[App.Name app := true]> (appNames m) in
        if String.eqb (App.Image app) ""
        then Some (app_missing_image (App.Name app))
        (* Check for routing conflicts *)
        else if negb (String.eqb (App.Subdomain app) "")
                && flag (subdomains m) (App.Subdomain app)
        then Some (duplicate_subdomain (App.Subdomain app))
        else
          let subdomains :=
            if negb (String.eqb (App.Subdomain app) "")
            then <[App.Subdomain app := true]> (subdomains m)
            else subdomains m in
          if negb (String.eqb (App.Path app) "")
             && flag (paths m) (normalizePath (App.Path app))
          then Some (duplicate_path (App.Path app))
          else
            let paths :=
              if negb (String.eqb (App.Path app) "")
              then <[normalizePath (App.Path app) := true]> (paths m)
              else paths m in
            (* Validate app dependencies *)
            match List.find
                    (λ dep, negb (flag serviceNames dep) && negb (flag appNames dep))
                    (App.DependsOn app) with
            | Some dep => Some (app_undefined_dependency (App.Name app) dep)
            | None =>
                validate_apps serviceNames (S i) rest
                              (AppMaps appNames subdomains paths)
            end
  end.

Definition validate_ssl (ssl : SSLConfig.t) : option error :=
  if SSLConfig.Enabled ssl then
    if negb (SSLConfig.SelfSigned ssl) && String.eqb (SSLConfig.Email ssl) ""
    then Some (Errorf "SSL email is required when using Let's Encrypt")
    else if SSLConfig.DNSChallenge ssl && String.eqb (SSLConfig.DNSProvider ssl) ""
    then Some (Errorf "DNS provider is required when using DNS challenge")
    else None
  else None.

(** Validate performs validation on the configuration. *)
Definition Validate (config : Config.t) : option error :=
  if String.eqb (Config.Version config) ""
  then Some (Errorf "config version is required")
  else if String.eqb (Config.Domain config) ""
  then Some (Errorf "domain is required")
  else
    match validate_services 0 (Config.Services config) ∅ with
    | inl err => Some err
    | inr serviceNames =>
        match validate_apps serviceNames 0 (Config.Apps config) (AppMaps ∅ ∅ ∅) with
        | Some err => Some err
        | None => validate_ssl (Config.SSL config)
        end
    end.

End Validation.

(** ** Package deployment, dependencies.go *)

Module Dependencies.

(** The three variables that the closure [visit] captures. *)
Record dfs := Dfs {
  visited : gmap string bool;
  temp : gmap string bool;
  order : list string
}.

(** A [for _, x := range xs] loop over a traversal state whose body may
    return early. *)
Fixpoint range (body : string → dfs → outcome dfs) (xs : list string)
    (s : dfs) : outcome dfs :=
  match xs with
  | [] => Return s
  | x :: rest =>
      match body x s with
      | Return s' => range body rest s'
      | stop => stop
      end
  end.

Definition cycle_error (name : string) : error :=
  Errorf ("cycle detected in dependencies involving " +:+ name).

Section resolver.
Variable dependencies : gmap string (list string).

(** The closure [visit]; the Go closure has no [fuel], and
    [resolveDependencyOrder] gives it enough. *)
Fixpoint visit (fuel : nat) (name : string) (s : dfs) : outcome dfs :=
  match fuel with
  | O => OutOfFuel
  | S fuel' =>
      (* Check for cycle *)
      if flag (temp s) name then Fail (cycle_error name)
      (* Skip if already visited *)
      else if flag (visited s) name then Return s
      else
        (* Mark as temporary visited *)
        let s1 := Dfs (visited s) (<[name := true]> (temp s)) (order s) in
        (* Visit dependencies *)
        match range (visit fuel') (slice_at dependencies name) s1 with
        | Return s2 =>
            (* Mark as visited, add to order *)
            Return (Dfs (<[name := true]> (visited s2))
                        (<[name := false]> (temp s2))
                        (order s2 ++ [name]))
        | stop => stop
        end
  end.

(** Every string the traversal can reach: the input names and every name
    in a dependency list. *)
Definition nodes (names : list string) : gset string :=
  list_to_set names ∪
  ⋃ ((λ kv, list_to_set kv.2) <$> map_to_list dependencies).

(** The loop "Visit all items". *)
Definition visit_all (fuel : nat) (names : list string) (s : dfs) : outcome dfs :=
  range (λ name s, if flag (visited s) name then Return s else visit fuel name s)
        names s.

(** The dependency graph: [edge a b] when [a] lists [b] as a dependency. *)
Definition edge (a b : string) : Prop := b ∈ slice_at dependencies a.

(** [a] is on a dependency cycle. *)
Definition on_cycle (a : string) : Prop := tc edge a a.

End resolver.

(** [x] occurs in [l] at a smaller index than [y]. *)
Definition before (l : list string) (x y : string) : Prop :=
  ∃ i j, l !! i = Some x ∧ l !! j = Some y ∧ i < j.

(** resolveDependencyOrder is the core algorithm for topological sorting. *)
Definition resolveDependencyOrder (names : list string)
    (dependencies : gmap string (list string)) : outcome (list string) :=
  match visit_all dependencies (S (size (nodes dependencies names))) names
          (Dfs ∅ ∅ []) with
  | Return s =>
      (* Reverse the order *)
      Return (reverse (order s))
  | Fail e => Fail e
  | Panic => Panic
  | OutOfFuel => OutOfFuel
  end.

(** The first loop of [resolveServiceDependencies]: [names[i]],
    [nameToIndex] and [dependencies], filled in slice order. *)
Fixpoint service_graph (i : nat) (services : list Service.t)
    (nameToIndex : gmap string nat) (dependencies : gmap string (list string))
    : gmap string nat * gmap string (list string) :=
  match services with
  | [] => (nameToIndex, dependencies)
  | service :: rest =>
      service_graph (S i) rest
        (<[Service.Name service := i]> nameToIndex)
        (<[Service.Name service := Service.DependsOn service]> dependencies)
  end.

(** The last loop of the two resolvers: [result[i] = units[nameToIndex[name]]];
    an index outside the slice panics. *)
Fixpoint pick {A : Type} (units : list A) (nameToIndex : gmap string nat)
    (sortedNames : list string) : outcome (list A) :=
  match sortedNames with
  | [] => Return []
  | name :: rest =>
      match units !! index_at nameToIndex name with
      | None => Panic
      | Some unit =>
          match pick units nameToIndex rest with
          | Return result => Return (unit :: result)
          | stop => stop
          end
      end
  end.

(** resolveServiceDependencies sorts services based on their dependencies. *)
Definition resolveServiceDependencies (services : list Service.t)
    : outcome (list Service.t) :=
  let names := Service.Name <$> services in
  let '(nameToIndex, dependencies) := service_graph 0 services ∅ ∅ in
  match resolveDependencyOrder names dependencies with
  | Return sortedNames => pick services nameToIndex sortedNames
  | Fail err => Fail err
  | Panic => Panic
  | OutOfFuel => OutOfFuel
  end.

(** The first loop of [resolveAppDependencies]. *)
Fixpoint app_graph (i : nat) (apps : list App.t)
    (nameToIndex : gmap string nat) (dependencies : gmap string (list string))
    : gmap string nat * gmap string (list string) :=
  match apps with
  | [] => (nameToIndex, dependencies)
  | app :: rest =>
      app_graph (S i) rest
        (<[App.Name app := i]> nameToIndex)
        (<[App.Name app := App.DependsOn app]> dependencies)
  end.

(** resolveAppDependencies sorts apps based on their dependencies. *)
Definition resolveAppDependencies (apps : list App.t) : outcome (list App.t) :=
  let names := App.Name <$> apps in
  let '(nameToIndex, dependencies) := app_graph 0 apps ∅ ∅ in
  match resolveDependencyOrder names dependencies with
  | Return sortedNames => pick apps nameToIndex sortedNames
  | Fail err => Fail err
  | Panic => Panic
  | OutOfFuel => OutOfFuel
  end.

(** The dependency relation that a slice of units declares: [a] is the
    name of a unit that lists [b]. *)
Definition unit_edge {A : Type} (name : A → string) (deps : A → list string)
    (units : list A) (a b : string) : Prop :=
  ∃ u, u ∈ units ∧ name u = a ∧ b ∈ deps u.

End Dependencies.

(** ** The process and the world around it *)

(** [time.Duration] arithmetic: 64-bit two's complement. *)
Definition wrap64 (z : Z) : Z := ((z + 2 ^ 63) mod 2 ^ 64 - 2 ^ 63)%Z.
Definition Second : Z := 1000000000.
Definition Minute : Z := (60 * Second)%Z.

(** [context.Context]: the instant at which [Done()] is closed, if ever,
    and what [Err()] returns from then on. *)
Module Context.
Record t := mk { done_at : option Z; err : error }.

Definition Background : t := mk None Canceled.

(** Is [ctx.Done()] closed at instant [now]? *)
Definition is_done (ctx : t) (now : Z) : bool :=
  match done_at ctx with
  | Some at_ => (at_ <=? now)%Z
  | None => false
  end.

(** [context.WithTimeout(ctx, d)] called at instant [now]. *)
Definition WithTimeout (ctx : t) (now d : Z) : t :=
  match done_at ctx with
  | Some at_ =>
      if (at_ <=? now + d)%Z then ctx else mk (Some (now + d)%Z) DeadlineExceeded
  | None => mk (Some (now + d)%Z) DeadlineExceeded
  end.
End Context.

(** [http.Client], as far as the code configures it. *)
Module HTTPClient.
Record t := mk { Timeout : Z; InsecureSkipVerify : bool }.
End HTTPClient.

(** Package docker, types.go and security.go. *)
Module DockerVolume.
Record t := mk { Source : string; Destination : string; Type_ : string }.
End DockerVolume.

Module DockerHealthCheck.
Record t := mk {
  Type_ : string;
  Path : string;
  Port : Z;
  Command : list string;
  Interval : Z;
  Timeout : Z;
  Retries : Z;
  StartPeriod : Z
}.
End DockerHealthCheck.

Module ContainerConfig.
Record t := mk {
  Image : string;
  Environment : gmap string string;
  Ports : list string;
  Volumes : list DockerVolume.t;
  Labels : gmap string string;
  HealthCheck : option DockerHealthCheck.t;
  RestartPolicy : string
}.
End ContainerConfig.

Module ScanResult.
Record t := mk {
  Vulnerabilities : Z;
  CriticalCount : Z;
  HighCount : Z;
  MediumCount : Z;
  LowCount : Z;
  Details : string
}.
End ScanResult.

(** What the process does to the world, with the world's answer. *)
Inductive event : Type :=
  | EvWait (d : Z) (fired : bool)
      (* select on time.After(d) and ctx.Done(); [fired]: the timer won *)
  | EvSleep (d : Z)
  | EvNewRequest (method url : string) (err : option error)
  | EvHTTP (client : HTTPClient.t) (url : string) (resp : error + Z)
  | EvDial (address : string) (timeout : Z) (err : option error)
  | EvDockerSetup (err : option error)
  | EvPullImage (image : string) (err : option error)
  | EvScanImage (image : string) (res : error + ScanResult.t)
  | EvCreateContainer (name : string) (config : ContainerConfig.t)
      (res : error + string)
  | EvStartContainer (id : string) (err : option error)
  | EvStopContainer (id : string) (timeout : Z) (err : option error)
  | EvRemoveContainer (id : string) (force : bool) (err : option error)
  | EvSSLSetup (err : option error)
  | EvProxySetup (err : option error)
  | EvProxyCleanup (err : option error).

(** The collaborators. Each answer may depend on all that happened so far
    (the event log). *)
Record World := {
  (* http.NewRequestWithContext(ctx, method, url, nil) *)
  new_request : string → string → option error;
  (* client.Do(req): a transport error or the status code *)
  http_do : list event → HTTPClient.t → string → error + Z;
  (* net.Dialer.DialContext within a timeout *)
  dial : list event → string → Z → option error;
  (* how long the network exchange took that the log ends with
     (client.Do, DialContext) *)
  net_time : list event → Z;
  (* which case a select takes when its timer and Done() are ready together;
     [true]: the timer *)
  select_tie : list event → bool;
  docker_setup : list event → option error;
  pull_image : list event → string → option error;
  scan_image : list event → string → error + ScanResult.t;
  create_container : list event → string → ContainerConfig.t → error + string;
  start_container : list event → string → option error;
  stop_container : list event → string → Z → option error;
  remove_container : list event → string → bool → option error;
  ssl_setup : list event → option error;
  proxy_setup : list event → option error;
  proxy_cleanup : list event → option error
}.

(** The clock and the event log of the running process. The clock is
    advanced by waits, by sleeps and by network exchanges; the other calls
    to collaborators take no time. *)
Record proc := Proc { now : Z; log : list event }.

(** ** A state and error monad for Go functions that return [error] *)

Definition M (S A : Type) : Type := S → outcome A * S.

Definition ret {S A} (a : A) : M S A := λ s, (Return a, s).
Definition fail {S A} (e : error) : M S A := λ s, (Fail e, s).
Definition of_outcome {S A} (o : outcome A) : M S A := λ s, (o, s).

Definition bind {S A B} (m : M S A) (k : A → M S B) : M S B :=
  λ s, match m s with
       | (Return a, s') => k a s'
       | (Fail e, s') => (Fail e, s')
       | (Panic, s') => (Panic, s')
       | (OutOfFuel, s') => (OutOfFuel, s')
       end.

Notation "'let*' x ':=' m 'in' k" := (bind m (λ x, k))
  (at level 10, x pattern, m at level 100, k at level 200).

(** [err := f(); if err != nil { ... }] where the error is looked at
    instead of returned. *)
Definition catch {S A} (m : M S A) : M S (error + A) :=
  λ s, match m s with
       | (Return a, s') => (Return (inr a), s')
       | (Fail e, s') => (Return (inl e), s')
       | (Panic, s') => (Panic, s')
       | (OutOfFuel, s') => (OutOfFuel, s')
       end.

(** [if err := f(); err != nil { return fmt.Errorf(msg + ": %w", err) }] *)
Definition wrapf {S A} (msg : string) (m : M S A) : M S A :=
  λ s, match m s with
       | (Fail e, s') => (Fail (Wrap msg e), s')
       | other => other
       end.

(** [return err] for an [err] that may be [nil]. *)
Definition of_error {S} (err : option error) : M S unit :=
  match err with
  | None => ret tt
  | Some e => fail e
  end.

(** A [for _, x := range xs] loop whose body may return an error. *)
Fixpoint for_each {S A} (body : A → M S unit) (xs : list A) : M S unit :=
  match xs with
  | [] => ret tt
  | x :: rest => let* _ := body x in for_each body rest
  end.

(** The same, with a variable that the body updates. *)
Fixpoint for_fold {S A B} (body : B → A → M S B) (xs : list A) (acc : B) : M S B :=
  match xs with
  | [] => ret acc
  | x :: rest => let* acc' := body acc x in for_fold body rest acc'
  end.

Section process.
Variable w : World.

(** A call to a collaborator: ask the oracle, record the answer. *)
Definition call {R} (oracle : list event → R) (ev : R → event) : M proc R :=
  λ s, let r := oracle (log s) in (Return r, Proc (now s) (log s ++ [ev r])).

(** A network exchange: a call that takes the time the world says. *)
Definition exchange {R} (oracle : list event → R) (ev : R → event) : M proc R :=
  λ s, let r := oracle (log s) in
       let log' := log s ++ [ev r] in
       (Return r, Proc (now s + Z.max (net_time w log') 0) log').

Definition Now : M proc Z := λ s, (Return (now s), s).

(** [time.Sleep(d)]: returns at once when [d <= 0]. *)
Definition Sleep (d : Z) : M proc unit :=
  λ s, (Return tt, Proc (now s + Z.max d 0) (log s ++ [EvSleep d])).

(** [select { case <-time.After(d): ...; case <-ctx.Done(): ... }]:
    [true] when the timer case is taken. The case that is ready first is
    taken; the world picks when both are ready at the same instant. *)
Definition wait (ctx : Context.t) (d : Z) : M proc bool :=
  λ s,
    let fire := (now s + Z.max d 0)%Z in
    let timer := (Return true, Proc fire (log s ++ [EvWait d true])) in
    match Context.done_at ctx with
    | None => timer
    | Some at_ =>
        let closed := Z.max at_ (now s) in
        if (closed <? fire)%Z || ((closed =? fire)%Z && negb (select_tie w (log s)))
        then (Return false, Proc closed (log s ++ [EvWait d false]))
        else timer
    end.

(** [select { case <-ctx.Done(): ...; default: ... }]: is the context
    done now? *)
Definition poll (ctx : Context.t) : M proc bool :=
  λ s, (Return (Context.is_done ctx (now s)), s).

End process.

(** ** Package health: the health gate *)

Module Health.

Module CheckOptions.
Record t := mk {
  Type_ : string;
  Host : string;
  Port : Z;
  Path : string;
  Timeout : Z;
  Interval : Z;
  Retries : Z;
  StartPeriod : Z
}.
End CheckOptions.

Definition unsupported_type (type : string) : error :=
  Errorf ("unsupported health check type: " +:+ type).

(** [fmt.Errorf("health check failed: %w", lastErr)]; [lastErr] is [nil]
    when the loop body never ran. *)
Definition health_check_failed (lastErr : option error) : error :=
  match lastErr with
  | Some e => Wrap "health check failed" e
  | None => Errorf "health check failed: %!w(<nil>)"
  end.

Section checker.
Variable w : World.

(** checkHTTP performs an HTTP health check. *)
Definition checkHTTP (ctx : Context.t) (options : CheckOptions.t) : M proc unit :=
  let url := "http://" +:+ CheckOptions.Host options +:+ ":" +:+
             pretty (CheckOptions.Port options) +:+ CheckOptions.Path options in
  let client := HTTPClient.mk (CheckOptions.Timeout options) false in
  let* err := call (λ _, new_request w "GET" url) (EvNewRequest "GET" url) in
  match err with
  | Some err => fail (Wrap "failed to create HTTP request" err)
  | None =>
      let* resp := exchange w (λ l, http_do w l client url) (EvHTTP client url) in
      match resp with
      | inl err => fail (Wrap "HTTP request failed" err)
      | inr StatusCode =>
          if (StatusCode <? 200)%Z || (400 <=? StatusCode)%Z
          then fail (Errorf ("HTTP health check failed with status: " +:+
                             pretty StatusCode))
          else ret tt
      end
  end.

(** checkTCP performs a TCP health check. *)
Definition checkTCP (ctx : Context.t) (options : CheckOptions.t) : M proc unit :=
  let address := CheckOptions.Host options +:+ ":" +:+
                 pretty (CheckOptions.Port options) in
  let* err := exchange w (λ l, dial w l address (CheckOptions.Timeout options))
                       (EvDial address (CheckOptions.Timeout options)) in
  match err with
  | Some err => fail (Wrap "TCP connection failed" err)
  | None => ret tt
  end.

(** The [switch options.Type] of the loop body: the error of the probe,
    or an immediate return for an unsupported type. *)
Definition probe (ctx : Context.t) (options : CheckOptions.t)
    : M proc (error + unit) :=
  if String.eqb (CheckOptions.Type_ options) "http"
  then catch (checkHTTP ctx options)
  else if String.eqb (CheckOptions.Type_ options) "tcp"
  then catch (checkTCP ctx options)
  else fail (unsupported_type (CheckOptions.Type_ options)).

(** The loop [for attempt := 0; attempt < options.Retries; attempt++]
    with [remaining] iterations to go, and the statements after it. *)
Fixpoint attempts (ctx : Context.t) (options : CheckOptions.t)
    (remaining : nat) (attempt : Z) (lastErr : option error) : M proc unit :=
  match remaining with
  | O => fail (health_check_failed lastErr)
  | S remaining' =>
      let* _ :=
        if (0 <? attempt)%Z then
          (* Wait before retrying *)
          let* fired := wait w ctx (CheckOptions.Interval options) in
          if fired then ret tt else fail (Context.err ctx)
        else ret tt in
      (* Perform the appropriate health check *)
      let* err := probe ctx options in
      match err with
      | inr _ => ret tt
      | inl err => attempts ctx options remaining' (attempt + 1) (Some err)
      end
  end.

(** Check performs health checks on a service. *)
Definition Check (ctx : Context.t) (name : string) (options : CheckOptions.t)
    : M proc unit :=
  let* _ :=
    (* Wait for start period before beginning health checks *)
    if (0 <? CheckOptions.StartPeriod options)%Z then
      let* fired := wait w ctx (CheckOptions.StartPeriod options) in
      if fired then ret tt else fail (Context.err ctx)
    else ret tt in
  attempts ctx options (Z.to_nat (CheckOptions.Retries options)) 0 None.

End checker.

End Health.

(** ** Package end: the external verifier *)

Module External.

Definition verification_failed (maxAttempts : Z) : error :=
  Errorf ("endpoint verification failed after " +:+ pretty maxAttempts +:+
          " attempts").

Section verifier.
Variable w : World.
Variable config : Config.t.

(** The client that [NewExternalVerifier] builds. *)
Definition client : HTTPClient.t :=
  HTTPClient.mk (wrap64 (10 * Second))
                (SSLConfig.SelfSigned (Config.SSL config)).

(** The loop [for attempt := 1; attempt <= maxAttempts; attempt++] and
    the statement after it, entered at the loop test with [fuel] rounds
    at most to go. The counter is an [int]: [attempt++] wraps, so with
    [maxAttempts] the largest [int] the test never fails. *)
Fixpoint endpoint_loop (ctx : Context.t) (url : string) (maxAttempts : Z)
    (fuel : nat) (attempt : Z) (waitTime : Z) : M proc unit :=
  match fuel with
  | O => of_outcome OutOfFuel
  | S fuel' =>
      if (attempt <=? maxAttempts)%Z then
        (* Check if context is cancelled *)
        let* cancelled := poll ctx in
        if cancelled then fail (Context.err ctx) else
        let* err := call (λ _, new_request w "GET" url) (EvNewRequest "GET" url) in
        match err with
        | Some err => fail err
        | None =>
            let* resp := exchange w (λ l, http_do w l client url)
                                  (EvHTTP client url) in
            match resp with
            | inl err =>
                let* _ := Sleep waitTime in
                (* Exponential backoff *)
                endpoint_loop ctx url maxAttempts fuel' (wrap64 (attempt + 1))
                              (wrap64 (waitTime + waitTime `quot` 2))
            | inr StatusCode =>
                (* Check for successful status code (2xx) *)
                if (200 <=? StatusCode)%Z && (StatusCode <? 300)%Z then ret tt
                else
                  let* _ := Sleep waitTime in
                  endpoint_loop ctx url maxAttempts fuel' (wrap64 (attempt + 1))
                                (wrap64 (waitTime + waitTime `quot` 2))
            end
        end
      else fail (verification_failed maxAttempts)
  end.

(** checkEndpoint verifies that a URL is accessible with retries and
    backoff. The loop test fails after [maxAttempts] rounds unless
    [maxAttempts] is the largest [int]; the budget is one test more. *)
Definition checkEndpoint (ctx : Context.t) (url : string)
    (maxAttempts initialWaitSeconds : Z) : M proc unit :=
  let waitTime := wrap64 (initialWaitSeconds * Second) in
  endpoint_loop ctx url maxAttempts (S (Z.to_nat maxAttempts)) 1 waitTime.

(** The URL of an app, before the health path is added. *)
Definition app_url (app : App.t) : string :=
  let protocol := if SSLConfig.Enabled (Config.SSL config) then "https" else "http" in
  let url :=
    if String.eqb (App.Subdomain app) ""
    then protocol +:+ "://" +:+ Config.Domain config
    else protocol +:+ "://" +:+ App.Subdomain app +:+ "." +:+ Config.Domain config in
  (* Add path if specified *)
  if negb (String.eqb (App.Path app) "") && negb (String.eqb (App.Path app) "/")
  then url +:+ App.Path app
  else url.

Definition health_path (app : App.t) : string :=
  if String.eqb (HealthCheck.Type_ (App.HealthCheck app)) "http"
     && negb (String.eqb (HealthCheck.Path (App.HealthCheck app)) "")
  then HealthCheck.Path (App.HealthCheck app)
  else "/".

(** The body of the loop over the apps. *)
Definition verify_app (ctx : Context.t) (app : App.t) : M proc unit :=
  let url := app_url app in
  let healthPath := health_path app in
  (* Check main URL *)
  let mainUrl := url in
  let* _ := wrapf ("external verification failed for app " +:+ App.Name app +:+
                   " at " +:+ mainUrl)
                  (checkEndpoint ctx mainUrl 5 3) in
  (* Check health URL if different from main URL *)
  if negb (String.eqb healthPath "/") && negb (String.eqb healthPath "")
  then
    let healthUrl := url +:+ healthPath in
    wrapf ("health check verification failed for app " +:+ App.Name app +:+
           " at " +:+ healthUrl)
          (checkEndpoint ctx healthUrl 5 3)
  else ret tt.

(** VerifyExternalAccess checks that all deployed applications are
    accessible from the internet. *)
Definition VerifyExternalAccess (ctx : Context.t) : M proc unit :=
  for_each (verify_app ctx) (Config.Apps config).

End verifier.

End External.

(** ** Package deployment, manager.go *)

Module Deployment.
(** Deployment tracks the state of a deployed service or app. *)
Record t := mk {
  Name : string;
  ContainerID : string;
  Image : string;
  CreatedAt : Z;
  ServiceType : string;
  DependsOn : list string;
  HealthCheck : option HealthCheck.t;
  Volumes : list Volume.t;
  Environment : gmap string string;
  Ports : list string;
  RestartPolicy : string
}.
End Deployment.

Module Manager.

(** What a [Manager] changes while it runs: its registry [deployments],
    and the process around it. *)
Record state := State {
  deployments : gmap string Deployment.t;
  sys : proc
}.

(** Run a step of the process inside the manager. *)
Definition lift {A} (m : M proc A) : M state A :=
  λ s, let '(r, p) := m (sys s) in (r, State (deployments s) p).

Definition get_deployments : M state (gmap string Deployment.t) :=
  λ s, (Return (deployments s), s).

Definition set_deployments (d : gmap string Deployment.t) : M state unit :=
  λ s, (Return tt, State d (sys s)).

Definition convert_volume (vol : Volume.t) : DockerVolume.t :=
  DockerVolume.mk (Volume.Source vol) (Volume.Destination vol) (Volume.Type_ vol).

Definition convert_health (hc : HealthCheck.t) : option DockerHealthCheck.t :=
  if negb (String.eqb (HealthCheck.Type_ hc) "") then
    Some (DockerHealthCheck.mk (HealthCheck.Type_ hc) (HealthCheck.Path hc)
            (HealthCheck.Port hc) [] (HealthCheck.Interval hc)
            (HealthCheck.Timeout hc) (HealthCheck.Retries hc)
            (HealthCheck.StartPeriod hc))
  else None.

(** reverseServices returns services in reverse order. *)
Definition reverseServices (services : list Service.t) : list Service.t :=
  reverse services.

Definition rollback_errors (n : nat) : error :=
  Errorf ("rollback completed with " +:+ pretty n +:+ " errors").

Section manager.
Variable w : World.
Variable config : Config.t.

(** performHealthCheck executes a health check for a deployed container. *)
Definition performHealthCheck (ctx : Context.t) (name : string)
    (healthCfg : HealthCheck.t) : M state unit :=
  let options :=
    Health.CheckOptions.mk
      (HealthCheck.Type_ healthCfg)
      name (* Use container name as host (Docker DNS) *)
      (HealthCheck.Port healthCfg)
      (HealthCheck.Path healthCfg)
      (wrap64 (HealthCheck.Timeout healthCfg * Second))
      (wrap64 (HealthCheck.Interval healthCfg * Second))
      (HealthCheck.Retries healthCfg)
      (wrap64 (HealthCheck.StartPeriod healthCfg * Second)) in
  lift (Health.Check w ctx name options).

(** areDependenciesDeployed checks if all dependencies are deployed. *)
Definition areDependenciesDeployed (deployments : gmap string Deployment.t)
    (dependencies : list string) : bool :=
  forallb (λ dep, bool_decide (is_Some (deployments !! dep))) dependencies.

(** deployService deploys a single service. *)
Definition deployService (ctx : Context.t) (service : Service.t) : M state unit :=
  (* Pull the image *)
  let* _ := wrapf "failed to pull image"
    (lift (let* err := call (λ l, pull_image w l (Service.Image service))
                            (EvPullImage (Service.Image service)) in
           of_error err)) in
  (* Scan the image; the result is only logged *)
  let* _ := lift (call (λ l, scan_image w l (Service.Image service))
                       (EvScanImage (Service.Image service))) in
  (* Create container config *)
  let containerConfig :=
    ContainerConfig.mk
      (Service.Image service) (Service.Environment service)
      (Service.Ports service)
      (convert_volume <$> Service.Volumes service)
      (<["shipyard.type" := "service"]>
         (<["shipyard.name" := Service.Name service]> ∅))
      (convert_health (Service.HealthCheck service))
      (Service.RestartPolicy service) in
  (* Create and start the container *)
  let* containerID := wrapf "failed to create container"
    (lift (let* res := call (λ l, create_container w l (Service.Name service)
                                                   containerConfig)
                            (EvCreateContainer (Service.Name service)
                                               containerConfig) in
           match res with inl err => fail err | inr id => ret id end)) in
  let* _ := wrapf "failed to start container"
    (lift (let* err := call (λ l, start_container w l containerID)
                            (EvStartContainer containerID) in
           of_error err)) in
  (* Record the deployment *)
  let* createdAt := lift Now in
  let* deployments := get_deployments in
  let* _ := set_deployments
    (<[Service.Name service :=
         Deployment.mk (Service.Name service) containerID
           (Service.Image service) createdAt "service"
           (Service.DependsOn service) (Some (Service.HealthCheck service))
           [] (Service.Environment service) (Service.Ports service)
           (Service.RestartPolicy service)]> deployments) in
  (* Perform health check if configured *)
  if negb (String.eqb (HealthCheck.Type_ (Service.HealthCheck service)) "")
  then wrapf "health check failed"
         (performHealthCheck ctx (Service.Name service)
                             (Service.HealthCheck service))
  else ret tt.

(** deployApp deploys a single application. *)
Definition deployApp (ctx : Context.t) (app : App.t) : M state unit :=
  (* Pull the image *)
  let* _ := wrapf "failed to pull image"
    (lift (let* err := call (λ l, pull_image w l (App.Image app))
                            (EvPullImage (App.Image app)) in
           of_error err)) in
  (* Scan the image; the result is only logged *)
  let* _ := lift (call (λ l, scan_image w l (App.Image app))
                       (EvScanImage (App.Image app))) in
  (* Create container config *)
  let containerConfig :=
    ContainerConfig.mk
      (App.Image app) (App.Environment app) (App.Ports app)
      (convert_volume <$> App.Volumes app)
      (<["shipyard.type" := "app"]> (<["shipyard.name" := App.Name app]> ∅))
      (convert_health (App.HealthCheck app))
      (App.RestartPolicy app) in
  (* Create and start the container *)
  let* containerID := wrapf "failed to create container"
    (lift (let* res := call (λ l, create_container w l (App.Name app)
                                                   containerConfig)
                            (EvCreateContainer (App.Name app) containerConfig) in
           match res with inl err => fail err | inr id => ret id end)) in
  let* _ := wrapf "failed to start container"
    (lift (let* err := call (λ l, start_container w l containerID)
                            (EvStartContainer containerID) in
           of_error err)) in
  (* Record the deployment *)
  let* createdAt := lift Now in
  let* deployments := get_deployments in
  let* _ := set_deployments
    (<[App.Name app :=
         Deployment.mk (App.Name app) containerID (App.Image app) createdAt
           "app" (App.DependsOn app) (Some (App.HealthCheck app))
           [] (App.Environment app) (App.Ports app)
           (App.RestartPolicy app)]> deployments) in
  (* Perform health check if configured *)
  if negb (String.eqb (HealthCheck.Type_ (App.HealthCheck app)) "")
  then wrapf "health check failed"
         (performHealthCheck ctx (App.Name app) (App.HealthCheck app))
  else ret tt.

(** The body of the loop of [deployServices]. *)
Definition deploy_service_step (ctx : Context.t) (service : Service.t)
    : M state unit :=
  let* deployments := get_deployments in
  (* Skip if already deployed *)
  if bool_decide (is_Some (deployments !! Service.Name service)) then ret tt
  (* Check if all dependencies are deployed *)
  else if negb (areDependenciesDeployed deployments (Service.DependsOn service))
  then fail (Errorf ("dependencies for service " +:+ Service.Name service +:+
                     " are not yet deployed"))
  else wrapf ("failed to deploy service " +:+ Service.Name service)
             (deployService ctx service).

(** deployServices deploys all services in dependency order. *)
Definition deployServices (ctx : Context.t) : M state unit :=
  let* orderedServices := wrapf "failed to resolve service dependencies"
    (of_outcome (Dependencies.resolveServiceDependencies (Config.Services config))) in
  for_each (deploy_service_step ctx) orderedServices.

(** The body of the loop of [deployApps]. *)
Definition deploy_app_step (ctx : Context.t) (app : App.t) : M state unit :=
  let* deployments := get_deployments in
  (* Skip if already deployed *)
  if bool_decide (is_Some (deployments !! App.Name app)) then ret tt
  (* Check if all dependencies are deployed *)
  else if negb (areDependenciesDeployed deployments (App.DependsOn app))
  then fail (Errorf ("dependencies for app " +:+ App.Name app +:+
                     " are not yet deployed"))
  else wrapf ("failed to deploy app " +:+ App.Name app) (deployApp ctx app).

(** deployApps deploys all applications in dependency order. *)
Definition deployApps (ctx : Context.t) : M state unit :=
  let* orderedApps := wrapf "failed to resolve app dependencies"
    (of_outcome (Dependencies.resolveAppDependencies (Config.Apps config))) in
  for_each (deploy_app_step ctx) orderedApps.

(** Deploy executes the deployment process. *)
Definition Deploy (ctx : Context.t) : M state unit :=
  (* Apply timeout if specified *)
  let* start := lift Now in
  let ctx :=
    if (0 <? Config.Timeout config)%Z
    then Context.WithTimeout ctx start (wrap64 (Config.Timeout config * Minute))
    else ctx in
  (* Setup Docker network *)
  let* _ := wrapf "failed to setup Docker network"
    (lift (let* err := call (docker_setup w) EvDockerSetup in of_error err)) in
  (* Setup SSL certificates if enabled *)
  let* _ :=
    if SSLConfig.Enabled (Config.SSL config)
    then wrapf "failed to setup SSL"
           (lift (let* err := call (ssl_setup w) EvSSLSetup in of_error err))
    else ret tt in
  (* Deploy persistent services *)
  let* _ := wrapf "failed to deploy services" (deployServices ctx) in
  (* Deploy applications *)
  let* _ := wrapf "failed to deploy apps" (deployApps ctx) in
  (* Setup proxy with deployed apps *)
  wrapf "failed to setup proxy"
    (lift (let* err := call (proxy_setup w) EvProxySetup in of_error err)).

(** rollbackDeployment removes a single deployment. *)
Definition rollbackDeployment (ctx : Context.t) (deployment : Deployment.t)
    : M state unit :=
  (* Stop and remove the container *)
  let* _ := wrapf "failed to stop container"
    (lift (let* err := call (λ l, stop_container w l
                                    (Deployment.ContainerID deployment) 10)
                            (EvStopContainer (Deployment.ContainerID deployment) 10) in
           of_error err)) in
  let* _ := wrapf "failed to remove container"
    (lift (let* err := call (λ l, remove_container w l
                                    (Deployment.ContainerID deployment) true)
                            (EvRemoveContainer (Deployment.ContainerID deployment)
                                               true) in
           of_error err)) in
  (* Remove the deployment record *)
  let* deployments := get_deployments in
  set_deployments (delete (Deployment.Name deployment) deployments).

(** The body of the two loops of [Rollback], for the unit called [name];
    [errors] is the slice of errors collected so far. *)
Definition rollback_step (ctx : Context.t) (errors : list error) (name : string)
    : M state (list error) :=
  let* deployments := get_deployments in
  match deployments !! name with
  | Some deployment =>
      let* err := catch (rollbackDeployment ctx deployment) in
      match err with
      | inl err => ret (errors ++ [err])
      | inr _ => ret errors
      end
  | None => ret errors
  end.

(** Rollback performs a rollback of the deployment. *)
Definition Rollback (ctx : Context.t) : M state unit :=
  (* First, clean up the proxy; a failure is only logged *)
  let* _ := lift (call (proxy_cleanup w) EvProxyCleanup) in
  (* Rollback apps *)
  let* errors := for_fold (rollback_step ctx)
                          (App.Name <$> Config.Apps config) [] in
  (* Rollback services in reverse dependency order *)
  let reversedServices := reverseServices (Config.Services config) in
  let* errors := for_fold (rollback_step ctx)
                          (Service.Name <$> reversedServices) errors in
  if (0 <? length errors)%nat then fail (rollback_errors (length errors))
  else ret tt.

(** VerifyExternalAccess performs external verification checks for all
    deployed applications. *)
Definition VerifyExternalAccess (ctx : Context.t) : M state unit :=
  lift (External.VerifyExternalAccess w config ctx).

End manager.

End Manager.

(** ** Package config: the defaults *)

Module Defaults.

(** [strings.Contains(s, substr)] *)
Fixpoint Contains (s substr : string) : bool :=
  String.prefix substr s ||
  match s with
  | EmptyString => false
  | String _ rest => Contains rest substr
  end.

Section defaults.
(** [strings.ToLower], which maps the letters of every script. *)
Variable ToLower : string → string.

(** contains checks if a string contains any of the substrings. *)
Definition contains (s : string) (substrings : list string) : bool :=
  let s := ToLower s in
  existsb (λ sub, Contains s (ToLower sub)) substrings.

(** applyHealthCheckDefaults sets sensible health check defaults based on
    service type. *)
Definition applyHealthCheckDefaults (name image : string) (health : HealthCheck.t)
    : HealthCheck.t :=
  (* Skip if already configured *)
  if negb (String.eqb (HealthCheck.Type_ health) "") then health
  else
    (* Default values; the switch sets the type, the port and, for http,
       the path *)
    let tcp port := HealthCheck.mk "tcp" (HealthCheck.Path health) port 30 10 3 60 in
    let http port := HealthCheck.mk "http" "/health" port 30 10 3 60 in
    if contains image ["postgres"; "postgresql"] then tcp 5432%Z
    else if contains image ["mysql"; "mariadb"] then tcp 3306%Z
    else if contains image ["mongo"; "mongodb"] then tcp 27017%Z
    else if contains image ["redis"] then tcp 6379%Z
    else if contains image ["rabbitmq"] then tcp 5672%Z
    else if contains image ["nginx"; "traefik"] then http 80%Z
    (* Default to HTTP for apps, TCP for services *)
    else if Validation.HasPrefix name "app-" then http 8080%Z
    else tcp 8080%Z.

(** applyServiceDefaults sets defaults for a service. *)
Definition applyServiceDefaults (service : Service.t) : Service.t :=
  let RestartPolicy :=
    if String.eqb (Service.RestartPolicy service) "" then "unless-stopped"
    else Service.RestartPolicy service in
  Service.mk (Service.Name service) (Service.Image service)
    (Service.Volumes service) (Service.Environment service)
    (Service.Ports service) (Service.DependsOn service)
    (applyHealthCheckDefaults (Service.Name service) (Service.Image service)
                              (Service.HealthCheck service))
    RestartPolicy.

(** applyAppDefaults sets defaults for an app. *)
Definition applyAppDefaults (app : App.t) : App.t :=
  let RestartPolicy :=
    if String.eqb (App.RestartPolicy app) "" then "unless-stopped"
    else App.RestartPolicy app in
  (* If no routing is specified, use the app name as subdomain *)
  let Subdomain :=
    if String.eqb (App.Subdomain app) "" && String.eqb (App.Path app) ""
    then App.Name app else App.Subdomain app in
  App.mk (App.Name app) (App.Image app) Subdomain (App.Path app)
    (App.Environment app) (App.Ports app) (App.Volumes app) (App.DependsOn app)
    (applyHealthCheckDefaults (App.Name app) (App.Image app) (App.HealthCheck app))
    RestartPolicy.

(** ApplyDefaults sets default values for missing configuration. *)
Definition ApplyDefaults (config : Config.t) : Config.t :=
  let Version :=
    if String.eqb (Config.Version config) "" then "1.0" else Config.Version config in
  let Timeout :=
    if (Config.Timeout config <=? 0)%Z then 30%Z else Config.Timeout config in
  let LogLevel :=
    if String.eqb (Config.LogLevel config) "" then "info"
    else Config.LogLevel config in
  let proxy := Config.Proxy config in
  let Proxy :=
    ProxyConfig.mk
      (if String.eqb (ProxyConfig.Type_ proxy) "" then "nginx"
       else ProxyConfig.Type_ proxy)
      (if (ProxyConfig.Port proxy <=? 0)%Z then 80%Z else ProxyConfig.Port proxy)
      (if (ProxyConfig.HTTPSPort proxy <=? 0)%Z then 443%Z
       else ProxyConfig.HTTPSPort proxy) in
  let ssl := Config.SSL config in
  let SSL :=
    if SSLConfig.Enabled ssl
       && (negb (SSLConfig.DNSChallenge ssl)
           && String.eqb (SSLConfig.DNSProvider ssl) "")
    then (* Default to HTTP challenge if not specified *)
      SSLConfig.mk (SSLConfig.Enabled ssl) (SSLConfig.Provider ssl)
        (SSLConfig.Email ssl) (SSLConfig.SelfSigned ssl) false
        (SSLConfig.DNSProvider ssl) (SSLConfig.DNSCredentials ssl)
    else ssl in
  Config.mk Version (Config.Domain config) SSL Proxy
    (applyServiceDefaults <$> Config.Services config)
    (applyAppDefaults <$> Config.Apps config)
    (Config.EnvGlobal config) Timeout LogLevel.

End defaults.

End Defaults.

(** ** Package deployment: the status reporter *)

Module Status.
Import Stdlib.Strings.Ascii.

Definition percent : ascii := "%"%char.
Definition CR : ascii := "013"%char.
Definition LF : ascii := "010"%char.

(** [strings.ReplaceAll(s, old, new)] for an [old] of one byte. *)
Fixpoint ReplaceAll (s : string) (old : ascii) (new : string) : string :=
  match s with
  | EmptyString => EmptyString
  | String c rest =>
      if Ascii.eqb c old then new +:+ ReplaceAll rest old new
      else String c (ReplaceAll rest old new)
  end.

(** The escaping of special characters in [SetOutput]. *)
Definition escape (value : string) : string :=
  let value := ReplaceAll value percent "%25" in
  let value := ReplaceAll value CR "%0D" in
  let value := ReplaceAll value LF "%0A" in
  value.

(** SetOutput sets an output variable for GitHub Actions; the result is
    what it prints. *)
Definition SetOutput (enabled : bool) (name value : string) : string :=
  if enabled then
    "::set-output name=" +:+ name +:+ "::" +:+ escape value +:+ String LF ""
  else "".

End Status.

(** * Vocabulary of the properties *)

Module DependenciesSpec.
Import Dependencies.

(** An outcome that is a Go outcome: a value or an error. *)
Definition settled {A} (r : outcome A) : Prop :=
  match r with
  | Return _ | Fail _ => True
  | Panic | OutOfFuel => False
  end.

Section traversal.
Variable dependencies : gmap string (list string).
Local Abbreviation edge := (edge dependencies).

(** The nodes of [U] that are not in progress. A visit needs a budget
    above their number. *)
Definition idle (U : gset string) (s : dfs) : gset string :=
  filter (λ k, flag (temp s) k = false) U.

(** What holds of the traversal state between visits. *)
Record inv (s : dfs) : Prop := Inv {
  inv_nodup : NoDup (order s);
  inv_visited : ∀ k, k ∈ order s ↔ flag (visited s) k = true;
  inv_temp : ∀ k, flag (temp s) k = true → flag (visited s) k = false;
  inv_closed : ∀ a b, a ∈ order s → edge a b → before (order s) b a
}.

(** [order] only grows at its end, by nodes that satisfy [R]. *)
Definition grows (R : string → Prop) (s s' : dfs) : Prop :=
  ∃ new, order s' = order s ++ new ∧ ∀ x, x ∈ new → R x.

End traversal.

Section units.
Context {A : Type} (name : A → string) (deps : A → list string).

(** The first loop of the two resolvers, over any kind of unit. *)
Fixpoint unit_graph (i : nat) (units : list A)
    (nameToIndex : gmap string nat) (dependencies : gmap string (list string))
    : gmap string nat * gmap string (list string) :=
  match units with
  | [] => (nameToIndex, dependencies)
  | u :: rest =>
      unit_graph (S i) rest (<[name u := i]> nameToIndex)
                 (<[name u := deps u]> dependencies)
  end.

(** The two resolvers, over any kind of unit. *)
Definition resolve_units (units : list A) : outcome (list A) :=
  let '(nameToIndex, dependencies) := unit_graph 0 units ∅ ∅ in
  match resolveDependencyOrder (name <$> units) dependencies with
  | Return sortedNames => pick units nameToIndex sortedNames
  | Fail err => Fail err
  | Panic => Panic
  | OutOfFuel => OutOfFuel
  end.

(** What a resolver over units does with the dependency name [x]: the
    sorted names contain [x], the result is as long as the sorted names
    and holds the unit at index 0 wherever a sorted name is no unit's
    name, so it is longer than the input and repeats a unit. *)
Definition out_of_group (resolve : list A → outcome (list A))
    (graph : gmap string nat * gmap string (list string))
    (units : list A) (x : string) : Prop :=
  ∃ sortedNames result first,
    resolveDependencyOrder (name <$> units) graph.2 = Return sortedNames ∧
    resolve units = Return result ∧
    x ∈ sortedNames ∧
    length result = length sortedNames ∧
    units !! 0 = Some first ∧
    (∀ i y, sortedNames !! i = Some y → y ∉ name <$> units →
            result !! i = Some first) ∧
    length units < length result ∧
    ¬ NoDup result.

End units.

(** The two-service chain of the design document: [S2] depends on [S1]. *)
Definition chain : gmap string (list string) :=
  <["S1" := []]> (<["S2" := ["S1"]]> ∅).

(** Units for examples: only the name and the dependencies matter. *)
Definition no_health : HealthCheck.t := HealthCheck.mk "" "" 0 0 0 0 0.

Definition app_of (name : string) (deps : list string) : App.t :=
  App.mk name "image" "" "" ∅ [] [] deps no_health "".

Definition service_of (name : string) (deps : list string) : Service.t :=
  Service.mk name "image" [] ∅ [] deps no_health "".

End DependenciesSpec.

Module ValidationSpec.
Import Validation.

(** A name is known to a check when the map filled so far has it, or one
    of the units [names] that the loop has gone through. *)
Definition known (m : gmap string bool) (names : list string) (k : string) : Prop :=
  flag m k = true ∨ k ∈ names.

(** The same unit without its dependencies. *)
Definition service_without_deps (s : Service.t) : Service.t :=
  Service.mk (Service.Name s) (Service.Image s) (Service.Volumes s)
    (Service.Environment s) (Service.Ports s) [] (Service.HealthCheck s)
    (Service.RestartPolicy s).

Definition app_without_deps (a : App.t) : App.t :=
  App.mk (App.Name a) (App.Image a) (App.Subdomain a) (App.Path a)
    (App.Environment a) (App.Ports a) (App.Volumes a) [] (App.HealthCheck a)
    (App.RestartPolicy a).


(** Every dependency of a service names a service at or before it. *)
Definition service_deps_known (m : gmap string bool) (services : list Service.t)
    : Prop :=
  ∀ j svc d, services !! j = Some svc → d ∈ Service.DependsOn svc →
             known m (Service.Name <$> take (S j) services) d.

(** Every dependency of an app names a service, or an app at or before it. *)
Definition app_deps_known (serviceNames m : gmap string bool) (apps : list App.t)
    : Prop :=
  ∀ j app d, apps !! j = Some app → d ∈ App.DependsOn app →
             flag serviceNames d = true ∨ known m (App.Name <$> take (S j) apps) d.






(** Every dependency of a service names a service declared at or before
    it, and every dependency of an app names a service, or an app declared
    at or before it. *)
Definition dependencies_in_order (config : Config.t) : Prop :=
  (∀ j svc d, Config.Services config !! j = Some svc →
     d ∈ Service.DependsOn svc →
     d ∈ Service.Name <$> take (S j) (Config.Services config)) ∧
  (∀ j app d, Config.Apps config !! j = Some app → d ∈ App.DependsOn app →
     d ∈ Service.Name <$> Config.Services config ∨
     d ∈ App.Name <$> take (S j) (Config.Apps config)).

End ValidationSpec.

Module HealthSpec.
Import Health.

(** What the health gate does, read off the event log: a probe attempt
    starts with building the request (http) or with dialling (tcp); a
    delay is a wait on a timer and the context. *)
Inductive tag : Type :=
  | Attempt
  | Delay (d : Z).

#[global] Instance tag_eq_dec : EqDecision tag.
Proof. solve_decision. Defined.

Definition tag_of (ev : event) : option tag :=
  match ev with
  | EvNewRequest _ _ _ | EvDial _ _ _ => Some Attempt
  | EvWait d _ => Some (Delay d)
  | _ => None
  end.

Definition shape (evs : list event) : list tag := omap tag_of evs.

(** How a probe ended, at the event that ends it: an http probe succeeds
    with a status in [200,400), a tcp probe with a connection. *)
Definition probe_ok (ev : event) : option bool :=
  match ev with
  | EvNewRequest _ _ (Some _) => Some false
  | EvHTTP _ _ (inl _) => Some false
  | EvHTTP _ _ (inr status) => Some ((200 <=? status)%Z && (status <? 400)%Z)
  | EvDial _ _ err => Some (bool_decide (err = None))
  | _ => None
  end.

Definition results (evs : list event) : list bool := omap probe_ok evs.

(** [k] further attempts, each after a delay of [interval]. *)
Fixpoint later (interval : Z) (k : nat) : list tag :=
  match k with
  | O => []
  | S k' => Delay interval :: Attempt :: later interval k'
  end.

(** [n] attempts with a delay of [interval] between consecutive ones and
    none before the first. *)
Definition alternating (interval : Z) (n : nat) : list tag :=
  match n with
  | O => []
  | S k => Attempt :: later interval k
  end.

Definition count_attempts (ts : list tag) : nat :=
  length (filter (λ t, t = Attempt) ts).

Definition count_delays (ts : list tag) : nat :=
  length (filter (λ t, t ≠ Attempt) ts).

Section gate.
Variable w : World.
Variable ctx : Context.t.
Variable options : CheckOptions.t.
Local Abbreviation interval := (CheckOptions.Interval options).

(** The shape that the loop may still produce when it is entered with
    attempt number [a] and [rem] iterations to go. *)
Definition expected (a : Z) (rem : nat) : list tag :=
  if (0 <? a)%Z then later interval rem else alternating interval rem.

(** The error after the loop wraps the error of the probe that ended in
    the final state [s'], or it is built from the [lastErr] that the
    loop was entered with when the loop body did not run. *)
Definition wraps_last (rem : nat) (lastErr : option error) (s' : proc)
    (e : error) : Prop :=
  ∃ last, e = health_check_failed last ∧
    ((rem = 0 ∧ last = lastErr) ∨
     ∃ e1 s1, last = Some e1 ∧ probe w ctx options s1 = (Return (inl e1), s')).

Definition loop_outcome (a : Z) (rem : nat) (lastErr : option error)
    (body : list event) (r : outcome unit) (s' : proc) : Prop :=
  ∃ fails,
    match r with
    | Return _ =>
        fails < rem ∧ results body = replicate fails false ++ [true] ∧
        ∃ s1, probe w ctx options s1 = (Return (inr tt), s')
    | Fail e =>
        results body = replicate fails false ∧
        ((fails = rem ∧ shape body = expected a rem ∧ wraps_last rem lastErr s' e) ∨
         (fails < rem ∧
          (e = Context.err ctx ∨
           e = unsupported_type (CheckOptions.Type_ options))))
    | _ => False
    end.

(** The probe returned [o] in some state. *)
Definition probed (o : error + unit) : Prop :=
  ∃ s1 s2, probe w ctx options s1 = (Return o, s2).

Definition passed (o : error + unit) : bool :=
  match o with inr _ => true | inl _ => false end.

(** In this world every probe of the unit fails, and every probe passes. *)
Definition every_probe_fails : Prop :=
  ∀ s1, ∃ e s2, probe w ctx options s1 = (Return (inl e), s2).

Definition every_probe_passes : Prop :=
  ∀ s1, ∃ s2, probe w ctx options s1 = (Return (inr tt), s2).

(** The ways in which the loop ends when it is entered with attempt
    number [a] and [rem] iterations to go: a probe passes; all [rem]
    probes fail; a wait is cut short by the context; the type of the
    health check is not supported. The results in the log are those of
    probes. *)
Definition loop_cases (a : Z) (rem : nat) (lastErr : option error)
    (body : list event) (r : outcome unit) (s' : proc) : Prop :=
  ∃ outcomes,
    Forall probed outcomes ∧ results body = passed <$> outcomes ∧
    ((∃ k, k < rem ∧ r = Return tt ∧
           results body = replicate k false ++ [true] ∧
           shape body = expected a (S k)) ∨
     (∃ e, r = Fail e ∧ wraps_last rem lastErr s' e ∧
           results body = replicate rem false ∧ shape body = expected a rem) ∨
     (∃ k, k < rem ∧ r = Fail (Context.err ctx) ∧
           Context.is_done ctx (now s') = true ∧
           last body = Some (EvWait interval false) ∧
           results body = replicate k false ∧
           shape body = expected a k ++ [Delay interval]) ∨
     (r = Fail (unsupported_type (CheckOptions.Type_ options)) ∧
      String.eqb (CheckOptions.Type_ options) "http" = false ∧
      String.eqb (CheckOptions.Type_ options) "tcp" = false ∧
      results body = [] ∧ ((0 <? a)%Z = false → body = []))).

(** The ways in which the gate ends after the events [start] of the start
    period and the events [body] of the loop, with [n] retries. *)
Definition gate_cases (n : nat) (start body : list event) (r : outcome unit)
    (s' : proc) : Prop :=
  ∃ outcomes,
    Forall probed outcomes ∧ results body = passed <$> outcomes ∧
    ((∃ k, k < n ∧ r = Return tt ∧
           results body = replicate k false ++ [true] ∧
           shape body = alternating interval (S k)) ∨
     (∃ e s1, r = Fail (Wrap "health check failed" e) ∧
              probe w ctx options s1 = (Return (inl e), s') ∧
              results body = replicate n false ∧
              shape body = alternating interval n) ∨
     (∃ d k, r = Fail (Context.err ctx) ∧
             Context.is_done ctx (now s') = true ∧
             last (start ++ body) = Some (EvWait d false) ∧
             k < n ∧ results body = replicate k false) ∨
     (r = Fail (unsupported_type (CheckOptions.Type_ options)) ∧
      CheckOptions.Type_ options ≠ "http" ∧
      CheckOptions.Type_ options ≠ "tcp" ∧ body = [])).

End gate.

(** A world for examples: no probe ever gets through; the container
    runtime and the other collaborators work. *)
Definition refusing : World := {|
  new_request := λ _ _, None;
  http_do := λ _ _ _, inl (Errorf "no route to host");
  dial := λ _ _ _, Some (Errorf "connection refused");
  net_time := λ _, 0%Z;
  select_tie := λ _, true;
  docker_setup := λ _, None;
  pull_image := λ _ _, None;
  scan_image := λ _ _, inl (Errorf "no scanner");
  create_container := λ _ name _, inr ("id-" +:+ name);
  start_container := λ _ _, None;
  stop_container := λ _ _ _, None;
  remove_container := λ _ _ _, None;
  ssl_setup := λ _, None;
  proxy_setup := λ _, None;
  proxy_cleanup := λ _, None
|}.

(** A tcp health check of the unit [db], without a start period. *)
Definition tcp_options (retries : Z) : CheckOptions.t :=
  CheckOptions.mk "tcp" "db" 5432 "" (10 * Second) (30 * Second) retries 0.

End HealthSpec.

Module ExternalSpec.
Import External.

(** The text [sub] occurs in [text]. *)
Definition names_in (text sub : string) : Prop :=
  ∃ pre post, text = pre +:+ sub +:+ post.

Fixpoint contains (sub text : string) : bool :=
  String.prefix sub text ||
  match text with
  | EmptyString => false
  | String _ rest => contains sub rest
  end.

(** The probe did not get a 2xx answer. *)
Definition failing (resp : error + Z) : Prop :=
  match resp with
  | inl _ => True
  | inr status => ¬ (200 ≤ status < 300)%Z
  end.

(** The events of the log that are HTTP exchanges: the attempts. *)
Definition is_attempt (ev : event) : bool :=
  match ev with EvHTTP _ _ _ => true | _ => false end.

(** The sleeps that another attempt follows. *)
Fixpoint waits_between (evs : list event) : list Z :=
  match evs with
  | [] => []
  | EvSleep d :: rest =>
      if existsb is_attempt rest then d :: waits_between rest
      else waits_between rest
  | _ :: rest => waits_between rest
  end.

End ExternalSpec.

Module ManagerSpec.
Import Manager.
Import HealthSpec.

(** The containers that a teardown was attempted on, in the order of the
    attempts: every [rollbackDeployment] begins with [StopContainer]. *)
Definition attempted (evs : list event) : list string :=
  omap (λ ev, match ev with EvStopContainer id _ _ => Some id | _ => None end) evs.

(** A stop or a removal that failed. *)
Definition failed_op (ev : event) : bool :=
  match ev with
  | EvStopContainer _ _ (Some _) | EvRemoveContainer _ _ (Some _) => true
  | _ => false
  end.

Definition failures (evs : list event) : nat := length (List.filter failed_op evs).

(** The stop or the removal of container [id] failed. *)
Definition teardown_failed (id : string) (evs : list event) : Prop :=
  ∃ e, EvStopContainer id 10 (Some e) ∈ evs ∨ EvRemoveContainer id true (Some e) ∈ evs.

(** Every record is stored under the name of its unit. *)
Definition well_keyed (deployments : gmap string Deployment.t) : Prop :=
  ∀ k d, deployments !! k = Some d → Deployment.Name d = k.

(** The records of the units called [names], in that order. *)
Definition registered (deployments : gmap string Deployment.t)
    (names : list string) : list Deployment.t :=
  omap (λ n, deployments !! n) names.

(** The names of the units in the order in which [Rollback] goes through
    them. *)
Definition rollback_order (config : Config.t) : list string :=
  (App.Name <$> Config.Apps config) ++
  (Service.Name <$> reverseServices (Config.Services config)).

(** The names of all units of the configuration. *)
Definition unit_names (config : Config.t) : list string :=
  (App.Name <$> Config.Apps config) ++ (Service.Name <$> Config.Services config).

(** What one round of a rollback loop does for the unit called [name]. *)
Definition step_result (D : gmap string Deployment.t) (name : string)
    (errs : list error) (new : list event) (D' : gmap string Deployment.t) : Prop :=
  match D !! name with
  | None => errs = [] ∧ new = [] ∧ D' = D
  | Some d =>
      attempted new = [Deployment.ContainerID d] ∧
      ((errs = [] ∧ failures new = 0 ∧ D' = delete (Deployment.Name d) D) ∨
       (∃ e, errs = [e] ∧ failures new = 1 ∧ D' = D ∧
             teardown_failed (Deployment.ContainerID d) new))
  end.

(** What a rollback loop over units with distinct names does: one attempt
    for each registered unit, in the order of the names; as many errors as
    failed attempts; the records of the units whose teardown succeeded are
    gone and all other records are kept. *)
Definition loop_result (D : gmap string Deployment.t) (names : list string)
    (errs : list error) (new : list event) (D' : gmap string Deployment.t) : Prop :=
  attempted new = Deployment.ContainerID <$> registered D names ∧
  length errs = failures new ∧
  D' ⊆ D ∧
  (∀ k, k ∉ names → D' !! k = D !! k) ∧
  size D' + length (registered D names) = size D + failures new ∧
  (∀ k d, D' !! k = Some d → k ∈ names →
          teardown_failed (Deployment.ContainerID d) new).

(** How the deploy of the unit [name] with health check [hc] went from
    [st] to [st'] with outcome [r]: either it failed before the container
    was started and the registry is as before, or the record of the unit
    was inserted, and then the health gate, if one is configured, ran on
    the registry that already held the record, and a failure of the gate
    is the failure of the deploy. *)
Definition gate_after_registration (w : World) (ctx : Context.t) (name : string)
    (hc : HealthCheck.t) (st : state) (r : outcome unit) (st' : state) : Prop :=
  (deployments st' = deployments st ∧
   ∃ msg e, r = Fail (Wrap msg e) ∧
            msg ∈ ["failed to pull image"; "failed to create container";
                   "failed to start container"]) ∨
  (∃ record,
     Deployment.Name record = name ∧
     deployments st' = <[name := record]> (deployments st) ∧
     ((HealthCheck.Type_ hc = "" ∧ r = Return tt) ∨
      (HealthCheck.Type_ hc ≠ "" ∧
       ∃ p1 r0, performHealthCheck w ctx name hc (State (deployments st') p1)
                = (r0, st') ∧
                r = match r0 with
                    | Fail e => Fail (Wrap "health check failed" e)
                    | other => other
                    end))).

Definition no_ssl : SSLConfig.t := SSLConfig.mk false "" "" false false "" ∅.

Definition config_of (services : list Service.t) (apps : list App.t) : Config.t :=
  Config.mk "1.0" "example.com" no_ssl (ProxyConfig.mk "nginx" 80 443)
    services apps ∅ 0 "info".

Definition record_of (name id type : string) (deps : list string) : Deployment.t :=
  Deployment.mk name id "image" 0 type deps (Some DependenciesSpec.no_health)
    [] ∅ [] "".

(** A world in which no probe gets through and no container can be
    stopped. *)
Definition stuck : World := {|
  new_request := new_request refusing;
  http_do := http_do refusing;
  dial := dial refusing;
  net_time := net_time refusing;
  select_tie := select_tie refusing;
  docker_setup := docker_setup refusing;
  pull_image := pull_image refusing;
  scan_image := scan_image refusing;
  create_container := create_container refusing;
  start_container := start_container refusing;
  stop_container := λ _ _ _, Some (Errorf "container is busy");
  remove_container := remove_container refusing;
  ssl_setup := ssl_setup refusing;
  proxy_setup := proxy_setup refusing;
  proxy_cleanup := proxy_cleanup refusing
|}.

(** The names of the containers created, in the order of creation. *)
Definition created (evs : list event) : list string :=
  omap (λ ev, match ev with EvCreateContainer name _ _ => Some name | _ => None end)
       evs.

(** An app with a tcp health check and one retry. *)
Definition checked_app (name : string) : App.t :=
  App.mk name "image" "" "" ∅ [] [] []
    (HealthCheck.mk "tcp" "" 8080 1 1 1 0) "".

(** A service and an app, both registered. *)
Definition example_config : Config.t :=
  config_of [DependenciesSpec.service_of "S1" []]
            [DependenciesSpec.app_of "A1" []].

Definition example_registry : gmap string Deployment.t :=
  <["A1" := record_of "A1" "id-A1" "app" []]>
    (<["S1" := record_of "S1" "id-S1" "service" []]> ∅).

End ManagerSpec.


Module MoreSpec.

(** The traversal state after the names [done] have been visited, in an
    input in which every name comes after its dependencies. *)
Definition visited_in_order (done : list string) (s : Dependencies.dfs) : Prop :=
  Dependencies.order s = done ∧
  (∀ k, flag (Dependencies.visited s) k = true ↔ k ∈ done) ∧
  (∀ k, flag (Dependencies.temp s) k = false).

(** The subdomains that the apps set. *)
Definition subdomains_set (apps : list App.t) : list string :=
  filter (λ d, d ≠ "") (App.Subdomain <$> apps).

(** The paths that the apps set, in the form in which they are compared. *)
Definition paths_set (apps : list App.t) : list string :=
  Validation.normalizePath <$> filter (λ p, p ≠ "") (App.Path <$> apps).

(** A configuration that [Validate] accepts: two services, the second
    depending on the first, and an app depending on the second. *)
Definition accepted_config : Config.t :=
  Config.mk "1.0" "example.com"
    (SSLConfig.mk true "letsencrypt" "ops@example.com" false false "" ∅)
    (ProxyConfig.mk "" 0 0)
    [DependenciesSpec.service_of "S1" []; DependenciesSpec.service_of "S2" ["S1"]]
    [App.mk "A1" "image" "www" "/api/" ∅ [] [] ["S2"] DependenciesSpec.no_health ""]
    ∅ 0 "".

(** The SSL settings that [Validate] asks for. *)
Definition ssl_complete (ssl : SSLConfig.t) : Prop :=
  SSLConfig.Enabled ssl = true →
  (SSLConfig.SelfSigned ssl = false → SSLConfig.Email ssl ≠ "") ∧
  (SSLConfig.DNSChallenge ssl = true → SSLConfig.DNSProvider ssl ≠ "").

End MoreSpec.

Module BackoffSpec.


End BackoffSpec.

Module RegistrySpec.
Import Manager.
Import ManagerSpec.
Import DependenciesSpec.

(** The registry [D'] holds what [D] holds and, beyond that, only records
    of units called [names], and it is well keyed when [D] is. *)
Definition extends (names : list string) (D D' : gmap string Deployment.t) : Prop :=
  D ⊆ D' ∧
  (∀ k, is_Some (D' !! k) → is_Some (D !! k) ∨ k ∈ names) ∧
  (well_keyed D → well_keyed D').

(** The body that the loops of [deployServices] and [deployApps] share. *)
Definition guarded (name : string) (dependencies : list string)
    (missing wrap : string) (deploy : M state unit) : M state unit :=
  let* deployments := get_deployments in
  if bool_decide (is_Some (deployments !! name)) then ret tt
  else if negb (areDependenciesDeployed deployments dependencies)
  then fail (Errorf missing)
  else wrapf wrap deploy.

(** What one round of a deployment loop does for the unit [name]. *)
Definition step_ok (name : string) (dependencies : list string)
    (st : state) (r : outcome unit) (st' : state) : Prop :=
  settled r ∧
  extends [name] (deployments st) (deployments st') ∧
  (r = Return tt → is_Some (deployments st' !! name)) ∧
  (deployments st !! name = None →
   areDependenciesDeployed (deployments st) dependencies = false →
   ∃ e, r = Fail e).

(** The registry after a rollback loop over [names] in which every
    teardown succeeds. *)
Definition cleared (names : list string) (D : gmap string Deployment.t)
    : gmap string Deployment.t :=
  foldl (λ D n, delete n D) D names.

(** A container runtime that stops and removes every container. *)
Definition tears_down (w : World) : Prop :=
  (∀ l id t, stop_container w l id t = None) ∧
  (∀ l id f, remove_container w l id f = None).

(** The part of [Deploy] that follows the set-up of the network and of
    the certificates. *)
Definition deploy_units (w : World) (config : Config.t) (ctx : Context.t) : M state unit :=
  let* _ := wrapf "failed to deploy services" (deployServices w config ctx) in
  let* _ := wrapf "failed to deploy apps" (deployApps w config ctx) in
  wrapf "failed to setup proxy"
    (lift (let* err := call (proxy_setup w) EvProxySetup in of_error err)).

End RegistrySpec.

Module DefaultsSpec.
Import Dependencies.

(** [f] applied to the value of an outcome. *)
Definition outcome_map {A B} (f : A → B) (r : outcome A) : outcome B :=
  match r with
  | Return a => Return (f a)
  | Fail e => Fail e
  | Panic => Panic
  | OutOfFuel => OutOfFuel
  end.

(** A health check as [applyHealthCheckDefaults] completes one that names
    no type. *)
Definition completed (health health' : HealthCheck.t) : Prop :=
  (HealthCheck.Type_ health' = "tcp" ∨ HealthCheck.Type_ health' = "http") ∧
  HealthCheck.Interval health' = 30%Z ∧ HealthCheck.Timeout health' = 10%Z ∧
  HealthCheck.Retries health' = 3%Z ∧ HealthCheck.StartPeriod health' = 60%Z ∧
  (0 < HealthCheck.Port health')%Z ∧
  (HealthCheck.Type_ health' = "tcp" → HealthCheck.Path health' = HealthCheck.Path health) ∧
  (HealthCheck.Type_ health' = "http" → HealthCheck.Path health' = "/health").

(** For examples: the identity in the place of [strings.ToLower], which
    is what it is on text without capital letters. *)
Definition lower_case_text (s : string) : string := s.

End DefaultsSpec.

Module StatusSpec.
Import Stdlib.Strings.Ascii.
Import Status.

(** The escaping in one pass over the value. *)
Fixpoint escape_bytes (value : string) : string :=
  match value with
  | EmptyString => EmptyString
  | String c rest =>
      if Ascii.eqb c percent then "%25" +:+ escape_bytes rest
      else if Ascii.eqb c CR then "%0D" +:+ escape_bytes rest
      else if Ascii.eqb c LF then "%0A" +:+ escape_bytes rest
      else String c (escape_bytes rest)
  end.

(** Reading an escaped value back. *)
Fixpoint unescape (s : string) : string :=
  match s with
  | EmptyString => EmptyString
  | String c rest =>
      if Ascii.eqb c percent then
        match rest with
        | String a (String b rest') =>
            if Ascii.eqb a "2"%char && Ascii.eqb b "5"%char
            then String percent (unescape rest')
            else if Ascii.eqb a "0"%char && Ascii.eqb b "D"%char
            then String CR (unescape rest')
            else if Ascii.eqb a "0"%char && Ascii.eqb b "A"%char
            then String LF (unescape rest')
            else String c (unescape rest)
        | _ => String c (unescape rest)
        end
      else String c (unescape rest)
  end.

(** The byte [c] occurs in [s]. *)
Fixpoint occurs (c : ascii) (s : string) : bool :=
  match s with
  | EmptyString => false
  | String x rest => Ascii.eqb x c || occurs c rest
  end.

End StatusSpec.

(** * Properties *)


(** ** The dependency resolver *)

Module DependenciesFacts.
Import Dependencies.
Import DependenciesSpec.

Lemma flag_insert (m : gmap string bool) k b k' :
  flag (<[k := b]> m) k' = if decide (k = k') then b else flag m k'.
Proof. unfold flag. rewrite lookup_insert. by case_decide. Qed.

Lemma flag_empty k : flag ∅ k = false.
Proof. done. Qed.

Lemma NoDup_reverse {A} (l : list A) : NoDup l → NoDup (reverse l).
Proof. by rewrite reverse_Permutation. Qed.

Lemma range_Return (P : dfs → Prop) body xs s s' :
  P s →
  (∀ x s1 s2, x ∈ xs → P s1 → body x s1 = Return s2 → P s2) →
  range body xs s = Return s' → P s'.
Proof.
  revert s. induction xs as [|x xs IH]; simpl; intros s Hs Hstep Hr.
  - by simplify_eq.
  - destruct (body x s) as [s1| | |] eqn:Hb; try done.
    apply (IH s1); [|intros y ? ? Hy; apply Hstep; by right|done].
    eapply Hstep; [by left| |]; done.
Qed.

Lemma range_stop (P : dfs → Prop) body xs s r :
  P s →
  (∀ x s1 s2, x ∈ xs → P s1 → body x s1 = Return s2 → P s2) →
  range body xs s = r → (∀ s', r ≠ Return s') →
  ∃ x s1, x ∈ xs ∧ P s1 ∧ body x s1 = r.
Proof.
  revert s. induction xs as [|x xs IH]; simpl; intros s Hs Hstep Hr Hne.
  - by destruct (Hne s).
  - destruct (body x s) as [s1| | |] eqn:Hb.
    + destruct (IH s1) as (y & s2 & ? & ? & ?); [| |done|done|].
      * eapply Hstep; [by left| |]; done.
      * intros y ? ? Hy; apply Hstep; by right.
      * exists y, s2. split_and!; [by right|done..].
    + exists x, s. split_and!; [by left|done|congruence].
    + exists x, s. split_and!; [by left|done|congruence].
    + exists x, s. split_and!; [by left|done|congruence].
Qed.

Section traversal.
Variable dependencies : gmap string (list string).
Local Abbreviation edge := (edge dependencies).
Local Abbreviation visit := (visit dependencies).
Local Abbreviation inv := (DependenciesSpec.inv dependencies).

(** A successful visit leaves the in-progress marks as it found them. *)
Lemma visit_temp fuel name s s' :
  visit fuel name s = Return s' → ∀ k, flag (temp s') k = flag (temp s) k.
Proof.
  revert name s s'. induction fuel as [|fuel IH]; simpl; intros name s s' Hv k.
  { done. }
  destruct (flag (temp s) name) eqn:Ht; [done|].
  destruct (flag (visited s) name) eqn:Hvis; [by simplify_eq|].
  destruct (range _ _ _) as [s2| | |] eqn:Hr; try done. simplify_eq. simpl.
  assert (∀ k, flag (temp s2) k = flag (<[name := true]> (temp s)) k) as Hs2.
  { eapply (range_Return (λ s2, ∀ k, flag (temp s2) k =
                                    flag (<[name := true]> (temp s)) k));
      [| |exact Hr]; [done|].
    intros x s1 s3 _ H1 Hx k'. rewrite (IH _ _ _ Hx). apply H1. }
  rewrite flag_insert. case_decide; [by subst|].
  rewrite Hs2, flag_insert. by case_decide.
Qed.

Lemma range_visit_temp fuel deps s s' :
  range (visit fuel) deps s = Return s' →
  ∀ k, flag (temp s') k = flag (temp s) k.
Proof.
  apply (range_Return (λ s2, ∀ k, flag (temp s2) k = flag (temp s) k)); [done|].
  intros x s1 s3 _ H1 Hx k. rewrite (visit_temp _ _ _ _ Hx). apply H1.
Qed.

Lemma range_visit_stop fuel deps s r :
  range (visit fuel) deps s = r → (∀ s', r ≠ Return s') →
  ∃ d s1, d ∈ deps ∧ (∀ k, flag (temp s1) k = flag (temp s) k) ∧
          visit fuel d s1 = r.
Proof.
  apply (range_stop (λ s2, ∀ k, flag (temp s2) k = flag (temp s) k)); [done|].
  intros x s1 s3 _ H1 Hx k. rewrite (visit_temp _ _ _ _ Hx). apply H1.
Qed.

(** Every in-progress node reaches the node being visited, so a node
    found in progress is on a cycle. *)
Lemma visit_Fail fuel name s e :
  (∀ t, flag (temp s) t = true → tc edge t name) →
  visit fuel name s = Fail e →
  ∃ n, e = cycle_error n ∧ on_cycle dependencies n.
Proof.
  revert name s. induction fuel as [|fuel IH]; simpl; intros name s Hpath Hv.
  { done. }
  destruct (flag (temp s) name) eqn:Ht.
  { simplify_eq. exists name. split; [done|]. by apply Hpath. }
  destruct (flag (visited s) name) eqn:Hvis; [done|].
  destruct (range _ _ _) as [s2|e'| |] eqn:Hr; try done. simplify_eq.
  apply range_visit_stop in Hr as (d & s1 & Hd & Hs1 & Hvd); [|done].
  apply (IH d s1); [|done].
  intros t. rewrite Hs1. simpl. rewrite flag_insert. case_decide as Hn.
  - intros _. subst. by apply tc_once.
  - intros Htt. eapply tc_r; [by apply Hpath|done].
Qed.

Lemma visit_settled (U : gset string) fuel name s :
  (∀ a b, a ∈ U → edge a b → b ∈ U) →
  name ∈ U → size (idle U s) < fuel → settled (visit fuel name s).
Proof.
  intros Hclosed. revert name s.
  induction fuel as [|fuel IH]; simpl; intros name s HU Hsize; [lia|].
  destruct (flag (temp s) name) eqn:Ht; [done|].
  destruct (flag (visited s) name) eqn:Hvis; [done|].
  destruct (range _ _ _) as [s2|e'| |] eqn:Hr; try done.
  all: apply range_visit_stop in Hr as (d & s1 & Hd & Hs1 & Hvd); [|done].
  all: simpl in Hs1.
  all: assert (settled (visit fuel d s1)) as Hset; [|by rewrite Hvd in Hset].
  all: apply IH; [by eapply Hclosed|].
  all: assert (idle U s1 ⊂ idle U s) as Hsub%subset_size; [|lia].
  all: unfold idle; split.
  all: try (intros k [Hk ?]%elem_of_filter; apply elem_of_filter; split; [|done];
            rewrite Hs1, flag_insert in Hk; by case_decide).
  all: intros Hsup; assert (name ∈ filter (λ k, flag (temp s1) k = false) U) as
         [Hk _]%elem_of_filter by (apply Hsup, elem_of_filter; done).
  all: rewrite Hs1, flag_insert in Hk; by case_decide.
Qed.

Lemma grows_refl R s : grows R s s.
Proof. exists []. split; [by rewrite app_nil_r|]. by intros x ?%elem_of_nil. Qed.

Lemma grows_trans (R : string → Prop) s1 s2 s3 :
  grows R s1 s2 → grows R s2 s3 → grows R s1 s3.
Proof.
  intros (n1 & E1 & H1) (n2 & E2 & H2). exists (n1 ++ n2).
  split; [by rewrite E2, E1, app_assoc|].
  intros x [?|?]%elem_of_app; auto.
Qed.

Lemma grows_weaken (R R' : string → Prop) s s' :
  (∀ x, R x → R' x) → grows R s s' → grows R' s s'.
Proof. intros HR (n & E & H). exists n. split; [done|]. auto. Qed.

Lemma grows_elem R s s' x : grows R s s' → x ∈ order s → x ∈ order s'.
Proof. intros (n & -> & _) ?. apply elem_of_app. by left. Qed.

Lemma before_app_l l l' x y : before l x y → before (l ++ l') x y.
Proof.
  intros (i & j & Hi & Hj & Hij). exists i, j.
  split_and!; [by apply lookup_app_l_Some..|done].
Qed.

Lemma before_snoc l x y : x ∈ l → before (l ++ [y]) x y.
Proof.
  intros (i & Hi)%list_elem_of_lookup. exists i, (length l).
  split_and!; [by apply lookup_app_l_Some| |by eapply lookup_lt_Some].
  by rewrite list_lookup_middle.
Qed.

Lemma range_inv_Return (body : string → dfs → outcome dfs) :
  (∀ name s s', inv s → body name s = Return s' →
     inv s' ∧ grows (rtc edge name) s s' ∧ name ∈ order s') →
  ∀ xs s s', inv s → range body xs s = Return s' →
    inv s' ∧ grows (λ x, ∃ d, d ∈ xs ∧ rtc edge d x) s s' ∧
    ∀ d, d ∈ xs → d ∈ order s'.
Proof.
  intros IH. induction xs as [|d deps IHd]; simpl; intros s s' Hinv Hr.
  { simplify_eq. split_and!; [done|apply grows_refl|by intros d ?%elem_of_nil]. }
  destruct (body d s) as [s1| | |] eqn:Hv; try done.
  destruct (IH _ _ _ Hinv Hv) as (Hinv1 & Hg1 & Hd1).
  destruct (IHd _ _ Hinv1 Hr) as (Hinv' & Hg' & Hds).
  split_and!; [done| |].
  - eapply grows_trans; eapply grows_weaken; [|exact Hg1| |exact Hg']; simpl.
    + intros x ?. exists d. split; [by left|done].
    + intros x (d' & ? & ?). exists d'. split; [by right|done].
  - intros d' [->|?]%elem_of_cons; [|by apply Hds].
    by eapply grows_elem.
Qed.

(** A successful visit keeps the invariant, appends only nodes reachable
    from the visited node, and leaves the visited node in [order]. *)
Lemma visit_Return fuel name s s' :
  inv s → visit fuel name s = Return s' →
  inv s' ∧ grows (rtc edge name) s s' ∧ name ∈ order s'.
Proof.
  revert name s s'. induction fuel as [|fuel IH]; simpl; intros name s s' Hinv Hv.
  { done. }
  destruct (flag (temp s) name) eqn:Ht; [done|].
  destruct (flag (visited s) name) eqn:Hvis.
  { simplify_eq. split_and!; [done|apply grows_refl|by apply Hinv]. }
  destruct (range _ _ _) as [s2| | |] eqn:Hr; try done. simplify_eq.
  pose proof (range_visit_temp _ _ _ _ Hr) as Htemp. simpl in Htemp.
  apply (range_inv_Return _ IH) in Hr as (Hinv2 & Hg2 & Hdeps).
  2:{ destruct Hinv as [H1 H2 H3 H4]. split; simpl; [done..| |done].
      intros k. rewrite flag_insert. case_decide; [by subst|]. apply H3. }
  simpl in *.
  assert (name ∉ order s2) as Hfresh.
  { rewrite (inv_visited _ _ Hinv2), (inv_temp _ _ Hinv2); [done|].
    rewrite Htemp, flag_insert. by case_decide. }
  split_and!.
  - destruct Hinv2 as [H1 H2 H3 H4]. split; simpl.
    + apply NoDup_app. split_and!; [done| |apply NoDup_singleton].
      by intros x ? ->%list_elem_of_singleton.
    + intros k. rewrite elem_of_app, list_elem_of_singleton, flag_insert.
      rewrite H2. case_decide; [by subst; split; [|right]|].
      split; [by intros [?|?]|by left].
    + intros k. rewrite !flag_insert. case_decide; [done|]. apply H3.
    + intros a b [Ha| ->%list_elem_of_singleton]%elem_of_app Hab.
      * by apply before_app_l, H4.
      * by apply before_snoc, Hdeps.
  - destruct Hg2 as (new & E & Hnew). exists (new ++ [name]). simpl.
    split; [by rewrite E, app_assoc|].
    intros x [Hx| ->%list_elem_of_singleton]%elem_of_app; [|done].
    destruct (Hnew _ Hx) as (d & ? & ?). by eapply rtc_l.
  - simpl. apply elem_of_app. right. by apply list_elem_of_singleton.
Qed.

(** *** The loop over the input names *)

Lemma visit_all_temp fuel names s s' :
  visit_all dependencies fuel names s = Return s' →
  ∀ k, flag (temp s') k = flag (temp s) k.
Proof.
  apply (range_Return (λ s2, ∀ k, flag (temp s2) k = flag (temp s) k)); [done|].
  intros x s1 s3 _ H1 Hx k. destruct (flag (visited s1) x).
  - simplify_eq. apply H1.
  - rewrite (visit_temp _ _ _ _ Hx). apply H1.
Qed.

Lemma visit_all_stop fuel names s r :
  visit_all dependencies fuel names s = r → (∀ s', r ≠ Return s') →
  ∃ n s1, n ∈ names ∧ (∀ k, flag (temp s1) k = flag (temp s) k) ∧
          visit fuel n s1 = r.
Proof.
  intros Hr Hne.
  assert (∃ n s1, n ∈ names ∧ (∀ k, flag (temp s1) k = flag (temp s) k) ∧
            (if flag (visited s1) n then Return s1 else visit fuel n s1) = r)
    as (n & s1 & ? & ? & Hn).
  { revert Hr Hne.
    apply (range_stop (λ s2, ∀ k, flag (temp s2) k = flag (temp s) k)); [done|].
    intros x s1 s3 _ H1 Hx k. destruct (flag (visited s1) x).
    + simplify_eq. apply H1.
    + rewrite (visit_temp _ _ _ _ Hx). apply H1. }
  exists n, s1. split_and!; [done..|].
    destruct (flag (visited s1) n); [|done]. subst. by destruct (Hne s1).
Qed.

Lemma visit_all_Return fuel names s s' :
  inv s → visit_all dependencies fuel names s = Return s' →
  inv s' ∧ grows (λ x, ∃ n, n ∈ names ∧ rtc edge n x) s s' ∧
  ∀ n, n ∈ names → n ∈ order s'.
Proof.
  apply range_inv_Return. clear. intros name s s' Hinv Hb.
  destruct (flag (visited s) name) eqn:Hvis; [|by apply visit_Return in Hb].
  simplify_eq. split_and!; [done|apply grows_refl|by apply Hinv].
Qed.

Lemma inv_init : inv (Dfs ∅ ∅ []).
Proof.
  split; simpl.
  - apply NoDup_nil_2.
  - intros k. rewrite flag_empty. split; [by intros ?%elem_of_nil|done].
  - done.
  - by intros a b ?%elem_of_nil.
Qed.

(** *** Orders without repetition *)

Lemma before_trans l x y z :
  NoDup l → before l x y → before l y z → before l x z.
Proof.
  intros Hnd (i & j & Hi & Hj & Hij) (j' & k & Hj' & Hk & Hjk).
  assert (j = j') as <- by (by eapply NoDup_lookup).
  exists i, k. split_and!; [done..|lia].
Qed.

Lemma before_irrefl l x : NoDup l → ¬ before l x x.
Proof.
  intros Hnd (i & j & Hi & Hj & Hij).
  assert (i = j) by (by eapply NoDup_lookup). lia.
Qed.

Lemma before_elem_r l x y : before l x y → y ∈ l.
Proof. intros (i & j & _ & Hj & _). by eapply list_elem_of_lookup_2. Qed.

Lemma before_elem_l l x y : before l x y → x ∈ l.
Proof. intros (i & j & Hi & _ & _). by eapply list_elem_of_lookup_2. Qed.

Lemma before_reverse l x y : before l x y → before (reverse l) y x.
Proof.
  intros (i & j & Hi & Hj & Hij).
  pose proof (lookup_lt_Some _ _ _ Hi). pose proof (lookup_lt_Some _ _ _ Hj).
  exists (length l - S j), (length l - S i). split_and!; [| |lia].
  - rewrite reverse_lookup by lia. rewrite <- Hj. f_equal. lia.
  - rewrite reverse_lookup by lia. rewrite <- Hi. f_equal. lia.
Qed.

(** In a closed order without repetition, a node comes after everything
    it reaches. *)
Lemma closed_tc l a b :
  NoDup l → (∀ a b, a ∈ l → edge a b → before l b a) →
  a ∈ l → tc edge a b → before l b a.
Proof.
  intros Hnd Hcl Ha Hab. induction Hab as [a b Hab|a b c Hab Hbc IH].
  - by apply Hcl.
  - eapply before_trans; [done| |by apply Hcl].
    apply IH. eapply before_elem_l. by apply Hcl.
Qed.

Lemma nodes_closed names a b : edge a b → b ∈ nodes dependencies names.
Proof.
  unfold Dependencies.edge, slice_at, nodes. intros Hb.
  destruct (dependencies !! a) as [l|] eqn:Hl; simpl in Hb;
    [|by apply elem_of_nil in Hb].
  apply elem_of_union. right. apply elem_of_union_list.
  exists (list_to_set l). split; [|by apply elem_of_list_to_set].
  apply list_elem_of_fmap. exists (a, l). split; [done|].
  by apply elem_of_map_to_list.
Qed.

Lemma nodes_names names n : n ∈ names → n ∈ nodes dependencies names.
Proof.
  intros ?. unfold nodes. apply elem_of_union. left.
  by apply elem_of_list_to_set.
Qed.

End traversal.

(** The resolver always ends as the Go function does: with an order or
    with an error. *)
Lemma resolveDependencyOrder_settled names dependencies :
  settled (resolveDependencyOrder names dependencies).
Proof.
  unfold resolveDependencyOrder.
  destruct (visit_all _ _ _ _) as [s| | |] eqn:Hr; try done.
  all: apply visit_all_stop in Hr as (n & s1 & Hn & Hs1 & Hv); [|done].
  all: assert (settled (visit dependencies
         (S (size (nodes dependencies names))) n s1)) as Hs;
         [|by rewrite Hv in Hs].
  all: apply (visit_settled _ (nodes dependencies names));
    [ intros a b _; apply nodes_closed
    | by apply nodes_names
    | apply Nat.lt_succ_r, subseteq_size; intros k [_ ?]%elem_of_filter; done ].
Qed.

(** An error of the resolver is the cycle error, and it names a node that
    is on a cycle of the dependency graph. *)
Lemma resolveDependencyOrder_Fail names dependencies e :
  resolveDependencyOrder names dependencies = Fail e →
  ∃ n, e = cycle_error n ∧ on_cycle dependencies n.
Proof.
  unfold resolveDependencyOrder.
  destruct (visit_all _ _ _ _) as [s|e'| |] eqn:Hr; try done.
  intros [= ->].
  apply visit_all_stop in Hr as (n & s1 & Hn & Hs1 & Hv); [|done].
  apply visit_Fail in Hv; [done|].
  intros t. by rewrite Hs1.
Qed.

(** A returned order has no repetition, holds every input name and only
    nodes reachable from input names, and places every node before each of
    its dependencies. *)
Lemma resolveDependencyOrder_Return names dependencies sorted :
  resolveDependencyOrder names dependencies = Return sorted →
  NoDup sorted ∧
  (∀ n, n ∈ names → n ∈ sorted) ∧
  (∀ x, x ∈ sorted → ∃ n, n ∈ names ∧ rtc (edge dependencies) n x) ∧
  (∀ a b, a ∈ sorted → edge dependencies a b → before sorted a b).
Proof.
  unfold resolveDependencyOrder.
  destruct (visit_all _ _ _ _) as [s| | |] eqn:Hr; try done.
  intros [= <-].
  apply visit_all_Return in Hr as (Hinv & (new & Hnew & Hreach) & Hnames);
    [|apply inv_init].
  simpl in Hnew. destruct Hinv as [H1 H2 H3 H4]. split_and!.
  - by apply NoDup_reverse.
  - intros n ?. apply elem_of_reverse. by apply Hnames.
  - intros x Hx. rewrite elem_of_reverse in Hx. apply Hreach. by rewrite <- Hnew.
  - intros a b Ha ?. rewrite elem_of_reverse in Ha. by apply before_reverse, H4.
Qed.

(** A returned order shows that no node of it is on a cycle. *)
Lemma resolveDependencyOrder_Return_acyclic names dependencies sorted c :
  resolveDependencyOrder names dependencies = Return sorted →
  c ∈ sorted → ¬ on_cycle dependencies c.
Proof.
  intros (Hnd & _ & _ & Hcl)%resolveDependencyOrder_Return Hc Hcyc.
  apply (before_irrefl (reverse sorted) c); [by apply NoDup_reverse|].
  apply (closed_tc dependencies); [by apply NoDup_reverse| |by apply elem_of_reverse|done].
  intros a b Ha ?. rewrite elem_of_reverse in Ha.
  by apply before_reverse, Hcl.
Qed.

(** Whatever the input names reach is in a returned order. *)
Lemma resolveDependencyOrder_Return_reach names dependencies sorted n x :
  resolveDependencyOrder names dependencies = Return sorted →
  n ∈ names → rtc (edge dependencies) n x → x ∈ sorted.
Proof.
  intros (_ & Hnames & _ & Hcl)%resolveDependencyOrder_Return Hn%Hnames Hreach.
  induction Hreach as [n|n m x Hnm _ IH]; [done|].
  apply IH. eapply before_elem_r. by apply Hcl.
Qed.

(** On an acyclic graph the resolver returns an order. *)
Lemma resolveDependencyOrder_acyclic names dependencies :
  (∀ n, ¬ on_cycle dependencies n) →
  ∃ sorted, resolveDependencyOrder names dependencies = Return sorted.
Proof.
  intros Hacyc. pose proof (resolveDependencyOrder_settled names dependencies) as Hs.
  destruct (resolveDependencyOrder names dependencies) as [sorted|e| |] eqn:Hr;
    [by exists sorted| |done..].
  apply resolveDependencyOrder_Fail in Hr as (n & _ & Hn). by destruct (Hacyc n).
Qed.

(** When a cycle can be reached from the input names, the resolver fails. *)
Lemma resolveDependencyOrder_cyclic names dependencies n c :
  n ∈ names → rtc (edge dependencies) n c → on_cycle dependencies c →
  ∃ m, resolveDependencyOrder names dependencies = Fail (cycle_error m) ∧
       on_cycle dependencies m.
Proof.
  intros Hn Hreach Hc.
  pose proof (resolveDependencyOrder_settled names dependencies) as Hs.
  destruct (resolveDependencyOrder names dependencies) as [sorted|e| |] eqn:Hr;
    [|by apply resolveDependencyOrder_Fail in Hr as (m & -> & ?); exists m|done..].
  destruct (resolveDependencyOrder_Return_acyclic _ _ _ c Hr); [|done].
  by eapply resolveDependencyOrder_Return_reach.
Qed.

(** A node with an outgoing edge is a key of the dependency map. *)
Lemma edge_is_key dependencies a b : edge dependencies a b → is_Some (dependencies !! a).
Proof.
  unfold edge, slice_at. destruct (dependencies !! a); [done|].
  by intros ?%elem_of_nil.
Qed.

Lemma on_cycle_is_key dependencies c :
  on_cycle dependencies c → is_Some (dependencies !! c).
Proof. intros Hc. inversion Hc; subst; by eapply edge_is_key. Qed.

Lemma chain_acyclic n : ¬ on_cycle chain n.
Proof.
  intros Hc.
  assert (resolveDependencyOrder ["S1"; "S2"] chain = Return ["S2"; "S1"]) as Hr
    by (vm_compute; reflexivity).
  refine (resolveDependencyOrder_Return_acyclic _ _ _ n Hr _ Hc).
  apply on_cycle_is_key in Hc as [l Hl]. unfold chain in Hl.
  apply lookup_insert_Some in Hl as [[<- _]|[_ Hl]]; [set_solver|].
  apply lookup_insert_Some in Hl as [[<- _]|[_ Hl]]; [set_solver|done].
Qed.

(** C1, at the acyclic input [S1], [S2] with [S2] depending on [S1]: the
    resolver returns without error and lists every name once, but it
    returns [S2; S1], in which [S2] comes before its dependency [S1] and
    not after it. The reversal at the end of [resolveDependencyOrder]
    undoes the post-order, which already had dependencies first. *)
Theorem C1_dependent_before_dependency :
  (∀ n, ¬ on_cycle chain n) ∧
  edge chain "S2" "S1" ∧
  resolveDependencyOrder ["S1"; "S2"] chain = Return ["S2"; "S1"] ∧
  before ["S2"; "S1"] "S2" "S1" ∧
  ¬ before ["S2"; "S1"] "S1" "S2".
Proof.
  split_and!.
  - apply chain_acyclic.
  - unfold edge, slice_at, chain. rewrite lookup_insert_ne, lookup_insert_eq by done.
    set_solver.
  - vm_compute. reflexivity.
  - exists 0, 1. split_and!; [done..|lia].
  - intros (i & j & Hi & Hj & Hij).
    destruct i as [|[|i]]; simplify_eq/=. destruct j as [|[|j]]; simplify_eq/=. lia.
Qed.

(** What the resolver does on every acyclic input whose dependency names
    are input names: it returns each input name once, and nothing else,
    with every name before (not after) each of its dependencies. *)
Lemma resolveDependencyOrder_dependents_first names dependencies :
  (∀ n, ¬ on_cycle dependencies n) →
  (∀ a b, edge dependencies a b → b ∈ names) →
  ∃ sorted, resolveDependencyOrder names dependencies = Return sorted ∧
    NoDup sorted ∧ (∀ n, n ∈ sorted ↔ n ∈ names) ∧
    ∀ a b, a ∈ names → tc (edge dependencies) a b → before sorted a b.
Proof.
  intros Hacyc Hin.
  destruct (resolveDependencyOrder_acyclic names _ Hacyc) as [sorted Hr].
  exists sorted. split; [done|].
  destruct (resolveDependencyOrder_Return _ _ _ Hr) as (Hnd & Hnames & Hreach & Hcl).
  split_and!; [done| |].
  - intros n. split; [|by apply Hnames].
    intros (m & Hm & Hmn)%Hreach. clear -Hm Hmn Hin.
    induction Hmn as [|a b c Hab _ IH]; [done|]. apply IH. by eapply Hin.
  - intros a b Ha Hab. apply Hnames in Ha.
    induction Hab as [a b Hab|a b c Hab Hbc IH]; [by apply Hcl|].
    eapply (before_trans sorted); [done|by apply Hcl|].
    apply IH. eapply before_elem_r. by apply Hcl.
Qed.

(** C9: when the dependency graph of the input names has a cycle, the
    resolver returns an error, and the error is the cycle error of a node
    that lies on a cycle (the in-progress node that a visit came back to). *)
Theorem C9_cycle_is_reported names dependencies c :
  (∀ k, is_Some (dependencies !! k) → k ∈ names) →
  on_cycle dependencies c →
  ∃ n, resolveDependencyOrder names dependencies = Fail (cycle_error n) ∧
       Error (cycle_error n) = "cycle detected in dependencies involving " +:+ n ∧
       on_cycle dependencies n.
Proof.
  intros Hkeys Hc.
  destruct (resolveDependencyOrder_cyclic names dependencies c c) as (n & Hr & Hn);
    [by apply Hkeys, on_cycle_is_key|done|done|].
  by exists n.
Qed.

(** The example of the design document: A depends on B and B on A. *)
Lemma C9_cycle_is_reported_witness :
  ∃ n, resolveDependencyOrder ["A"; "B"] (<["A" := ["B"]]> (<["B" := ["A"]]> ∅))
         = Fail (cycle_error n) ∧
       Error (cycle_error n) = "cycle detected in dependencies involving " +:+ n ∧
       on_cycle (<["A" := ["B"]]> (<["B" := ["A"]]> ∅)) n.
Proof.
  apply (C9_cycle_is_reported _ _ "A").
  - intros k [l Hl].
    apply lookup_insert_Some in Hl as [[<- _]|[_ Hl]]; [set_solver|].
    apply lookup_insert_Some in Hl as [[<- _]|[_ Hl]]; [set_solver|done].
  - apply tc_l with "B"; [|apply tc_once]; unfold edge, slice_at.
    + rewrite lookup_insert_eq. set_solver.
    + rewrite lookup_insert_ne, lookup_insert_eq by done. set_solver.
Defined.

(** *** The two resolvers over units *)

Lemma pick_Return {A} (units : list A) nameToIndex sortedNames :
  (∀ n, n ∈ sortedNames → is_Some (units !! index_at nameToIndex n)) →
  ∃ result, pick units nameToIndex sortedNames = Return result ∧
    length result = length sortedNames ∧
    ∀ i n, sortedNames !! i = Some n →
           result !! i = units !! index_at nameToIndex n.
Proof.
  induction sortedNames as [|n rest IH]; simpl; intros Hok.
  { exists []. split_and!; [done..|]. by intros i n ?. }
  destruct (Hok n) as [u Hu]; [by left|]. rewrite Hu.
  destruct IH as (result & -> & Hlen & Hres); [intros m ?; apply Hok; by right|].
  exists (u :: result). split_and!; [done|by simpl; rewrite Hlen|].
  intros [|i] m Hm; simplify_eq/=; [done|]. by apply Hres.
Qed.

Section units.
Context {A : Type} (name : A → string) (deps : A → list string).
Local Abbreviation unit_graph := (DependenciesSpec.unit_graph name deps).
Local Abbreviation resolve_units := (DependenciesSpec.resolve_units name deps).
Local Abbreviation out_of_group := (DependenciesSpec.out_of_group name).

Lemma unit_graph_other i units m d k :
  k ∉ name <$> units →
  (unit_graph i units m d).1 !! k = m !! k ∧
  (unit_graph i units m d).2 !! k = d !! k.
Proof.
  revert i m d. induction units as [|u rest IH]; simpl; intros i m d Hk; [done|].
  apply not_elem_of_cons in Hk as [Hne Hk].
  destruct (IH (S i) (<[name u := i]> m) (<[name u := deps u]> d) Hk) as [-> ->].
  by rewrite !lookup_insert_ne.
Qed.

Lemma unit_graph_lookup i units m d j u :
  NoDup (name <$> units) → units !! j = Some u →
  (unit_graph i units m d).1 !! name u = Some (i + j) ∧
  (unit_graph i units m d).2 !! name u = Some (deps u).
Proof.
  revert i m d j. induction units as [|v rest IH]; simpl; intros i m d j Hnd Hj.
  { done. }
  apply NoDup_cons in Hnd as [Hv Hnd]. destruct j as [|j]; simplify_eq/=.
  - destruct (unit_graph_other (S i) rest (<[name u := i]> m)
                (<[name u := deps u]> d) (name u) Hv) as [-> ->].
    rewrite !lookup_insert_eq. split; [f_equal; lia|done].
  - destruct (IH (S i) (<[name v := i]> m) (<[name v := deps v]> d) j Hnd Hj)
      as [-> ->].
    split; [f_equal; lia|done].
Qed.

(** With distinct names, the map [dependencies] is the declared relation. *)
Lemma unit_graph_edge units a b :
  NoDup (name <$> units) →
  edge (unit_graph 0 units ∅ ∅).2 a b ↔ unit_edge name deps units a b.
Proof.
  intros Hnd. unfold edge, slice_at, unit_edge. split.
  - intros Hb. destruct (decide (a ∈ name <$> units)) as [Ha|Ha].
    + apply list_elem_of_fmap in Ha as (u & -> & Hu).
      apply list_elem_of_lookup in Hu as [j Hj].
      destruct (unit_graph_lookup 0 units ∅ ∅ j u Hnd Hj) as [_ Hd].
      rewrite Hd in Hb. exists u. split_and!; [|done..].
      by eapply list_elem_of_lookup_2.
    + destruct (unit_graph_other 0 units ∅ ∅ a Ha) as [_ Hd].
      rewrite Hd, lookup_empty in Hb. by apply elem_of_nil in Hb.
  - intros (u & Hu & <- & Hb). apply list_elem_of_lookup in Hu as [j Hj].
    destruct (unit_graph_lookup 0 units ∅ ∅ j u Hnd Hj) as [_ ->]. done.
Qed.

Lemma resolve_units_out_of_group units u x :
  NoDup (name <$> units) →
  (∀ n, ¬ tc (unit_edge name deps units) n n) →
  u ∈ units → x ∈ deps u → x ∉ name <$> units →
  out_of_group resolve_units (unit_graph 0 units ∅ ∅) units x.
Proof.
  intros Hnd Hacyc Hu Hx Hout. unfold out_of_group, resolve_units.
  destruct (unit_graph 0 units ∅ ∅) as [nameToIndex dependencies] eqn:Hg.
  assert (∀ a b, edge dependencies a b ↔ unit_edge name deps units a b) as Hedge.
  { intros a b. rewrite <- (unit_graph_edge units a b Hnd). by rewrite Hg. }
  destruct (resolveDependencyOrder_acyclic (name <$> units) dependencies)
    as [sortedNames Hr].
  { intros n Hn. apply (Hacyc n). eapply tc_congruence with (f := id); [|exact Hn].
    intros a b. apply Hedge. }
  simpl. rewrite Hr.
  destruct (resolveDependencyOrder_Return _ _ _ Hr) as (Hnds & Hnames & _ & Hcl).
  destruct units as [|first rest] eqn:Hunits; [by apply elem_of_nil in Hu|].
  rewrite <- Hunits in *.
  assert (units !! 0 = Some first) as Hfirst by (by rewrite Hunits).
  assert (∀ n, n ∉ name <$> units → index_at nameToIndex n = 0) as Hidx0.
  { intros n Hn. destruct (unit_graph_other 0 units ∅ ∅ n Hn) as [Hi _].
    rewrite Hg in Hi. unfold index_at. simpl in Hi. by rewrite Hi, lookup_empty. }
  assert (∀ j v, units !! j = Some v → index_at nameToIndex (name v) = j) as Hidx.
  { intros j v Hj. destruct (unit_graph_lookup 0 units ∅ ∅ j v Hnd Hj) as [Hi _].
    rewrite Hg in Hi. unfold index_at. simpl in Hi. by rewrite Hi. }
  destruct (pick_Return units nameToIndex sortedNames) as (result & Hp & Hlen & Hres).
  { intros n _. destruct (decide (n ∈ name <$> units)) as [Hn|Hn].
    - apply list_elem_of_fmap in Hn as (v & -> & Hv).
      apply list_elem_of_lookup in Hv as [j Hj]. rewrite (Hidx j v Hj). eauto.
    - rewrite (Hidx0 n Hn). eauto. }
  assert (x ∈ sortedNames) as Hxs.
  { eapply before_elem_r, Hcl; [apply Hnames, list_elem_of_fmap; eauto|].
    apply Hedge. by exists u. }
  exists sortedNames, result, first. split_and!; [done..| | |].
  - intros i y Hi Hy. by rewrite (Hres i y Hi), (Hidx0 y Hy).
  - rewrite Hlen.
    assert (x :: (name <$> units) ⊆+ sortedNames) as Hsub%submseteq_length.
    { apply NoDup_submseteq; [by apply NoDup_cons|].
      intros n [->|?]%elem_of_cons; [done|by apply Hnames]. }
    simpl in Hsub. rewrite length_fmap in Hsub. lia.
  - intros Hndr.
    apply list_elem_of_lookup in Hxs as [i Hi].
    assert (name first ∈ sortedNames) as [j Hj]%list_elem_of_lookup.
    { apply Hnames, list_elem_of_fmap. exists first. split; [done|].
      by eapply list_elem_of_lookup_2. }
    assert (result !! i = Some first) as Hri.
    { by rewrite (Hres i x Hi), (Hidx0 x Hout). }
    assert (result !! j = Some first) as Hrj.
    { by rewrite (Hres j _ Hj), (Hidx 0 first Hfirst). }
    assert (i = j) as -> by (by eapply NoDup_lookup).
    apply Hout. rewrite Hi in Hj. simplify_eq.
    apply list_elem_of_fmap. exists first. split; [done|].
    by eapply list_elem_of_lookup_2.
Qed.

End units.

(** An index that the first loop records belongs to the slice. *)
Lemma unit_graph_index {A} (name : A → string) (deps : A → list string)
    i units m d k j :
  (unit_graph name deps i units m d).1 !! k = Some j →
  m !! k = Some j ∨ i ≤ j < i + length units.
Proof.
  revert i m d. induction units as [|u rest IH]; simpl; intros i m d Hj; [by left|].
  destruct (IH _ _ _ Hj) as [Hm|?]; [|right; lia].
  apply lookup_insert_Some in Hm as [[_ <-]|[_ ?]]; [right; lia|by left].
Qed.

(** The two resolvers end as the Go functions do: the last loop never
    indexes outside the slice. *)
Lemma resolve_units_settled {A} (name : A → string) (deps : A → list string) units :
  settled (resolve_units name deps units).
Proof.
  unfold resolve_units.
  destruct (unit_graph name deps 0 units ∅ ∅) as [nameToIndex dependencies] eqn:Hg.
  pose proof (resolveDependencyOrder_settled (name <$> units) dependencies) as Hs.
  destruct (resolveDependencyOrder _ _) as [sorted| | |] eqn:Hr; [|done..].
  destruct units as [|u rest] eqn:Hunits.
  { simpl in Hr, Hg. simplify_eq. by vm_compute in Hr; simplify_eq. }
  rewrite <- Hunits in *.
  destruct (pick_Return units nameToIndex sorted) as (result & -> & _); [|done].
  intros n _. apply lookup_lt_is_Some. unfold index_at.
  destruct (nameToIndex !! n) as [j|] eqn:Hj; simpl; [|rewrite Hunits; simpl; lia].
  destruct (unit_graph_index name deps 0 units ∅ ∅ n j) as [?|?]; [|done|lia].
  by rewrite Hg.
Qed.

Lemma app_graph_eq i apps m d :
  app_graph i apps m d = unit_graph App.Name App.DependsOn i apps m d.
Proof. revert i m d. induction apps as [|a rest IH]; simpl; intros; [done|apply IH]. Qed.

Lemma service_graph_eq i services m d :
  service_graph i services m d =
  unit_graph Service.Name Service.DependsOn i services m d.
Proof.
  revert i m d. induction services as [|a rest IH]; simpl; intros; [done|apply IH].
Qed.

Lemma resolveAppDependencies_eq apps :
  resolveAppDependencies apps = resolve_units App.Name App.DependsOn apps.
Proof. unfold resolveAppDependencies, resolve_units. by rewrite app_graph_eq. Qed.

Lemma resolveServiceDependencies_eq services :
  resolveServiceDependencies services =
  resolve_units Service.Name Service.DependsOn services.
Proof.
  unfold resolveServiceDependencies, resolve_units. by rewrite service_graph_eq.
Qed.

(** C10 as stated fails: an app lists the name [X] of no app, and the call
    returns an error all the same, because the apps [A] and [B] depend on
    each other. *)
Lemma C10_counterexample :
  let apps := [app_of "A" ["B"; "X"]; app_of "B" ["A"]] in
  (∃ app x, app ∈ apps ∧ x ∈ App.DependsOn app ∧ x ∉ App.Name <$> apps) ∧
  resolveAppDependencies apps = Fail (cycle_error "A").
Proof.
  split.
  - exists (app_of "A" ["B"; "X"]), "X". split_and!; [set_solver..|].
    simpl. intros [?|[?|?%elem_of_nil]%elem_of_cons]%elem_of_cons; done.
  - vm_compute. reflexivity.
Qed.

(** C10, amended: when the units of the group have distinct names and
    declare no dependency cycle, and some unit lists a name [x] that is no
    unit's name in the group, the resolver for apps, and likewise the one
    for services, returns no error; [x] is among the sorted names; the
    result holds the unit at index 0 at the place of every sorted name that
    is no unit's name; so the result is longer than the input and holds a
    unit twice. *)
Theorem C10_out_of_group_dependency :
  (∀ apps app x,
     NoDup (App.Name <$> apps) →
     (∀ n, ¬ tc (unit_edge App.Name App.DependsOn apps) n n) →
     app ∈ apps → x ∈ App.DependsOn app → x ∉ App.Name <$> apps →
     out_of_group App.Name resolveAppDependencies (app_graph 0 apps ∅ ∅) apps x) ∧
  (∀ services service x,
     NoDup (Service.Name <$> services) →
     (∀ n, ¬ tc (unit_edge Service.Name Service.DependsOn services) n n) →
     service ∈ services → x ∈ Service.DependsOn service →
     x ∉ Service.Name <$> services →
     out_of_group Service.Name resolveServiceDependencies
                  (service_graph 0 services ∅ ∅) services x).
Proof.
  split.
  - intros apps app x Hnd Hacyc Happ Hx Hout.
    pose proof (resolve_units_out_of_group App.Name App.DependsOn
                  apps app x Hnd Hacyc Happ Hx Hout) as H.
    unfold out_of_group in *. rewrite app_graph_eq.
    destruct H as (sorted & result & first & H1 & H2 & H).
    exists sorted, result, first. by rewrite resolveAppDependencies_eq.
  - intros services service x Hnd Hacyc Hsvc Hx Hout.
    pose proof (resolve_units_out_of_group Service.Name Service.DependsOn
                  services service x Hnd Hacyc Hsvc Hx Hout) as H.
    unfold out_of_group in *. rewrite service_graph_eq.
    destruct H as (sorted & result & first & H1 & H2 & H).
    exists sorted, result, first. by rewrite resolveServiceDependencies_eq.
Qed.

(** An app that depends on a service: the name of the service is sorted
    with the app names and stands for the app at index 0. *)
Lemma C10_out_of_group_dependency_witness :
  out_of_group App.Name resolveAppDependencies
    (app_graph 0 [app_of "A1" ["S1"]] ∅ ∅) [app_of "A1" ["S1"]] "S1".
Proof.
  apply (proj1 C10_out_of_group_dependency [app_of "A1" ["S1"]]
               (app_of "A1" ["S1"]) "S1").
  - simpl. apply NoDup_singleton.
  - intros n Hn.
    assert (∀ a b, unit_edge App.Name App.DependsOn [app_of "A1" ["S1"]] a b →
                   a = "A1" ∧ b = "S1") as Hedge.
    { intros a b (u & ->%list_elem_of_singleton & <- & ->%list_elem_of_singleton).
      done. }
    inversion Hn as [? ? H1|? y ? H1 H2]; subst.
    + by destruct (Hedge _ _ H1) as [-> ?].
    + destruct (Hedge _ _ H1) as [-> ->].
      inversion H2 as [? ? H3|? z ? H3 _]; subst; by destruct (Hedge _ _ H3).
  - by apply list_elem_of_singleton.
  - simpl. by apply list_elem_of_singleton.
  - simpl. by intros ?%list_elem_of_singleton.
Defined.

End DependenciesFacts.

(** ** Configuration validation *)

Module ValidationFacts.
Import Validation.
Import DependenciesSpec.
Import ValidationSpec.
Import DependenciesFacts.

Lemma known_insert m n names k :
  known (<[n := true]> m) names k ↔ known m (n :: names) k.
Proof.
  unfold known. rewrite flag_insert, elem_of_cons. case_decide; subst.
  - split; [by right; left|by left].
  - split; [intros [?|?]; auto|intros [?|[?|?]]; auto; done].
Qed.

Lemma find_unknown_None (P : string → bool) deps :
  List.find P deps = None → ∀ d, d ∈ deps → P d = false.
Proof.
  intros H d Hd%list_elem_of_In. by apply (List.find_none _ _ H).
Qed.

Lemma find_unknown_Some (P : string → bool) deps d :
  List.find P deps = Some d → d ∈ deps ∧ P d = true.
Proof. intros [?%list_elem_of_In ?]%List.find_some. done. Qed.

Lemma validate_services_spec i services m :
  match validate_services i services m with
  | inr m' =>
      (∀ k, flag m' k = true ↔ known m (Service.Name <$> services) k) ∧
      service_deps_known m services ∧
      validate_services i (service_without_deps <$> services) m = inr m'
  | inl e =>
      validate_services i (service_without_deps <$> services) m = inl e ∨
      ∃ svc d, svc ∈ services ∧ d ∈ Service.DependsOn svc ∧
               e = service_undefined_dependency (Service.Name svc) d
  end.
Proof.
  revert i m. induction services as [|svc rest IH]; intros i m.
  { simpl. split_and!; [|by intros j ? ? ?|done].
    intros k. unfold known. split; [by left|]. by intros [?|?%elem_of_nil]. }
  cbn [validate_services fmap list_fmap]. simpl.
  destruct (String.eqb (Service.Name svc) ""); [by left|].
  destruct (flag m (Service.Name svc)); [by left|].
  destruct (String.eqb (Service.Image svc) ""); [by left|].
  destruct (List.find _ (Service.DependsOn svc)) as [d|] eqn:Hfind.
  { right. apply find_unknown_Some in Hfind as [Hd _].
    exists svc, d. split_and!; [by left|done..]. }
  pose proof (find_unknown_None _ _ Hfind) as Hdeps.
  specialize (IH (S i) (<[Service.Name svc := true]> m)).
  destruct (validate_services (S i) rest _) as [e|m'].
  - destruct IH as [IH|(svc' & d & ? & ? & ?)]; [by left|].
    right. exists svc', d. split_and!; [by right|done..].
  - destruct IH as (Hm' & Hok & Hstrip). split_and!; [| |done].
    + intros k. rewrite Hm'. apply known_insert.
    + intros [|j] svc' d Hj Hd; simplify_eq/=.
      * specialize (Hdeps d Hd). apply negb_false_iff in Hdeps.
        rewrite flag_insert in Hdeps. unfold known. case_decide; subst.
        -- right. by left.
        -- by left.
      * apply known_insert. by eapply Hok.
Qed.


Lemma validate_apps_spec sn i apps m :
  match validate_apps sn i apps m with
  | None =>
      app_deps_known sn (appNames m) apps ∧
      validate_apps sn i (app_without_deps <$> apps) m = None
  | Some e =>
      validate_apps sn i (app_without_deps <$> apps) m = Some e ∨
      ∃ app d, app ∈ apps ∧ d ∈ App.DependsOn app ∧
               e = app_undefined_dependency (App.Name app) d
  end.
Proof.
  revert i m. induction apps as [|app rest IH]; intros i m.
  { simpl. split; [by intros j ? ? ?|done]. }
  cbn [validate_apps fmap list_fmap]. simpl.
  destruct (String.eqb (App.Name app) ""); [by left|].
  destruct (flag (appNames m) (App.Name app)); [by left|].
  destruct (String.eqb (App.Image app) ""); [by left|].
  destruct (negb (String.eqb (App.Subdomain app) "") && _); [by left|].
  destruct (negb (String.eqb (App.Path app) "") && _); [by left|].
  destruct (List.find _ (App.DependsOn app)) as [d|] eqn:Hfind.
  { right. apply find_unknown_Some in Hfind as [Hd _].
    exists app, d. split_and!; [by left|done..]. }
  pose proof (find_unknown_None _ _ Hfind) as Hdeps.
  match goal with |- context [validate_apps sn (S i) rest ?m1] =>
    specialize (IH (S i) m1); destruct (validate_apps sn (S i) rest m1) as [e|]
  end.
  - destruct IH as [IH|(app' & d & ? & ? & ?)]; [by left|].
    right. exists app', d. split_and!; [by right|done..].
  - destruct IH as (Hok & Hstrip). split; [|done].
    intros [|j] app' d Hj Hd; simplify_eq/=.
    + specialize (Hdeps d Hd).
      apply andb_false_iff in Hdeps as [Hs|Ha].
      * left. by apply negb_false_iff in Hs.
      * right. apply negb_false_iff in Ha.
        rewrite flag_insert in Ha. unfold known. case_decide; subst.
        -- right. by left.
        -- by left.
    + destruct (Hok j app' d Hj Hd) as [?|Hk]; [by left|].
      right. by apply known_insert.
Qed.


Lemma known_empty names k : known ∅ names k ↔ k ∈ names.
Proof. unfold known. rewrite flag_empty. split; [by intros [?|?]|by right]. Qed.





End ValidationFacts.

(** ** The health gate *)

Module HealthFacts.
Import Health.
Import HealthSpec.

Lemma later_counts interval k :
  count_attempts (later interval k) = k ∧ count_delays (later interval k) = k.
Proof.
  unfold count_attempts, count_delays. induction k as [|k [IH1 IH2]]; [done|].
  cbn [later]. split.
  - rewrite filter_cons_False by done. rewrite filter_cons_True by done.
    simpl. by rewrite IH1.
  - rewrite filter_cons_True by done.
    rewrite filter_cons_False by (by intros ?). simpl. by rewrite IH2.
Qed.

Lemma alternating_counts interval n :
  0 < n →
  count_attempts (alternating interval n) = n ∧
  count_delays (alternating interval n) = n - 1.
Proof.
  destruct n as [|k]; [lia|]. intros _. cbn [alternating].
  destruct (later_counts interval k) as [H1 H2].
  unfold count_attempts, count_delays in *. split.
  - rewrite filter_cons_True by done. simpl. by rewrite H1.
  - rewrite filter_cons_False by (by intros ?). rewrite H2. lia.
Qed.

Section gate.
Variable w : World.
Variable ctx : Context.t.
Variable options : CheckOptions.t.
Local Abbreviation interval := (CheckOptions.Interval options).
Local Abbreviation expected := (HealthSpec.expected options).
Local Abbreviation wraps_last := (HealthSpec.wraps_last w ctx options).
Local Abbreviation loop_outcome := (HealthSpec.loop_outcome w ctx options).
Local Abbreviation probed := (HealthSpec.probed w ctx options).
Local Abbreviation loop_cases := (HealthSpec.loop_cases w ctx options).

Lemma wait_run d s :
  ∃ fired s', wait w ctx d s = (Return fired, s') ∧
              log s' = log s ++ [EvWait d fired].
Proof.
  unfold wait. destruct (Context.done_at ctx) as [t|]; [|by eexists _, _].
  destruct (_ || _); by eexists _, _.
Qed.

(** A probe is one attempt: it leaves the events of one attempt and its
    result, or returns at once for an unsupported type. *)
Lemma probe_run s :
  match probe w ctx options s with
  | (Return res, s') =>
      ∃ evs, log s' = log s ++ evs ∧ shape evs = [Attempt] ∧
             results evs = [bool_decide (res = inr tt)]
  | (Fail e, s') => e = unsupported_type (CheckOptions.Type_ options) ∧ s' = s
  | _ => False
  end.
Proof.
  unfold probe.
  destruct (String.eqb (CheckOptions.Type_ options) "http").
  { unfold catch, checkHTTP, bind, call. simpl.
    destruct (new_request w _ _) as [e|]; simpl.
    { eexists [_]. by rewrite <- ?app_assoc. }
    destruct (http_do w _ _ _) as [e|status]; simpl.
    { eexists [_; _]. by rewrite <- ?app_assoc. }
    destruct (_ || _) eqn:Hbad; simpl.
    - eexists [_; _]. rewrite <- ?app_assoc. split_and!; [done..|].
      unfold results. simpl. do 2 f_equal.
      apply orb_true_iff in Hbad as [?%Z.ltb_lt|?%Z.leb_le].
      + apply andb_false_iff. left. apply Z.leb_gt. lia.
      + apply andb_false_iff. right. apply Z.ltb_ge. lia.
    - eexists [_; _]. rewrite <- ?app_assoc. split_and!; [done..|].
      unfold results. simpl. do 2 f_equal.
      apply orb_false_iff in Hbad as [?%Z.ltb_ge ?%Z.leb_gt].
      apply andb_true_iff. split; [apply Z.leb_le|apply Z.ltb_lt]; lia. }
  destruct (String.eqb (CheckOptions.Type_ options) "tcp"); [|done].
  unfold catch, checkTCP, bind, call. simpl.
  destruct (dial w _ _ _) as [e|]; simpl.
  - by eexists [_].
  - by eexists [_].
Qed.

Lemma expected_S a k :
  expected a (S k) =
  (if (0 <? a)%Z then [Delay interval] else []) ++ Attempt :: later interval k.
Proof. unfold expected. by destruct (0 <? a)%Z. Qed.

Lemma expected_succ a k : (0 ≤ a)%Z → expected (a + 1) k = later interval k.
Proof.
  intros ?. unfold expected.
  destruct (0 <? a + 1)%Z eqn:Hlt; [done|]. apply Z.ltb_ge in Hlt. lia.
Qed.

Lemma attempts_run rem : ∀ a lastErr s, (0 ≤ a)%Z →
  ∃ body r s',
    attempts w ctx options rem a lastErr s = (r, s') ∧
    log s' = log s ++ body ∧
    shape body `prefix_of` expected a rem ∧
    loop_outcome a rem lastErr body r s'.
Proof.
  induction rem as [|k IH]; intros a lastErr s Ha.
  { exists [], (Fail (health_check_failed lastErr)), s.
    split_and!; [done|by rewrite app_nil_r|by exists (expected a 0)|].
    exists 0. split; [done|]. left. split_and!; [done| |].
    - unfold expected. by destruct (0 <? a)%Z.
    - exists lastErr. split; [done|]. by left. }
  cbn [attempts]. unfold bind at 1. rewrite expected_S.
  (* the delay before a retry *)
  assert (∃ pre r0 s1,
    (if (0 <? a)%Z
     then let* fired := wait w ctx interval in
          if fired then ret tt else fail (Context.err ctx)
     else ret tt) s = (r0, s1) ∧
    log s1 = log s ++ pre ∧ results pre = [] ∧
    ((r0 = Return tt ∧
      shape pre = if (0 <? a)%Z then [Delay interval] else []) ∨
     (r0 = Fail (Context.err ctx) ∧ (0 <? a)%Z = true ∧
      shape pre = [Delay interval])))
    as (pre & r0 & s1 & -> & Hlog1 & Hres1 & Hpre).
  { destruct (0 <? a)%Z.
    - unfold bind. destruct (wait_run interval s) as (fired & s1 & -> & Hl).
      destruct fired.
      + exists [EvWait interval true], (Return tt), s1. by auto 10.
      + exists [EvWait interval false], (Fail (Context.err ctx)), s1. by auto 10.
    - exists [], (Return tt), s. rewrite app_nil_r. by auto 10. }
  destruct Hpre as [[-> Hshape1]|(-> & Hpos & Hshape1)].
  2:{ exists pre, (Fail (Context.err ctx)), s1. rewrite Hpos.
      split_and!; [done..| |].
      - rewrite Hshape1. by eexists.
      - exists 0. rewrite Hres1. split; [done|]. right. split; [lia|by left]. }
  (* the probe *)
  unfold bind. pose proof (probe_run s1) as Hp.
  destruct (probe w ctx options s1) as [[[e1|[]]|e| |] s2] eqn:Hprobe; try done.
  - (* the probe failed: go round the loop *)
    destruct Hp as (evs & Hlog2 & Hshape2 & Hres2).
    destruct (IH (a + 1)%Z (Some e1) s2 ltac:(lia))
      as (body & r & s' & Hrun & Hlog' & Hpref & fails & Hout).
    rewrite Hrun. rewrite expected_succ in Hpref by done.
    exists (pre ++ evs ++ body), r, s'.
    split_and!; [done|by rewrite Hlog', Hlog2, Hlog1, <- !app_assoc| |].
    + unfold shape in *. rewrite !omap_app, Hshape1, Hshape2.
      apply prefix_app, (prefix_cons Attempt), Hpref.
    + exists (S fails). unfold results in *.
      rewrite !omap_app, Hres1, Hres2. simpl.
      destruct r as [[]|e| |]; [| |done..].
      * destruct Hout as (? & -> & ?). split_and!; [lia|done..].
      * destruct Hout as (-> & Hcases). split; [done|].
        destruct Hcases as [(Hk & Hsh & last & -> & Hlast)|[? ?]]; [left|right].
        -- split_and!; [by rewrite Hk| |].
           ++ unfold shape in *. rewrite !omap_app, Hshape1, Hshape2.
              rewrite expected_succ in Hsh by done.
              by rewrite Hsh, expected_S.
           ++ exists last. split; [done|]. right.
              destruct Hlast as [[-> ->]|?]; [|done].
              exists e1, s1. split; [done|].
              simpl in Hrun. unfold fail in Hrun. by simplify_eq.
        -- split; [lia|done].
  - (* the probe succeeded *)
    destruct Hp as (evs & Hlog2 & Hshape2 & Hres2).
    exists (pre ++ evs), (Return tt), s2.
    split_and!; [done|by rewrite Hlog2, Hlog1, <- app_assoc| |].
    + unfold shape in *. rewrite omap_app, Hshape1, Hshape2.
      apply prefix_app. by exists (later interval k).
    + exists 0. unfold results in *. rewrite omap_app, Hres1, Hres2.
      split_and!; [lia|done|by exists s1].
  - (* unsupported type *)
    destruct Hp as [-> ->].
    exists pre, (Fail (unsupported_type (CheckOptions.Type_ options))), s1.
    split_and!; [done..| |].
    + rewrite Hshape1. apply prefix_app_r. by destruct (0 <? a)%Z; eexists.
    + exists 0. rewrite Hres1. split; [done|]. right. split; [lia|by right].
Qed.

(** A wait that the context cuts short ends when the context is done. *)
Lemma wait_cut_short d s s' :
  wait w ctx d s = (Return false, s') → Context.is_done ctx (now s') = true.
Proof.
  unfold wait, Context.is_done.
  destruct (Context.done_at ctx) as [t|]; [|done].
  destruct (_ || _); [|done]. intros [= <-]. cbn [now]. apply Z.leb_le. lia.
Qed.

Lemma probe_supported s o s' :
  probe w ctx options s = (Return o, s') →
  ¬ (String.eqb (CheckOptions.Type_ options) "http" = false ∧
     String.eqb (CheckOptions.Type_ options) "tcp" = false).
Proof. unfold probe. intros H [Hh Ht]. rewrite Hh, Ht in H. done. Qed.

Lemma probe_unsupported s e s' :
  probe w ctx options s = (Fail e, s') →
  String.eqb (CheckOptions.Type_ options) "http" = false ∧
  String.eqb (CheckOptions.Type_ options) "tcp" = false.
Proof.
  unfold probe, catch.
  destruct (String.eqb (CheckOptions.Type_ options) "http").
  { by destruct (checkHTTP w ctx options s) as [[] ?]. }
  destruct (String.eqb (CheckOptions.Type_ options) "tcp"); [|done].
  by destruct (checkTCP w ctx options s) as [[] ?].
Qed.

Lemma later_snoc k : later interval k ++ [Delay interval; Attempt] = later interval (S k).
Proof. induction k as [|k IH]; [done|]. simpl. by rewrite IH. Qed.

(** The loop, case by case. *)
Lemma attempts_cases rem : ∀ a lastErr s, (0 ≤ a)%Z →
  ∃ body r s',
    attempts w ctx options rem a lastErr s = (r, s') ∧
    log s' = log s ++ body ∧
    loop_cases a rem lastErr body r s'.
Proof.
  induction rem as [|k IH]; intros a lastErr s Ha.
  { exists [], (Fail (health_check_failed lastErr)), s.
    split_and!; [done|by rewrite app_nil_r|]. exists []. split_and!; [done..|].
    right. left. eexists. split_and!; [done| |done|].
    - exists lastErr. split; [done|]. by left.
    - unfold expected. by destruct (0 <? a)%Z. }
  cbn [attempts]. unfold bind at 1.
  (* the delay before a retry *)
  assert (∃ pre r0 s1,
    (if (0 <? a)%Z
     then let* fired := wait w ctx interval in
          if fired then ret tt else fail (Context.err ctx)
     else ret tt) s = (r0, s1) ∧
    log s1 = log s ++ pre ∧ results pre = [] ∧
    ((r0 = Return tt ∧ pre = (if (0 <? a)%Z then [EvWait interval true] else [])) ∨
     (r0 = Fail (Context.err ctx) ∧ (0 <? a)%Z = true ∧
      pre = [EvWait interval false] ∧ Context.is_done ctx (now s1) = true)))
    as (pre & r0 & s1 & -> & Hlog1 & Hres1 & Hpre).
  { destruct (0 <? a)%Z.
    - unfold bind. destruct (wait_run interval s) as (fired & s1 & Hw & Hl).
      rewrite Hw. destruct fired.
      + exists [EvWait interval true], (Return tt), s1. by auto 10.
      + exists [EvWait interval false], (Fail (Context.err ctx)), s1.
        apply wait_cut_short in Hw. by auto 10.
    - exists [], (Return tt), s. rewrite app_nil_r. by auto 10. }
  assert (shape pre = (if (0 <? a)%Z then [Delay interval] else []) ∨
          pre = [EvWait interval false]) as Hshape1.
  { destruct Hpre as [[_ ->]|(_ & _ & -> & _)]; [left|by right].
    by destruct (0 <? a)%Z. }
  destruct Hpre as [[-> Hpre]|(-> & Hpos & -> & Hdone)].
  2:{ exists [EvWait interval false], (Fail (Context.err ctx)), s1.
      split_and!; [done..|]. exists []. split_and!; [done..|].
      do 2 right. left. exists 0. split_and!; [lia|done..|].
      unfold expected. by rewrite Hpos. }
  destruct Hshape1 as [Hshape1 | Hbad];
    [|rewrite Hbad in Hpre; by destruct (0 <? a)%Z].
  (* the probe *)
  unfold bind. pose proof (probe_run s1) as Hp.
  destruct (probe w ctx options s1) as [[[e1|[]]|e| |] s2] eqn:Hprobe; try done.
  - (* the probe failed: go round the loop *)
    destruct Hp as (evs & Hlog2 & Hshape2 & Hres2).
    destruct (IH (a + 1)%Z (Some e1) s2 ltac:(lia))
      as (body & r & s' & Hrun & Hlog' & outcomes & Hall & Hres & Hcases).
    rewrite Hrun. exists (pre ++ evs ++ body), r, s'.
    split_and!; [done|by rewrite Hlog', Hlog2, Hlog1, <- !app_assoc|].
    assert (results (pre ++ evs ++ body) = false :: results body) as Hresults.
    { unfold results in *. by rewrite !omap_app, Hres1, Hres2. }
    assert (shape (pre ++ evs ++ body) =
            (if (0 <? a)%Z then [Delay interval] else []) ++ Attempt :: shape body)
      as Hshapes.
    { unfold shape in *. by rewrite !omap_app, Hshape1, Hshape2. }
    exists (inl e1 :: outcomes). split_and!.
    { apply Forall_cons. split; [by exists s1, s2|done]. }
    { by rewrite Hresults, Hres. }
    rewrite Hresults, Hshapes.
    destruct Hcases as [(j & Hj & -> & Hrj & Hsj)
                       |[(e & -> & Hlast & Hrj & Hsj)
                        |[(j & Hj & -> & Hdone & Hlastj & Hrj & Hsj)
                         |(-> & Hh & Ht & _)]]].
    + left. exists (S j). split_and!; [lia|done|by rewrite Hrj|].
      rewrite Hsj, expected_succ by done. by rewrite (expected_S a (S j)).
    + right. left. exists e. split_and!; [done| |by rewrite Hrj|].
      * destruct Hlast as (last & -> & Hl). exists last. split; [done|]. right.
        destruct Hl as [[-> ->]|?]; [|done].
        exists e1, s1. split; [done|].
        simpl in Hrun. unfold fail in Hrun. by simplify_eq.
      * rewrite Hsj, expected_succ by done. by rewrite (expected_S a k).
    + do 2 right. left. exists (S j).
      split_and!; [lia|done|done| |by rewrite Hrj|].
      * rewrite !last_app, Hlastj. done.
      * rewrite Hsj, expected_succ by done. rewrite (expected_S a j).
        by rewrite <- app_assoc.
    + by destruct (probe_supported _ _ _ Hprobe).
  - (* the probe succeeded *)
    destruct Hp as (evs & Hlog2 & Hshape2 & Hres2).
    exists (pre ++ evs), (Return tt), s2.
    split_and!; [done|by rewrite Hlog2, Hlog1, <- app_assoc|].
    exists [inr tt]. split_and!.
    { apply Forall_singleton. by exists s1, s2. }
    { unfold results in *. by rewrite omap_app, Hres1, Hres2. }
    left. exists 0. split_and!; [lia|done| |].
    + unfold results in *. by rewrite omap_app, Hres1, Hres2.
    + unfold shape in *. rewrite omap_app, Hshape1, Hshape2. by rewrite expected_S.
  - (* unsupported type *)
    destruct Hp as [-> ->]. apply probe_unsupported in Hprobe as [Hh Ht].
    exists pre, (Fail (unsupported_type (CheckOptions.Type_ options))), s1.
    split_and!; [done..|]. exists []. split_and!; [done..|].
    do 3 right. split_and!; [done..|]. intros Hz. rewrite Hz in Hpre. done.
Qed.

End gate.

Lemma probed_fails w ctx options o :
  every_probe_fails w ctx options → probed w ctx options o → passed o = false.
Proof.
  intros Hall (s1 & s2 & Hp). destruct (Hall s1) as (e & s3 & He).
  rewrite Hp in He. by simplify_eq.
Qed.

Lemma probed_passes w ctx options o :
  every_probe_passes w ctx options → probed w ctx options o → passed o = true.
Proof.
  intros Hall (s1 & s2 & Hp). destruct (Hall s1) as (s3 & He).
  rewrite Hp in He. by simplify_eq.
Qed.

Lemma passed_all w ctx options outcomes b :
  (∀ o, probed w ctx options o → passed o = b) →
  Forall (probed w ctx options) outcomes →
  passed <$> outcomes = replicate (length outcomes) b.
Proof.
  intros Hb. induction 1 as [|o outcomes Ho _ IH]; [done|].
  cbn [fmap list_fmap length replicate]. by rewrite (Hb o Ho), <- IH.
Qed.

(** C6: with [retries = n > 0], after the start-period wait the health
    gate makes at most [n] probe attempts, with an interval wait between
    consecutive attempts and none before the first. A probe that succeeds
    is the last one, and Check returns success in the state in which that
    probe ended. If all [n] probes fail, there were exactly [n] attempts
    and [n - 1] waits between them, and Check returns the failure that
    wraps the error of the last probe. The gate ends in one of four ways:
    after a probe that passes, after [n] probes that fail, when the
    context cuts a wait short, or at once for a type that is not
    supported. Hence, unless the context is done when the gate returns, a
    unit whose probes all fail gets exactly [n] attempts and the failure,
    and a unit whose probes all pass gets one attempt and success. *)
Theorem C6_health_gate_attempts w ctx name options s n :
  CheckOptions.Retries options = Z.of_nat n → 0 < n →
  ∃ start body r s',
    Check w ctx name options s = (r, s') ∧
    log s' = log s ++ start ++ body ∧
    (start = [] ∨ ∃ fired, start = [EvWait (CheckOptions.StartPeriod options) fired]) ∧
    shape body `prefix_of` alternating (CheckOptions.Interval options) n ∧
    (length (results body) ≤ n)%nat ∧
    (∀ i, results body !! i = Some true →
          S i = length (results body) ∧ r = Return tt) ∧
    (r = Return tt →
       last (results body) = Some true ∧
       ∃ s1, probe w ctx options s1 = (Return (inr tt), s')) ∧
    (results body = replicate n false →
       count_attempts (shape body) = n ∧
       count_delays (shape body) = n - 1 ∧
       shape body = alternating (CheckOptions.Interval options) n ∧
       ∃ e s1, probe w ctx options s1 = (Return (inl e), s') ∧
               r = Fail (Wrap "health check failed" e)) ∧
    gate_cases w ctx options n start body r s' ∧
    (every_probe_fails w ctx options → Context.is_done ctx (now s') = false →
       count_attempts (shape body) = n ∧
       count_delays (shape body) = n - 1 ∧
       ∃ e, r = Fail (Wrap "health check failed" e)) ∧
    (every_probe_passes w ctx options → Context.is_done ctx (now s') = false →
       r = Return tt ∧ results body = [true] ∧ shape body = [Attempt]).
Proof.
  intros Hn Hpos. unfold Check. unfold bind at 1. rewrite Hn, Nat2Z.id.
  assert (∃ start r0 s1,
    (if (0 <? CheckOptions.StartPeriod options)%Z
     then let* fired := wait w ctx (CheckOptions.StartPeriod options) in
          if fired then ret tt else fail (Context.err ctx)
     else ret tt) s = (r0, s1) ∧
    log s1 = log s ++ start ∧
    (start = [] ∨ ∃ fired, start = [EvWait (CheckOptions.StartPeriod options) fired]) ∧
    (r0 = Return tt ∨
     (r0 = Fail (Context.err ctx) ∧ Context.is_done ctx (now s1) = true ∧
      start = [EvWait (CheckOptions.StartPeriod options) false])))
    as (start & r0 & s1 & -> & Hlog1 & Hstart & Hr0).
  { destruct (0 <? CheckOptions.StartPeriod options)%Z.
    - unfold bind.
      destruct (wait_run w ctx (CheckOptions.StartPeriod options) s)
        as (fired & s1 & Hw & Hl).
      rewrite Hw. destruct fired; eexists _, _, s1.
      + split_and!; [done|exact Hl|eauto|eauto].
      + apply wait_cut_short in Hw. split_and!; [done|exact Hl|eauto|eauto].
    - exists [], (Return tt), s. rewrite app_nil_r. by auto. }
  destruct Hr0 as [-> | (-> & Hdone & Hcut)].
  2:{ exists start, [], (Fail (Context.err ctx)), s1. rewrite app_nil_r.
      split_and!; [done..|by apply prefix_nil|simpl; lia| | | | | |].
      - by intros i ?.
      - done.
      - intros Hrep. destruct n; [lia|done].
      - exists []. split_and!; [done..|]. do 2 right. left.
        eexists _, 0. split_and!; [done|done| |lia|done].
        rewrite app_nil_r, Hcut. done.
      - intros _ ?. congruence.
      - intros _ ?. congruence. }
  destruct (attempts_run w ctx options n 0 None s1 ltac:(lia))
    as (body & r & s' & Hrun & Hlog' & Hpref & fails & Hout).
  destruct (attempts_cases w ctx options n 0 None s1 ltac:(lia))
    as (body2 & r2 & s2 & Hrun2 & Hlog2 & Hcases).
  rewrite Hrun in Hrun2 |- *. injection Hrun2 as <- <-. rewrite Hlog' in Hlog2.
  apply app_inv_head in Hlog2 as <-.
  exists start, body, r, s'.
  assert ((length (results body) ≤ n)%nat ∧
          (∀ i, results body !! i = Some true →
                S i = length (results body) ∧ r = Return tt) ∧
          (r = Return tt → last (results body) = Some true)) as (Hlen & Htrue & Hlast).
  { destruct r as [[]|e| |]; [| |done..].
    - destruct Hout as (Hf & -> & _).
      rewrite length_app, length_replicate. simpl. split_and!; [lia| |].
      + intros i Hi. split; [|done].
        destruct (decide (i < fails)) as [Hlt|Hge].
        * rewrite lookup_app_l in Hi by (by rewrite length_replicate).
          by apply lookup_replicate in Hi as [? _].
        * apply lookup_lt_Some in Hi.
          rewrite length_app, length_replicate in Hi. simpl in Hi. lia.
      + intros _. by rewrite last_snoc.
    - destruct Hout as (-> & Hcs). rewrite length_replicate. split_and!.
      + destruct Hcs as [(-> & _)|(? & _)]; lia.
      + by intros i [? _]%lookup_replicate.
      + done. }
  assert (gate_cases w ctx options n start body r s') as Hgate.
  { destruct Hcases as (outcomes & Hall & Hres & Hcs).
    exists outcomes. split_and!; [done..|].
    unfold expected in Hcs. cbn [Z.ltb Z.compare] in Hcs.
    destruct Hcs as [(k & Hk & -> & Hrk & Hsk)
                    |[(e & -> & (lst & -> & Hl) & Hrk & Hsk)
                     |[(k & Hk & -> & Hdone & Hlastk & Hrk & Hsk)
                      |(-> & Hh & Ht & _ & Hbody)]]].
    - left. by exists k.
    - right. left. destruct Hl as [[-> _]|(e1 & s0 & -> & Hp)]; [lia|].
      by exists e1, s0.
    - do 2 right. left. exists (CheckOptions.Interval options), k.
      split_and!; [done..| |done|done].
      destruct body as [|ev body]; [done|]. by rewrite last_app, Hlastk.
    - do 3 right. apply String.eqb_neq in Hh, Ht. split_and!; [done..|].
      by apply Hbody. }
  split_and!; [done|by rewrite Hlog', Hlog1, <- app_assoc|done..| | |done| |].
  - intros ->. split; [by apply Hlast|]. by destruct Hout as (_ & _ & ?).
  - intros Hrep. destruct r as [[]|e| |]; [| |done..].
    { destruct Hout as (_ & Hres & _). rewrite Hrep in Hres.
      assert (true ∈ replicate n false) as [? _]%elem_of_replicate; [|done].
      rewrite Hres. apply elem_of_app. right. by left. }
    destruct Hout as (Hres & Hcs). rewrite Hrep in Hres.
    apply (f_equal length) in Hres. rewrite !length_replicate in Hres. subst fails.
    destruct Hcs as [(_ & Hsh & last & -> & Hlast')|(? & _)]; [|lia].
    unfold expected in Hsh. simpl in Hsh. rewrite Hsh.
    destruct (alternating_counts (CheckOptions.Interval options) n Hpos) as [-> ->].
    split_and!; [done..|].
    destruct Hlast' as [[-> _]|(e1 & s0 & -> & Hp)]; [lia|]. by exists e1, s0.
  - intros Hfails Hnot.
    destruct Hgate as (outcomes & Hall & Hres & Hcs).
    pose proof (passed_all w ctx options outcomes false
                  (λ o, probed_fails w ctx options o Hfails) Hall) as Hfalse.
    destruct Hcs as [(k & Hk & -> & Hrk & Hsk)
                    |[(e & s0 & -> & Hp & Hrk & Hsk)
                     |[(d & k & -> & Hdone & _)
                      |(-> & Hh%String.eqb_neq & Ht%String.eqb_neq & _)]]].
    + rewrite Hres, Hfalse in Hrk.
      assert (true ∈ replicate (length outcomes) false) as [? _]%elem_of_replicate;
        [|done].
      rewrite Hrk. apply elem_of_app. right. by left.
    + rewrite Hsk.
      destruct (alternating_counts (CheckOptions.Interval options) n Hpos) as [-> ->].
      split_and!; [done..|]. by exists e.
    + congruence.
    + destruct (Hfails s) as (e & s2 & Hp).
      by destruct (probe_supported w ctx options _ _ _ Hp).
  - intros Hpasses Hnot.
    destruct Hgate as (outcomes & Hall & Hres & Hcs).
    pose proof (passed_all w ctx options outcomes true
                  (λ o, probed_passes w ctx options o Hpasses) Hall) as Htrues.
    destruct Hcs as [(k & Hk & -> & Hrk & Hsk)
                    |[(e & s0 & -> & Hp & Hrk & Hsk)
                     |[(d & k & -> & Hdone & _)
                      |(-> & Hh%String.eqb_neq & Ht%String.eqb_neq & _)]]].
    + destruct k as [|k]; [by rewrite Hrk, Hsk|].
      rewrite Hres, Htrues in Hrk.
      assert (false ∈ replicate (length outcomes) true) as [? _]%elem_of_replicate;
        [|done].
      rewrite Hrk. by left.
    + destruct (Hpasses s0) as (s2 & Hp2). rewrite Hp in Hp2. done.
    + congruence.
    + destruct (Hpasses s) as (s2 & Hp).
      by destruct (probe_supported w ctx options _ _ _ Hp).
Qed.

(** The example of the design document: three retries and a probe that
    always fails give three attempts and two delays. *)
Example three_retries_always_failing :
  Check refusing Context.Background "db" (tcp_options 3) (Proc 0 []) =
  (Fail (Wrap "health check failed"
           (Wrap "TCP connection failed" (Errorf "connection refused"))),
   Proc (60 * Second)
     [EvDial "db:5432" (10 * Second) (Some (Errorf "connection refused"));
      EvWait (30 * Second) true;
      EvDial "db:5432" (10 * Second) (Some (Errorf "connection refused"));
      EvWait (30 * Second) true;
      EvDial "db:5432" (10 * Second) (Some (Errorf "connection refused"))]).
Proof. vm_compute. reflexivity. Qed.

Lemma C6_health_gate_attempts_witness :
  ∃ start body r s',
    Check refusing Context.Background "db" (tcp_options 3) (Proc 0 []) = (r, s') ∧
    log s' = [] ++ start ++ body ∧
    (start = [] ∨ ∃ fired, start = [EvWait 0 fired]) ∧
    shape body `prefix_of` alternating (30 * Second) 3 ∧
    (length (results body) ≤ 3)%nat ∧
    (∀ i, results body !! i = Some true →
          S i = length (results body) ∧ r = Return tt) ∧
    (r = Return tt →
       last (results body) = Some true ∧
       ∃ s1, probe refusing Context.Background (tcp_options 3) s1 =
             (Return (inr tt), s')) ∧
    (results body = replicate 3 false →
       count_attempts (shape body) = 3 ∧
       count_delays (shape body) = 3 - 1 ∧
       shape body = alternating (30 * Second) 3 ∧
       ∃ e s1, probe refusing Context.Background (tcp_options 3) s1 =
               (Return (inl e), s') ∧
               r = Fail (Wrap "health check failed" e)) ∧
    gate_cases refusing Context.Background (tcp_options 3) 3 start body r s' ∧
    (every_probe_fails refusing Context.Background (tcp_options 3) →
     Context.is_done Context.Background (now s') = false →
       count_attempts (shape body) = 3 ∧
       count_delays (shape body) = 3 - 1 ∧
       ∃ e, r = Fail (Wrap "health check failed" e)) ∧
    (every_probe_passes refusing Context.Background (tcp_options 3) →
     Context.is_done Context.Background (now s') = false →
       r = Return tt ∧ results body = [true] ∧ shape body = [Attempt]).
Proof.
  apply (C6_health_gate_attempts refusing Context.Background "db" (tcp_options 3)
           (Proc 0 []) 3); [reflexivity|lia].
Defined.

End HealthFacts.

(** ** The external verifier *)

Module ExternalFacts.
Import External.
Import HealthSpec.
Import ExternalSpec.
Import BackoffSpec.

Lemma append_cons x a b : String x a +:+ b = String x (a +:+ b).
Proof. reflexivity. Qed.

Lemma append_assoc a b c : (a +:+ b) +:+ c = a +:+ b +:+ c.
Proof. induction a as [|x a IH]; [done|]. by rewrite !append_cons, IH. Qed.

Lemma append_nil_r a : a +:+ "" = a.
Proof. induction a as [|x a IH]; [done|]. by rewrite append_cons, IH. Qed.

Lemma names_in_refl a : names_in a a.
Proof. exists "", "". simpl. by rewrite append_nil_r. Qed.

Lemma names_in_app_l a b sub : names_in a sub → names_in (a +:+ b) sub.
Proof.
  intros (pre & post & ->). exists pre, (post +:+ b). by rewrite !append_assoc.
Qed.

Lemma names_in_app_r a b sub : names_in b sub → names_in (a +:+ b) sub.
Proof.
  intros (pre & post & ->). exists (a +:+ pre), post. by rewrite !append_assoc.
Qed.

Lemma prefix_append sub post : String.prefix sub (sub +:+ post) = true.
Proof.
  induction sub as [|c sub IH]; simpl; [by destruct post|].
  destruct (Ascii.ascii_dec c c); [done|congruence].
Qed.

Lemma contains_prefix sub text :
  String.prefix sub text = true → contains sub text = true.
Proof. intros H. destruct text; cbn [contains]; by rewrite H. Qed.

Lemma contains_complete text sub : names_in text sub → contains sub text = true.
Proof.
  intros (pre & post & ->). induction pre as [|c pre IH].
  - change (contains sub (sub +:+ post) = true).
    apply contains_prefix, prefix_append.
  - change (contains sub (String c (pre +:+ sub +:+ post)) = true).
    cbn [contains]. rewrite IH. apply orb_true_r.
Qed.

Lemma is_done_earlier ctx t t' :
  (t' ≤ t)%Z → Context.is_done ctx t = false → Context.is_done ctx t' = false.
Proof.
  unfold Context.is_done. destruct (Context.done_at ctx) as [d|]; [|done].
  intros ? ?%Z.leb_gt. apply Z.leb_gt. lia.
Qed.


Lemma for_each_seq {S A} (body : A → M S unit) l1 l2 s :
  for_each body (l1 ++ l2) s = (let* _ := for_each body l1 in for_each body l2) s.
Proof.
  revert s. induction l1 as [|x l1 IH]; intros s; [done|].
  cbn [app for_each]. unfold bind in *.
  destruct (body x s) as [[[]|e| |] s1]; [|done..]. apply IH.
Qed.

Section verifier.
Variable w : World.
Variable config : Config.t.
Variable ctx : Context.t.
Variable url : string.

(** The loop that finds the context done at its head stops there. *)
Lemma endpoint_loop_head maxAttempts fuel attempt waitTime s :
  (attempt ≤ maxAttempts)%Z →
  Context.is_done ctx
    (now (endpoint_loop w config ctx url maxAttempts (S fuel) attempt waitTime s).2)
  = false →
  Context.is_done ctx (now s) = false.
Proof.
  intros Hle%Z.leb_le Hend. cbn [endpoint_loop] in Hend. rewrite Hle in Hend.
  unfold bind at 1 in Hend. unfold poll at 1 in Hend.
  destruct (Context.is_done ctx (now s)) eqn:E; [|done].
  unfold fail in Hend. cbn [snd] in Hend. congruence.
Qed.

(** One round of the loop when the probe fails. *)
Lemma endpoint_loop_failing maxAttempts fuel attempt waitTime s :
  (attempt ≤ maxAttempts)%Z →
  new_request w "GET" url = None →
  failing (http_do w (log s ++ [EvNewRequest "GET" url None]) (client config) url) →
  Context.is_done ctx (now s) = false →
  endpoint_loop w config ctx url maxAttempts (S fuel) attempt waitTime s =
  endpoint_loop w config ctx url maxAttempts fuel (wrap64 (attempt + 1))
    (wrap64 (waitTime + waitTime `quot` 2))
    (Proc (now s +
           Z.max (net_time w
                    (log s ++ [EvNewRequest "GET" url None;
                               EvHTTP (client config) url
                                 (http_do w (log s ++ [EvNewRequest "GET" url None])
                                          (client config) url)])) 0 +
           Z.max waitTime 0)
          (log s ++ [EvNewRequest "GET" url None;
                     EvHTTP (client config) url
                       (http_do w (log s ++ [EvNewRequest "GET" url None])
                                (client config) url);
                     EvSleep waitTime])).
Proof.
  intros Hle%Z.leb_le Hreq Hfail Hdone. cbn [endpoint_loop]. rewrite Hle.
  unfold bind, poll, call, exchange, Sleep. cbn [now log]. rewrite Hdone, Hreq.
  cbn [now log]. rewrite <- !app_assoc. cbn [app].
  destruct (http_do w _ _ _) as [e|status] eqn:Hr.
  { cbn [now log]. by rewrite <- !app_assoc. }
  cbn [failing] in Hfail.
  destruct ((200 <=? status)%Z && (status <? 300)%Z) eqn:Hok.
  { apply andb_true_iff in Hok as [?%Z.leb_le ?%Z.ltb_lt]. lia. }
  cbn [now log]. by rewrite <- !app_assoc.
Qed.


End verifier.

(** C5 as stated fails at the URL [http://example.com]: after five failed
    attempts [checkEndpoint] returns an error whose text does not hold the
    URL. *)
Lemma C5_counterexample :
  ∃ e s',
    checkEndpoint refusing
      (Config.mk "1.0" "example.com" (SSLConfig.mk false "" "" false false "" ∅)
         (ProxyConfig.mk "" 0 0) [] [] ∅ 0 "")
      Context.Background "http://example.com" 5 3 (Proc 0 []) = (Fail e, s') ∧
    Error e = "endpoint verification failed after 5 attempts" ∧
    ¬ names_in (Error e) "http://example.com".
Proof.
  eexists _, _. split_and!; [vm_compute; reflexivity|done|].
  intros H%contains_complete. vm_compute in H. done.
Qed.

(** The five rounds of [checkEndpoint] with [maxAttempts = 5] and an
    initial wait of 3s when every probe fails and the context is not done
    when [checkEndpoint] returns. *)
Lemma checkEndpoint_five w config ctx url s :
  new_request w "GET" url = None →
  (∀ l, failing (http_do w l (client config) url)) →
  Context.is_done ctx (now (checkEndpoint w config ctx url 5 3 s).2) = false →
  ∃ new s',
    checkEndpoint w config ctx url 5 3 s = (Fail (verification_failed 5), s') ∧
    log s' = log s ++ new ∧
    length (List.filter is_attempt new) = 5 ∧
    waits_between new = [3000000000; 4500000000; 6750000000; 10125000000]%Z.
Proof.
  intros Hreq Hfail Hend. unfold checkEndpoint in *.
  change (S (Z.to_nat 5)) with 6 in *.
  change (wrap64 (3 * Second)) with 3000000000%Z in *.
  do 5 (let H := fresh "Hhead" in
        pose proof (λ Hle, endpoint_loop_head _ _ _ _ _ _ _ _ _ Hle Hend) as H;
        specialize (H ltac:(lia));
        rewrite endpoint_loop_failing in Hend |- *
          by first [lia|exact Hreq|apply Hfail|exact H];
        clear H;
        repeat match type of Hend with
               | context [wrap64 ?z] =>
                   let v := eval vm_compute in (wrap64 z) in
                   change (wrap64 z) with v in *
               end).
  cbn [endpoint_loop]. change (6 <=? 5)%Z with false. cbv iota.
  eexists _, _. split; [reflexivity|]. cbn [log]. split_and!.
  - rewrite <- !app_assoc. reflexivity.
  - reflexivity.
  - reflexivity.
Qed.

Lemma attempts_error_names_count :
  names_in (Error (verification_failed 5)) "5 attempts".
Proof. exists "endpoint verification failed after ", "". vm_compute. reflexivity. Qed.

(** C5, amended: when every probe of a URL fails (a transport error or a
    status outside 2xx) and the context is not done when [checkEndpoint]
    returns, [checkEndpoint] with [maxAttempts = 5] and an initial wait of
    3s makes five attempts, sleeps 3s, 4.5s, 6.75s and 10.125s between
    consecutive attempts, and returns a failure that names the attempt
    count. [VerifyExternalAccess] wraps that failure in an error that names
    the app and the URL: for the main URL of an app reached after the apps
    before it were verified, and for its health URL after its main URL was
    verified. *)
Theorem C5_backoff_sequence w config ctx url s :
  new_request w "GET" url = None →
  (∀ l, failing (http_do w l (client config) url)) →
  Context.is_done ctx (now (checkEndpoint w config ctx url 5 3 s).2) = false →
  ∃ new s',
    checkEndpoint w config ctx url 5 3 s = (Fail (verification_failed 5), s') ∧
    log s' = log s ++ new ∧
    length (List.filter is_attempt new) = 5 ∧
    waits_between new = [3000000000; 4500000000; 6750000000; 10125000000]%Z ∧
    names_in (Error (verification_failed 5)) "5 attempts" ∧
    (∀ earlier app later s0,
       Config.Apps config = earlier ++ app :: later →
       for_each (verify_app w config ctx) earlier s0 = (Return tt, s) →
       app_url config app = url →
       ∃ e, VerifyExternalAccess w config ctx s0 = (Fail e, s') ∧
            names_in (Error e) (App.Name app) ∧ names_in (Error e) url ∧
            names_in (Error e) "5 attempts") ∧
    (∀ earlier app later s0 s1,
       Config.Apps config = earlier ++ app :: later →
       for_each (verify_app w config ctx) earlier s0 = (Return tt, s1) →
       checkEndpoint w config ctx (app_url config app) 5 3 s1 = (Return tt, s) →
       health_path app ≠ "/" → health_path app ≠ "" →
       app_url config app +:+ health_path app = url →
       ∃ e, VerifyExternalAccess w config ctx s0 = (Fail e, s') ∧
            names_in (Error e) (App.Name app) ∧ names_in (Error e) url ∧
            names_in (Error e) "5 attempts").
Proof.
  intros Hreq Hfail Hend.
  destruct (checkEndpoint_five w config ctx url s Hreq Hfail Hend)
    as (new & s' & Hrun & Hlog & Hatt & Hwaits).
  pose proof attempts_error_names_count as Hcount.
  exists new, s'. split_and!; [done..| |].
  - intros earlier app later s0 Happs Hearlier Hurl.
    unfold VerifyExternalAccess. rewrite Happs, for_each_seq. unfold bind at 1.
    rewrite Hearlier. cbn [for_each]. unfold bind at 1. unfold verify_app.
    unfold bind at 1. unfold wrapf at 1. rewrite Hurl, Hrun.
    eexists. split; [reflexivity|]. cbn [Error]. split_and!.
    + apply names_in_app_l. apply names_in_app_r, names_in_app_l, names_in_refl.
    + apply names_in_app_l. do 3 apply names_in_app_r. apply names_in_refl.
    + do 2 apply names_in_app_r. exact Hcount.
  - intros earlier app later s0 s1 Happs Hearlier Hmain Hh1 Hh2 Hurl.
    unfold VerifyExternalAccess. rewrite Happs, for_each_seq. unfold bind at 1.
    rewrite Hearlier. cbn [for_each]. unfold bind at 1. unfold verify_app.
    unfold bind at 1. unfold wrapf at 1. rewrite Hmain.
    apply String.eqb_neq in Hh1, Hh2. rewrite Hh1, Hh2. cbn [negb andb].
    unfold wrapf at 1. rewrite Hurl, Hrun.
    eexists. split; [reflexivity|]. cbn [Error]. split_and!.
    + apply names_in_app_l. apply names_in_app_r, names_in_app_l, names_in_refl.
    + apply names_in_app_l. do 3 apply names_in_app_r. apply names_in_refl.
    + do 2 apply names_in_app_r. exact Hcount.
Qed.

Lemma C5_backoff_sequence_witness :
  let config :=
    Config.mk "1.0" "example.com" (SSLConfig.mk false "" "" false false "" ∅)
      (ProxyConfig.mk "" 0 0) [] [DependenciesSpec.app_of "A1" []] ∅ 0 "" in
  let url := "http://example.com" in
  ∃ new s',
    checkEndpoint refusing config Context.Background url 5 3 (Proc 0 []) =
    (Fail (verification_failed 5), s') ∧
    log s' = [] ++ new ∧
    length (List.filter is_attempt new) = 5 ∧
    waits_between new = [3000000000; 4500000000; 6750000000; 10125000000]%Z ∧
    names_in (Error (verification_failed 5)) "5 attempts" ∧
    (∀ earlier app later s0,
       Config.Apps config = earlier ++ app :: later →
       for_each (verify_app refusing config Context.Background) earlier s0 =
       (Return tt, Proc 0 []) →
       app_url config app = url →
       ∃ e, VerifyExternalAccess refusing config Context.Background s0 = (Fail e, s') ∧
            names_in (Error e) (App.Name app) ∧ names_in (Error e) url ∧
            names_in (Error e) "5 attempts") ∧
    (∀ earlier app later s0 s1,
       Config.Apps config = earlier ++ app :: later →
       for_each (verify_app refusing config Context.Background) earlier s0 =
       (Return tt, s1) →
       checkEndpoint refusing config Context.Background (app_url config app) 5 3 s1 =
       (Return tt, Proc 0 []) →
       health_path app ≠ "/" → health_path app ≠ "" →
       app_url config app +:+ health_path app = url →
       ∃ e, VerifyExternalAccess refusing config Context.Background s0 = (Fail e, s') ∧
            names_in (Error e) (App.Name app) ∧ names_in (Error e) url ∧
            names_in (Error e) "5 attempts").
Proof.
  intros config url.
  apply (C5_backoff_sequence refusing config Context.Background url (Proc 0 []));
    [reflexivity|by intros l|reflexivity].
Defined.

(** A wait of the health gate that the context's cancellation falls
    into ends at the instant of the cancellation. *)
Lemma wait_cancelled w ctx d s t :
  Context.done_at ctx = Some t → (now s ≤ t < now s + d)%Z →
  wait w ctx d s = (Return false, Proc t (log s ++ [EvWait d false])).
Proof.
  intros Hdone [? ?]. unfold wait. rewrite Hdone.
  replace (Z.max t (now s)) with t by lia.
  assert ((t <? now s + Z.max d 0)%Z = true) as -> by (apply Z.ltb_lt; lia).
  done.
Qed.

(** The health gate, cancelled during its start period, returns the
    context's error at the instant of the cancellation. *)
Lemma Check_cancelled_in_start_period w ctx name options s t :
  Context.done_at ctx = Some t →
  (now s ≤ t < now s + Health.CheckOptions.StartPeriod options)%Z →
  Health.Check w ctx name options s =
  (Fail (Context.err ctx),
   Proc t (log s ++ [EvWait (Health.CheckOptions.StartPeriod options) false])).
Proof.
  intros Hdone Ht. unfold Health.Check, bind.
  assert ((0 <? Health.CheckOptions.StartPeriod options)%Z = true) as ->
    by (apply Z.ltb_lt; lia).
  by rewrite (wait_cancelled _ _ _ _ t).
Qed.

(** The health gate, cancelled during the wait between two attempts,
    returns the context's error at the instant of the cancellation. *)
Example Check_cancelled_between_attempts :
  Health.Check refusing (Context.mk (Some (10 * Second)%Z) Canceled) "db"
    (HealthSpec.tcp_options 3) (Proc 0 []) =
  (Fail Canceled,
   Proc (10 * Second)
     [EvDial "db:5432" (10 * Second) (Some (Errorf "connection refused"));
      EvWait (30 * Second) false]).
Proof. vm_compute. reflexivity. Qed.

(** C3, at the external verifier: the context is cancelled at 25s, during
    the sleep that follows the fifth failed attempt (24.375s to 39.5625s).
    [checkEndpoint] sleeps on to 39.5625s and returns the probe-failure
    error, not the context's error. Cancelled at 1s, during the first
    sleep, it returns the context's error, but only at 3s, when the sleep
    is over: [time.Sleep] does not watch the context. *)
Theorem C3_cancelled_during_backoff :
  let config :=
    Config.mk "1.0" "example.com" (SSLConfig.mk false "" "" false false "" ∅)
      (ProxyConfig.mk "" 0 0) [] [] ∅ 0 "" in
  (∃ s', checkEndpoint refusing config
           (Context.mk (Some 25000000000%Z) Canceled)
           "http://example.com" 5 3 (Proc 0 []) =
         (Fail (verification_failed 5), s') ∧
         is_context_error (verification_failed 5) = false ∧
         now s' = 39562500000%Z ∧
         last (log s') = Some (EvSleep 15187500000)) ∧
  (∃ s', checkEndpoint refusing config
           (Context.mk (Some 1000000000%Z) Canceled)
           "http://example.com" 5 3 (Proc 0 []) = (Fail Canceled, s') ∧
         now s' = 3000000000%Z ∧
         last (log s') = Some (EvSleep 3000000000)).
Proof.
  split; eexists; (split_and!; [vm_compute; reflexivity|done..]).
Qed.

End ExternalFacts.

(** ** The registry and rollback *)

Module ManagerFacts.
Import Manager.
Import HealthSpec.
Import ManagerSpec.

Lemma failures_app evs evs' : failures (evs ++ evs') = failures evs + failures evs'.
Proof. unfold failures. by rewrite List.filter_app, length_app. Qed.

Lemma attempted_app evs evs' : attempted (evs ++ evs') = attempted evs ++ attempted evs'.
Proof. apply omap_app. Qed.

Lemma teardown_failed_app_l id evs evs' :
  teardown_failed id evs → teardown_failed id (evs ++ evs').
Proof. intros [e [?|?]]; exists e; [left|right]; apply elem_of_app; by left. Qed.

Lemma teardown_failed_app_r id evs evs' :
  teardown_failed id evs' → teardown_failed id (evs ++ evs').
Proof. intros [e [?|?]]; exists e; [left|right]; apply elem_of_app; by right. Qed.

Lemma for_fold_app {S A B} (body : B → A → M S B) xs ys acc s :
  for_fold body (xs ++ ys) acc s =
  (let* acc' := for_fold body xs acc in for_fold body ys acc') s.
Proof.
  revert acc s. induction xs as [|x xs IH]; intros acc s; simpl.
  - unfold bind, ret. done.
  - unfold bind in *.
    destruct (body acc x s) as [[acc'| | |] s']; [|done..]. by rewrite IH.
Qed.

Section rollback.
Variable w : World.
Variable config : Config.t.
Variable ctx : Context.t.

Lemma rollbackDeployment_run d st :
  rollbackDeployment w ctx d st =
  match stop_container w (log (sys st)) (Deployment.ContainerID d) 10 with
  | Some e =>
      (Fail (Wrap "failed to stop container" e),
       State (deployments st)
         (Proc (now (sys st))
            (log (sys st) ++ [EvStopContainer (Deployment.ContainerID d) 10 (Some e)])))
  | None =>
      match remove_container w
              (log (sys st) ++ [EvStopContainer (Deployment.ContainerID d) 10 None])
              (Deployment.ContainerID d) true with
      | Some e =>
          (Fail (Wrap "failed to remove container" e),
           State (deployments st)
             (Proc (now (sys st))
                (log (sys st) ++
                 [EvStopContainer (Deployment.ContainerID d) 10 None;
                  EvRemoveContainer (Deployment.ContainerID d) true (Some e)])))
      | None =>
          (Return tt,
           State (delete (Deployment.Name d) (deployments st))
             (Proc (now (sys st))
                (log (sys st) ++
                 [EvStopContainer (Deployment.ContainerID d) 10 None;
                  EvRemoveContainer (Deployment.ContainerID d) true None])))
      end
  end.
Proof.
  destruct st as [D [t l]]. unfold rollbackDeployment, bind, wrapf, lift, call. simpl.
  destruct (stop_container w l _ 10) as [e|]; simpl; [done|].
  destruct (remove_container w _ _ true) as [e|]; simpl; by rewrite <- app_assoc.
Qed.

Lemma rollback_step_run errors name st :
  ∃ errs new D',
    rollback_step w ctx errors name st =
    (Return (errors ++ errs),
     State D' (Proc (now (sys st)) (log (sys st) ++ new))) ∧
    step_result (deployments st) name errs new D'.
Proof.
  unfold rollback_step, step_result, bind, get_deployments. simpl.
  destruct (deployments st !! name) as [d|] eqn:Hd.
  2:{ exists [], [], (deployments st). rewrite !app_nil_r. by destruct st as [D [t l]]. }
  unfold catch. rewrite rollbackDeployment_run.
  destruct (stop_container w _ _ 10) as [e|]; simpl.
  { eexists [_], [_], _. split; [done|]. split; [done|]. right.
    eexists. split_and!; [done..|]. exists e. left. by left. }
  destruct (remove_container w _ _ true) as [e|]; simpl.
  { eexists [_], [_; _], _. split; [done|]. split; [done|]. right.
    eexists. split_and!; [done..|]. exists e. right. right. by left. }
  eexists [], [_; _], _. rewrite app_nil_r. split; [done|]. split; [done|]. by left.
Qed.

Lemma registered_agree D D' names :
  (∀ k, k ∈ names → D' !! k = D !! k) → registered D' names = registered D names.
Proof.
  unfold registered. induction names as [|n ns IH]; intros H; [done|].
  cbn [omap list_omap]. rewrite (H n) by (by left).
  rewrite IH by (intros k ?; apply H; by right). done.
Qed.

Lemma registered_cons D n ns :
  registered D (n :: ns) = registered D [n] ++ registered D ns.
Proof. unfold registered. cbn [omap list_omap]. by destruct (D !! n). Qed.

Lemma rollback_loop_run names : ∀ errors st,
  NoDup names → well_keyed (deployments st) →
  ∃ errs new D',
    for_fold (rollback_step w ctx) names errors st =
    (Return (errors ++ errs),
     State D' (Proc (now (sys st)) (log (sys st) ++ new))) ∧
    loop_result (deployments st) names errs new D'.
Proof.
  induction names as [|n ns IH]; intros errors st Hnd Hwk.
  { exists [], [], (deployments st). rewrite !app_nil_r.
    split; [by destruct st as [D [t l]]|].
    unfold loop_result, registered, failures. simpl. split_and!; [done..|lia|].
    by intros k d _ ?%elem_of_nil. }
  apply NoDup_cons in Hnd as [Hn Hnd].
  destruct (rollback_step_run errors n st) as (errs1 & new1 & D1 & Hstep & Hres).
  assert (D1 ⊆ deployments st ∧ (∀ k, k ≠ n → D1 !! k = deployments st !! k) ∧
          size D1 + length (registered (deployments st) [n]) =
          size (deployments st) + failures new1 ∧
          attempted new1 = Deployment.ContainerID <$> registered (deployments st) [n] ∧
          length errs1 = failures new1 ∧
          (∀ d, D1 !! n = Some d → teardown_failed (Deployment.ContainerID d) new1))
    as (Hsub1 & Hother1 & Hsize1 & Hatt1 & Hlen1 & Hfail1).
  { unfold step_result, registered in *. simpl.
    destruct (deployments st !! n) as [d|] eqn:Hd; simpl.
    - destruct Hres as [Hatt [(-> & Hf & ->)|(e & -> & Hf & -> & Htd)]].
      + rewrite (Hwk n d Hd), Hf. split_and!; [apply delete_subseteq| | |done..|].
        * intros k ?. by rewrite lookup_delete_ne.
        * rewrite map_size_delete_Some by eauto.
          assert (size (deployments st) ≠ 0); [|lia].
          intros Hsz%map_size_empty_inv. rewrite Hsz in Hd.
          by rewrite lookup_empty in Hd.
        * intros d'. by rewrite lookup_delete_eq.
      + rewrite Hf. split_and!; [done..|simpl; lia|done|done|].
        intros d' Hd'. rewrite Hd in Hd'. by simplify_eq.
    - destruct Hres as (-> & -> & ->). split_and!; [done..|].
      intros d'. by rewrite Hd. }
  cbn [for_fold]. unfold bind. rewrite Hstep.
  destruct (IH (errors ++ errs1)
              (State D1 (Proc (now (sys st)) (log (sys st) ++ new1))) Hnd)
    as (errs2 & new2 & D2 & Hloop & Hatt2 & Hlen2 & Hsub2 & Hother2 & Hsize2 & Hfail2).
  { intros k d Hk. apply Hwk. by eapply lookup_weaken. }
  cbn [deployments sys now log] in *. rewrite Hloop.
  assert (registered D1 ns = registered (deployments st) ns) as Hreg.
  { apply registered_agree. intros k Hk. apply Hother1. by intros ->. }
  rewrite Hreg in *.
  exists (errs1 ++ errs2), (new1 ++ new2), D2. rewrite <- !app_assoc.
  split; [done|]. unfold loop_result.
  rewrite attempted_app, failures_app, length_app.
  rewrite (registered_cons (deployments st) n ns), fmap_app, length_app.
  split_and!.
  - by rewrite Hatt1, Hatt2.
  - lia.
  - by trans D1.
  - intros k [Hkn Hk]%not_elem_of_cons. by rewrite Hother2, Hother1.
  - lia.
  - intros k d Hk [->|Hin]%elem_of_cons.
    + apply teardown_failed_app_l, Hfail1. by rewrite <- Hother2.
    + by apply teardown_failed_app_r, (Hfail2 k).
Qed.

Lemma rollback_order_NoDup : NoDup (unit_names config) → NoDup (rollback_order config).
Proof.
  unfold unit_names, rollback_order, reverseServices.
  by rewrite fmap_reverse, reverse_Permutation.
Qed.

Lemma rollback_order_elem k : k ∈ rollback_order config ↔ k ∈ unit_names config.
Proof.
  unfold unit_names, rollback_order, reverseServices.
  by rewrite fmap_reverse, !elem_of_app, elem_of_reverse.
Qed.


(** What [Rollback] does when the units of the configuration have
    distinct names. *)
Lemma Rollback_run st :
  NoDup (unit_names config) → well_keyed (deployments st) →
  ∃ cleanup errs new D',
    Rollback w config ctx st =
    ((if (0 <? length errs)%nat then Fail (rollback_errors (length errs))
      else Return tt),
     State D' (Proc (now (sys st))
                    (log (sys st) ++ EvProxyCleanup cleanup :: new))) ∧
    loop_result (deployments st) (rollback_order config) errs new D'.
Proof.
  intros Hnd%rollback_order_NoDup Hwk.
  unfold Rollback. unfold bind at 1. unfold lift, call. simpl.
  set (st1 := State (deployments st)
                (Proc (now (sys st))
                   (log (sys st) ++ [EvProxyCleanup (proxy_cleanup w (log (sys st)))]))).
  destruct (rollback_loop_run (rollback_order config) [] st1 Hnd Hwk)
    as (errs & new & D' & Hrun & Hres).
  unfold rollback_order in Hrun. rewrite for_fold_app in Hrun.
  unfold bind in *.
  destruct (for_fold (rollback_step w ctx) (App.Name <$> Config.Apps config) [] st1)
    as [[errsA| | |] stA]; [|done..].
  rewrite Hrun. simpl.
  exists (proxy_cleanup w (log (sys st))), errs, new, D'.
  rewrite <- app_assoc. simpl. split; [|done].
  unfold fail, ret. by destruct (0 <? length errs)%nat.
Qed.

End rollback.

(** The loop of [reverseServices]: [reversed[i] = services[len - 1 - i]]. *)
Lemma reverseServices_lookup services i :
  i < length services →
  reverseServices services !! i = services !! (length services - 1 - i).
Proof.
  intros Hi. unfold reverseServices. rewrite reverse_lookup by done. f_equal. lia.
Qed.

(** *** Deploying one unit *)

Lemma performHealthCheck_registry w ctx name hc st :
  deployments (performHealthCheck w ctx name hc st).2 = deployments st.
Proof.
  unfold performHealthCheck, lift. by destruct (Health.Check _ _ _ _ _).
Qed.

Lemma deployApp_run w ctx app st :
  gate_after_registration w ctx (App.Name app) (App.HealthCheck app) st
    (deployApp w ctx app st).1 (deployApp w ctx app st).2.
Proof.
  destruct st as [D [t l]].
  unfold gate_after_registration, deployApp, bind, wrapf, lift, call, of_error,
    ret, fail, Now, get_deployments, set_deployments.
  cbn -[performHealthCheck String.eqb].
  destruct (pull_image w l _) as [e|]; cbn -[performHealthCheck String.eqb].
  { left. split; [done|]. eexists _, e. split; [done|]. set_solver. }
  destruct (create_container w _ _ _) as [e|id]; cbn -[performHealthCheck String.eqb].
  { left. split; [done|]. eexists _, e. split; [done|]. set_solver. }
  destruct (start_container w _ _) as [e|]; cbn -[performHealthCheck String.eqb].
  { left. split; [done|]. eexists _, e. split; [done|]. set_solver. }
  right. destruct (String.eqb_spec (HealthCheck.Type_ (App.HealthCheck app)) "")
    as [Heq|Hne]; cbn [negb].
  - eexists. cbn [fst snd deployments]. split_and!; [|done|by left]. done.
  - match goal with |- context [performHealthCheck w ctx ?n ?h ?s] =>
      pose proof (performHealthCheck_registry w ctx n h s) as Hreg;
      destruct (performHealthCheck w ctx n h s) as [r0 st'] eqn:Hrun
    end.
    cbn [fst snd] in Hreg.
    destruct r0; cbn [fst snd];
      (eexists; split; [|split; [exact Hreg|]]; [done|]; right; split; [done|];
       eexists _, _; rewrite Hreg; split; [exact Hrun|done]).
Qed.

Lemma deployService_run w ctx service st :
  gate_after_registration w ctx (Service.Name service) (Service.HealthCheck service)
    st (deployService w ctx service st).1 (deployService w ctx service st).2.
Proof.
  destruct st as [D [t l]].
  unfold gate_after_registration, deployService, bind, wrapf, lift, call, of_error,
    ret, fail, Now, get_deployments, set_deployments.
  cbn -[performHealthCheck String.eqb].
  destruct (pull_image w l _) as [e|]; cbn -[performHealthCheck String.eqb].
  { left. split; [done|]. eexists _, e. split; [done|]. set_solver. }
  destruct (create_container w _ _ _) as [e|id]; cbn -[performHealthCheck String.eqb].
  { left. split; [done|]. eexists _, e. split; [done|]. set_solver. }
  destruct (start_container w _ _) as [e|]; cbn -[performHealthCheck String.eqb].
  { left. split; [done|]. eexists _, e. split; [done|]. set_solver. }
  right. destruct (String.eqb_spec (HealthCheck.Type_ (Service.HealthCheck service)) "")
    as [Heq|Hne]; cbn [negb].
  - eexists. cbn [fst snd deployments]. split_and!; [|done|by left]. done.
  - match goal with |- context [performHealthCheck w ctx ?n ?h ?s] =>
      pose proof (performHealthCheck_registry w ctx n h s) as Hreg;
      destruct (performHealthCheck w ctx n h s) as [r0 st'] eqn:Hrun
    end.
    cbn [fst snd] in Hreg.
    destruct r0; cbn [fst snd];
      (eexists; split; [|split; [exact Hreg|]]; [done|]; right; split; [done|];
       eexists _, _; rewrite Hreg; split; [exact Hrun|done]).
Qed.


(** *** Examples *)

(** The chain of the design document cannot be deployed: the resolver
    puts [S2] before the [S1] it depends on, and the check of the deployed
    dependencies stops the deployment before any container is created. *)
Example deploy_chain_fails :
  ∃ st',
    Deploy refusing (config_of [DependenciesSpec.service_of "S1" [];
                                DependenciesSpec.service_of "S2" ["S1"]] [])
           Context.Background (State ∅ (Proc 0 [])) =
    (Fail (Wrap "failed to deploy services"
             (Errorf "dependencies for service S2 are not yet deployed")), st') ∧
    deployments st' = ∅ ∧ created (log (sys st')) = [].
Proof. eexists. split; [vm_compute; reflexivity|]. split; reflexivity. Qed.

(** C2, first at a state that [Deploy] reaches: two services without
    dependencies are deployed in the order [S2], [S1] (the resolver
    reverses the declared order), and [Rollback] tears them down in the
    same order [S2], [S1], not in the reverse of the deployment order.
    Then at a registry that holds the app [A2] and the app [A1] that it
    depends on: [Rollback] goes through the apps in their declared order
    and removes the dependency [A1] before its dependent [A2]. *)
Theorem C2_teardown_order :
  (∃ st1 st2,
     Deploy refusing (config_of [DependenciesSpec.service_of "S1" [];
                                 DependenciesSpec.service_of "S2" []] [])
            Context.Background (State ∅ (Proc 0 [])) = (Return tt, st1) ∧
     created (log (sys st1)) = ["S2"; "S1"] ∧
     Rollback refusing (config_of [DependenciesSpec.service_of "S1" [];
                                   DependenciesSpec.service_of "S2" []] [])
              Context.Background st1 = (Return tt, st2) ∧
     attempted (drop (length (log (sys st1))) (log (sys st2))) =
     ["id-S2"; "id-S1"]) ∧
  (∃ st2,
     Rollback refusing (config_of [] [DependenciesSpec.app_of "A1" [];
                                      DependenciesSpec.app_of "A2" ["A1"]])
              Context.Background
              (State (<["A1" := record_of "A1" "id-A1" "app" []]>
                        (<["A2" := record_of "A2" "id-A2" "app" ["A1"]]> ∅))
                     (Proc 0 [])) = (Return tt, st2) ∧
     attempted (log (sys st2)) = ["id-A1"; "id-A2"]).
Proof.
  split.
  - eexists _, _. split; [vm_compute; reflexivity|]. split; [reflexivity|].
    split; [vm_compute; reflexivity|]. reflexivity.
  - eexists. split; [vm_compute; reflexivity|]. reflexivity.
Qed.



Lemma example_registry_well_keyed :
  well_keyed example_registry.
Proof.
  unfold example_registry.
  intros k d [[<- <-]|[_ [[<- <-]|[_ ?]]%lookup_insert_Some]]%lookup_insert_Some;
    done.
Qed.


Lemma example_units_NoDup :
  NoDup (unit_names example_config).
Proof. apply (bool_decide_unpack _). vm_compute. exact I. Qed.



(** In the stuck world both teardown attempts are made and both fail. *)
Example rollback_stuck :
  ∃ st',
    Rollback stuck example_config
      Context.Background
      (State example_registry
             (Proc 0 [])) = (Fail (rollback_errors 2), st') ∧
    log (sys st') =
    [EvProxyCleanup None;
     EvStopContainer "id-A1" 10 (Some (Errorf "container is busy"));
     EvStopContainer "id-S1" 10 (Some (Errorf "container is busy"))] ∧
    Error (rollback_errors 2) = "rollback completed with 2 errors".
Proof. eexists. split; [vm_compute; reflexivity|]. split; reflexivity. Qed.

End ManagerFacts.

(** * Further properties *)

(** ** More on the dependency resolver *)

Module ResolverMore.
Import Dependencies.
Import DependenciesSpec.
Import DependenciesFacts.
Import MoreSpec.

(** X1. The traversal always ends, with an order or with the cycle error of a
    node that is on a cycle: on a graph without cycles it never fails. *)
Theorem resolver_ends_in_order_or_cycle names dependencies :
  (∃ sorted, resolveDependencyOrder names dependencies = Return sorted) ∨
  (∃ n, resolveDependencyOrder names dependencies = Fail (cycle_error n) ∧
        on_cycle dependencies n).
Proof.
  pose proof (resolveDependencyOrder_settled names dependencies) as Hs.
  destruct (resolveDependencyOrder names dependencies) as [sorted|e| |] eqn:Hr;
    [left; by exists sorted| |done..].
  right. apply resolveDependencyOrder_Fail in Hr as (n & -> & Hn). by exists n.
Qed.

(** X2. A returned order has no repetition and holds exactly the nodes that
    can be reached from the input names, whether or not they are input
    names themselves and whether or not an input name is repeated. *)
Theorem resolver_returns_the_reachable names dependencies sorted :
  resolveDependencyOrder names dependencies = Return sorted →
  NoDup sorted ∧
  ∀ x, x ∈ sorted ↔ ∃ n, n ∈ names ∧ rtc (edge dependencies) n x.
Proof.
  intros Hr.
  destruct (resolveDependencyOrder_Return _ _ _ Hr) as (Hnd & Hnames & Hreach & _).
  split; [done|]. intros x. split; [apply Hreach|].
  intros (n & Hn & Hnx). by eapply resolveDependencyOrder_Return_reach.
Qed.

Lemma resolver_returns_the_reachable_witness :
  NoDup ["A"; "X"] ∧
  ∀ x, x ∈ ["A"; "X"] ↔
       ∃ n, n ∈ ["A"; "A"] ∧ rtc (edge (<["A" := ["X"]]> ∅)) n x.
Proof.
  apply (resolver_returns_the_reachable ["A"; "A"] (<["A" := ["X"]]> ∅) ["A"; "X"]).
  vm_compute. reflexivity.
Defined.

(** X3. In a returned order every node comes before all that it depends on,
    directly or through other nodes. *)
Theorem resolver_puts_dependents_first names dependencies sorted a b :
  resolveDependencyOrder names dependencies = Return sorted →
  a ∈ sorted → tc (edge dependencies) a b → before sorted a b.
Proof.
  intros Hr Ha Hab.
  destruct (resolveDependencyOrder_Return _ _ _ Hr) as (Hnd & _ & _ & Hcl).
  induction Hab as [a b Hab|a b c Hab Hbc IH]; [by apply Hcl|].
  eapply (before_trans sorted); [done|by apply Hcl|].
  apply IH. eapply before_elem_r. by apply Hcl.
Qed.

Lemma resolver_puts_dependents_first_witness :
  before ["C"; "B"; "A"] "C" "A".
Proof.
  apply (resolver_puts_dependents_first ["A"; "B"; "C"]
           (<["C" := ["B"]]> (<["B" := ["A"]]> ∅)) ["C"; "B"; "A"] "C" "A").
  - vm_compute. reflexivity.
  - set_solver.
  - apply tc_l with "B"; [|apply tc_once]; unfold edge, slice_at.
    + rewrite lookup_insert_eq. set_solver.
    + rewrite lookup_insert_ne, lookup_insert_eq by done. set_solver.
Defined.

(** X4. The two resolvers over units never index outside the slice and never
    run out of budget, whatever the units: repeated names, names of no
    unit among the dependencies, or no unit at all. *)
Theorem unit_resolvers_end apps services :
  settled (resolveAppDependencies apps) ∧
  settled (resolveServiceDependencies services).
Proof.
  rewrite resolveAppDependencies_eq, resolveServiceDependencies_eq.
  split; apply resolve_units_settled.
Qed.

Lemma pick_omap {A} (units : list A) nameToIndex sortedNames result :
  pick units nameToIndex sortedNames = Return result →
  result = omap (λ n, units !! index_at nameToIndex n) sortedNames.
Proof.
  revert result. induction sortedNames as [|n rest IH]; simpl; intros result Hp.
  { by simplify_eq. }
  destruct (units !! index_at nameToIndex n) as [u|]; [|done].
  destruct (pick units nameToIndex rest) as [res| | |]; [|done..].
  simplify_eq. by rewrite (IH res).
Qed.

Section permutation.
Context {A : Type} (name : A → string) (deps : A → list string).

(** With distinct names, dependencies inside the group and no cycle, a
    resolver over units returns the units it was given, in another order. *)
Lemma resolve_units_Permutation units :
  NoDup (name <$> units) →
  (∀ a b, unit_edge name deps units a b → b ∈ name <$> units) →
  (∀ n, ¬ tc (unit_edge name deps units) n n) →
  ∃ result, resolve_units name deps units = Return result ∧ result ≡ₚ units.
Proof.
  intros Hnd Hin Hacyc. unfold resolve_units.
  destruct (unit_graph name deps 0 units ∅ ∅) as [nameToIndex dependencies] eqn:Hg.
  assert (∀ a b, edge dependencies a b ↔ unit_edge name deps units a b) as Hedge.
  { intros a b. rewrite <- (unit_graph_edge name deps units a b Hnd). by rewrite Hg. }
  destruct (resolveDependencyOrder_dependents_first (name <$> units) dependencies)
    as (sorted & Hr & Hnds & Hset & _).
  { intros n Hn. apply (Hacyc n). eapply tc_congruence with (f := id); [|exact Hn].
    intros a b. apply Hedge. }
  { intros a b ?%Hedge. by eapply Hin. }
  rewrite Hr.
  assert (sorted ≡ₚ name <$> units) as Hperm by (by apply NoDup_Permutation).
  assert (∀ j v, units !! j = Some v → index_at nameToIndex (name v) = j) as Hidx.
  { intros j v Hj. destruct (unit_graph_lookup name deps 0 units ∅ ∅ j v Hnd Hj)
      as [Hi _]. rewrite Hg in Hi. unfold index_at. simpl in Hi. by rewrite Hi. }
  destruct (pick_Return units nameToIndex sorted) as (result & Hp & _).
  { intros n Hn%Hset. apply list_elem_of_fmap in Hn as (v & -> & Hv).
    apply list_elem_of_lookup in Hv as [j Hj]. rewrite (Hidx j v Hj). eauto. }
  exists result. split; [done|].
  rewrite (pick_omap _ _ _ _ Hp), Hperm.
  assert (∀ l : list A, (∀ v, v ∈ l → v ∈ units) →
            omap (λ n, units !! index_at nameToIndex n) (name <$> l) = l) as Hall.
  { induction l as [|v l IH]; intros Hl; [done|]. cbn [fmap list_fmap omap list_omap].
    assert (v ∈ units) as [j Hj]%list_elem_of_lookup by (apply Hl; by left).
    rewrite (Hidx j v Hj), Hj. f_equal. apply IH. intros u ?. apply Hl. by right. }
  by rewrite Hall.
Qed.

End permutation.

(** X5. With distinct names, dependencies inside the group and no cycle, the
    resolver for apps, and likewise the one for services, returns the
    units it was given, each once, in some order. *)
Theorem unit_resolvers_permute :
  (∀ apps,
     NoDup (App.Name <$> apps) →
     (∀ a b, unit_edge App.Name App.DependsOn apps a b → b ∈ App.Name <$> apps) →
     (∀ n, ¬ tc (unit_edge App.Name App.DependsOn apps) n n) →
     ∃ result, resolveAppDependencies apps = Return result ∧ result ≡ₚ apps) ∧
  (∀ services,
     NoDup (Service.Name <$> services) →
     (∀ a b, unit_edge Service.Name Service.DependsOn services a b →
             b ∈ Service.Name <$> services) →
     (∀ n, ¬ tc (unit_edge Service.Name Service.DependsOn services) n n) →
     ∃ result, resolveServiceDependencies services = Return result ∧
               result ≡ₚ services).
Proof.
  split.
  - intros apps ? ? ?. rewrite resolveAppDependencies_eq.
    by apply resolve_units_Permutation.
  - intros services ? ? ?. rewrite resolveServiceDependencies_eq.
    by apply resolve_units_Permutation.
Qed.

Lemma unit_resolvers_permute_witness :
  ∃ result, resolveAppDependencies [app_of "A" []; app_of "B" []] = Return result ∧
            result ≡ₚ [app_of "A" []; app_of "B" []].
Proof.
  assert (∀ a b, ¬ unit_edge App.Name App.DependsOn [app_of "A" []; app_of "B" []] a b)
    as Hnone.
  { intros a b (u & [->|[->|?%elem_of_nil]%elem_of_cons]%elem_of_cons & _ & Hb);
      [| |done]; by apply elem_of_nil in Hb. }
  apply (proj1 unit_resolvers_permute [app_of "A" []; app_of "B" []]).
  - apply (bool_decide_unpack _). vm_compute. exact I.
  - intros a b H. by destruct (Hnone a b).
  - intros n Hn. inversion Hn as [? ? H|? ? ? H _]; by destruct (Hnone _ _ H).
Defined.

(** *** Units declared after their dependencies *)

Lemma range_unchanged body xs s :
  (∀ x, x ∈ xs → body x s = Return s) → range body xs s = Return s.
Proof.
  induction xs as [|x xs IH]; intros H; [done|]. simpl.
  rewrite (H x) by (by left). apply IH. intros y ?. apply H. by right.
Qed.

Section declared.
Variable dependencies : gmap string (list string).

Lemma visit_all_in_order fuel names : ∀ done s,
  visited_in_order done s →
  NoDup (done ++ names) →
  (∀ j n d, names !! j = Some n → d ∈ slice_at dependencies n →
            d ∈ done ++ take j names) →
  ∃ s', visit_all dependencies (S (S fuel)) names s = Return s' ∧
        visited_in_order (done ++ names) s'.
Proof.
  induction names as [|n names IH]; intros done s Hs Hnd Hdeps.
  { exists s. by rewrite app_nil_r. }
  destruct Hs as (Ho & Hv & Ht).
  apply NoDup_app in Hnd as (Hnd1 & Hdisj & Hnd2).
  apply NoDup_cons in Hnd2 as [Hn Hnd2].
  assert (n ∉ done) as Hfresh by (intros ?%Hdisj; apply H; by left).
  assert (flag (visited s) n = false) as Hvis.
  { destruct (flag (visited s) n) eqn:E; [|done]. by apply Hv in E. }
  unfold visit_all. cbn [range]. rewrite Hvis. cbn [visit]. rewrite Ht, Hvis.
  rewrite range_unchanged.
  2:{ intros d Hd. cbn [visit]. cbn [temp visited].
      assert (d ∈ done) as Hdone.
      { specialize (Hdeps 0 n d eq_refl Hd). by rewrite app_nil_r in Hdeps. }
      rewrite flag_insert. rewrite decide_False by (by intros ->).
      rewrite Ht. by rewrite (proj2 (Hv d) Hdone). }
  cbn [visited temp order].
  destruct (IH (done ++ [n])
              (Dfs (<[n := true]> (visited s))
                   (<[n := false]> (<[n := true]> (temp s)))
                   (order s ++ [n]))) as (s' & Hrun & Hs').
  - split_and!; cbn [visited temp order].
    + by rewrite Ho.
    + intros k. rewrite flag_insert, elem_of_app, list_elem_of_singleton, <- Hv.
      case_decide; subst; [by split; [right|]|]. split; [by left|].
      by intros [?|?].
    + intros k. rewrite !flag_insert. by repeat case_decide.
  - rewrite <- app_assoc. simpl. apply NoDup_app. split_and!; [done| |].
    + done.
    + by apply NoDup_cons.
  - intros j m d Hj Hd. rewrite <- app_assoc. by apply (Hdeps (S j) m d).
  - exists s'. rewrite <- app_assoc in Hs'. split; [|done].
    unfold visit_all in Hrun. exact Hrun.
Qed.

End declared.

Section declared_units.
Context {A : Type} (name : A → string) (deps : A → list string).

(** When the units have distinct names and every unit is declared after
    the units it depends on, a resolver over units returns the units in
    the reverse of the declared order. *)
Lemma resolve_units_declared_order units :
  NoDup (name <$> units) →
  (∀ j u d, units !! j = Some u → d ∈ deps u → d ∈ name <$> take j units) →
  resolve_units name deps units = Return (reverse units).
Proof.
  intros Hnd Hdeps. unfold resolve_units.
  destruct (unit_graph name deps 0 units ∅ ∅) as [nameToIndex dependencies] eqn:Hg.
  assert (∀ j v, units !! j = Some v →
            index_at nameToIndex (name v) = j ∧
            slice_at dependencies (name v) = deps v) as Hidx.
  { intros j v Hj. destruct (unit_graph_lookup name deps 0 units ∅ ∅ j v Hnd Hj)
      as [Hi Hd]. rewrite Hg in Hi, Hd. unfold index_at, slice_at.
    simpl in Hi, Hd. by rewrite Hi, Hd. }
  assert (resolveDependencyOrder (name <$> units) dependencies =
          Return (reverse (name <$> units))) as ->.
  { unfold resolveDependencyOrder.
    destruct (size (nodes dependencies (name <$> units))) as [|fuel] eqn:Hsz.
    { apply size_empty_inv in Hsz.
      destruct units as [|u rest]; [done|].
      assert (name u ∈ nodes dependencies (name <$> u :: rest)) as Hin
        by (apply nodes_names; by left).
      by apply Hsz in Hin. }
    destruct (visit_all_in_order dependencies fuel (name <$> units) []
                (Dfs ∅ ∅ [])) as (s' & -> & Ho & _); [|done| |].
    - split_and!; [done| |intros k; apply flag_empty].
      intros k. cbn [visited]. rewrite flag_empty. split; [done|by intros ?%elem_of_nil].
    - intros j n d Hj Hd. simpl. apply list_lookup_fmap_Some in Hj as (u & -> & Hu).
      rewrite (proj2 (Hidx j u Hu)) in Hd. rewrite <- fmap_take. by eapply Hdeps.
    - by rewrite Ho. }
  destruct (pick_Return units nameToIndex (reverse (name <$> units)))
    as (result & Hp & _).
  { intros n Hn. rewrite elem_of_reverse in Hn.
    apply list_elem_of_fmap in Hn as (v & -> & Hv).
    apply list_elem_of_lookup in Hv as [j Hj].
    rewrite (proj1 (Hidx j v Hj)). eauto. }
  rewrite Hp. f_equal. rewrite (pick_omap _ _ _ _ Hp), <- fmap_reverse.
  assert (∀ l : list A, (∀ v, v ∈ l → v ∈ units) →
            omap (λ n, units !! index_at nameToIndex n) (name <$> l) = l) as Hall.
  { induction l as [|v l IH]; intros Hl; [done|]. cbn [fmap list_fmap omap list_omap].
    assert (v ∈ units) as [j Hj]%list_elem_of_lookup by (apply Hl; by left).
    rewrite (proj1 (Hidx j v Hj)), Hj. f_equal. apply IH. intros u ?. apply Hl. by right. }
  apply Hall. intros v Hv. by rewrite elem_of_reverse in Hv.
Qed.

End declared_units.

End ResolverMore.

(** ** More on configuration validation *)

Module ValidationMore.
Import Validation.
Import DependenciesSpec.
Import ValidationSpec.
Import MoreSpec.
Import DependenciesFacts.
Import ValidationFacts.

Lemma eqb_empty_false s : String.eqb s "" = false → s ≠ "".
Proof. by intros H%String.eqb_neq. Qed.

Lemma validate_services_units i services m m' :
  validate_services i services m = inr m' →
  (∀ svc, svc ∈ services →
     Service.Name svc ≠ "" ∧ Service.Image svc ≠ "" ∧
     flag m (Service.Name svc) = false) ∧
  NoDup (Service.Name <$> services).
Proof.
  revert i m. induction services as [|svc rest IH]; intros i m H.
  { split; [by intros ? ?%elem_of_nil|constructor]. }
  cbn [validate_services] in H. simpl in H.
  destruct (String.eqb (Service.Name svc) "") eqn:Hname; [done|].
  destruct (flag m (Service.Name svc)) eqn:Hflag; [done|].
  destruct (String.eqb (Service.Image svc) "") eqn:Himage; [done|].
  destruct (List.find _ (Service.DependsOn svc)); [done|].
  apply IH in H as [Hrest Hnd].
  assert (∀ s, s ∈ rest → Service.Name s ≠ Service.Name svc) as Hneq.
  { intros s Hs Heq. destruct (Hrest s Hs) as (_ & _ & Hf).
    by rewrite Heq, flag_insert, decide_True in Hf. }
  split.
  - intros s [->|Hs]%elem_of_cons.
    + split_and!; [by apply eqb_empty_false..|done].
    + destruct (Hrest s Hs) as (? & ? & Hf). split_and!; [done..|].
      rewrite flag_insert in Hf. by case_decide.
  - cbn [fmap list_fmap]. apply NoDup_cons. split; [|done].
    intros (s & Heq & Hs)%list_elem_of_fmap. by destruct (Hneq s Hs).
Qed.

Lemma validate_apps_units sn i apps m :
  validate_apps sn i apps m = None →
  (∀ app, app ∈ apps →
     App.Name app ≠ "" ∧ App.Image app ≠ "" ∧
     flag (appNames m) (App.Name app) = false) ∧
  NoDup (App.Name <$> apps).
Proof.
  revert i m. induction apps as [|app rest IH]; intros i m H.
  { split; [by intros ? ?%elem_of_nil|constructor]. }
  cbn [validate_apps] in H. simpl in H.
  destruct (String.eqb (App.Name app) "") eqn:Hname; [done|].
  destruct (flag (appNames m) (App.Name app)) eqn:Hflag; [done|].
  destruct (String.eqb (App.Image app) "") eqn:Himage; [done|].
  destruct (negb (String.eqb (App.Subdomain app) "") && _); [done|].
  destruct (negb (String.eqb (App.Path app) "") && _); [done|].
  destruct (List.find _ (App.DependsOn app)); [done|].
  apply IH in H as [Hrest Hnd]. cbn [appNames] in Hrest.
  assert (∀ s, s ∈ rest → App.Name s ≠ App.Name app) as Hneq.
  { intros s Hs Heq. destruct (Hrest s Hs) as (_ & _ & Hf).
    by rewrite Heq, flag_insert, decide_True in Hf. }
  split.
  - intros s [->|Hs]%elem_of_cons.
    + split_and!; [by apply eqb_empty_false..|done].
    + destruct (Hrest s Hs) as (? & ? & Hf). split_and!; [done..|].
      rewrite flag_insert in Hf. by case_decide.
  - cbn [fmap list_fmap]. apply NoDup_cons. split; [|done].
    intros (s & Heq & Hs)%list_elem_of_fmap. by destruct (Hneq s Hs).
Qed.

Lemma subdomains_set_cons app rest :
  subdomains_set (app :: rest) =
  if String.eqb (App.Subdomain app) "" then subdomains_set rest
  else App.Subdomain app :: subdomains_set rest.
Proof.
  unfold subdomains_set. cbn [fmap list_fmap]. rewrite filter_cons.
  destruct (String.eqb (App.Subdomain app) "") eqn:E.
  - apply String.eqb_eq in E. by rewrite decide_False by (by intros ?).
  - apply String.eqb_neq in E. by rewrite decide_True.
Qed.

Lemma paths_set_cons app rest :
  paths_set (app :: rest) =
  if String.eqb (App.Path app) "" then paths_set rest
  else normalizePath (App.Path app) :: paths_set rest.
Proof.
  unfold paths_set. cbn [fmap list_fmap]. rewrite filter_cons.
  destruct (String.eqb (App.Path app) "") eqn:E.
  - apply String.eqb_eq in E. by rewrite decide_False by (by intros ?).
  - apply String.eqb_neq in E. by rewrite decide_True.
Qed.

Lemma validate_apps_routes sn i apps m :
  validate_apps sn i apps m = None →
  (∀ d, d ∈ subdomains_set apps → flag (subdomains m) d = false) ∧
  NoDup (subdomains_set apps) ∧
  (∀ p, p ∈ paths_set apps → flag (paths m) p = false) ∧
  NoDup (paths_set apps).
Proof.
  revert i m. induction apps as [|app rest IH]; intros i m H.
  { split_and!; [by intros ? ?%elem_of_nil|constructor
                |by intros ? ?%elem_of_nil|constructor]. }
  cbn [validate_apps] in H. simpl in H.
  destruct (String.eqb (App.Name app) ""); [done|].
  destruct (flag (appNames m) (App.Name app)); [done|].
  destruct (String.eqb (App.Image app) ""); [done|].
  rewrite subdomains_set_cons, paths_set_cons.
  destruct (String.eqb (App.Subdomain app) "") eqn:Hsub;
    destruct (String.eqb (App.Path app) "") eqn:Hpath; simpl in H.
  - destruct (List.find _ (App.DependsOn app)); [done|]. by apply IH in H.
  - destruct (flag (paths m) (normalizePath (App.Path app))) eqn:Hp; [done|].
    destruct (List.find _ (App.DependsOn app)); [done|].
    apply IH in H as (Hs & Hsnd & Hps & Hpnd). cbn [subdomains paths] in *.
    split_and!; [done..| |].
    + intros p [->|Hin]%elem_of_cons; [done|].
      specialize (Hps p Hin). rewrite flag_insert in Hps. by case_decide.
    + apply NoDup_cons. split; [|done]. intros Hin.
      specialize (Hps _ Hin). by rewrite flag_insert, decide_True in Hps.
  - destruct (flag (subdomains m) (App.Subdomain app)) eqn:Hd; [done|].
    destruct (List.find _ (App.DependsOn app)); [done|].
    apply IH in H as (Hs & Hsnd & Hps & Hpnd). cbn [subdomains paths] in *.
    split_and!; [| |done..].
    + intros p [->|Hin]%elem_of_cons; [done|].
      specialize (Hs p Hin). rewrite flag_insert in Hs. by case_decide.
    + apply NoDup_cons. split; [|done]. intros Hin.
      specialize (Hs _ Hin). by rewrite flag_insert, decide_True in Hs.
  - destruct (flag (subdomains m) (App.Subdomain app)) eqn:Hd; [done|].
    simpl in H.
    destruct (flag (paths m) (normalizePath (App.Path app))) eqn:Hp; [done|].
    destruct (List.find _ (App.DependsOn app)); [done|].
    apply IH in H as (Hs & Hsnd & Hps & Hpnd). cbn [subdomains paths] in *.
    split_and!.
    + intros p [->|Hin]%elem_of_cons; [done|].
      specialize (Hs p Hin). rewrite flag_insert in Hs. by case_decide.
    + apply NoDup_cons. split; [|done]. intros Hin.
      specialize (Hs _ Hin). by rewrite flag_insert, decide_True in Hs.
    + intros p [->|Hin]%elem_of_cons; [done|].
      specialize (Hps p Hin). rewrite flag_insert in Hps. by case_decide.
    + apply NoDup_cons. split; [|done]. intros Hin.
      specialize (Hps _ Hin). by rewrite flag_insert, decide_True in Hps.
Qed.

(** What [Validate] has checked when it accepts. *)
Lemma Validate_None config :
  Validate config = None →
  Config.Version config ≠ "" ∧ Config.Domain config ≠ "" ∧
  ∃ serviceNames,
    validate_services 0 (Config.Services config) ∅ = inr serviceNames ∧
    validate_apps serviceNames 0 (Config.Apps config) (AppMaps ∅ ∅ ∅) = None ∧
    validate_ssl (Config.SSL config) = None.
Proof.
  unfold Validate. intros H.
  destruct (String.eqb (Config.Version config) "") eqn:Hv; [done|].
  destruct (String.eqb (Config.Domain config) "") eqn:Hd; [done|].
  destruct (validate_services 0 (Config.Services config) ∅) as [|sn]; [done|].
  destruct (validate_apps sn 0 (Config.Apps config) _) eqn:Ha; [done|].
  split_and!; [by apply eqb_empty_false..|]. by exists sn.
Qed.

Lemma validate_ssl_None ssl : validate_ssl ssl = None → ssl_complete ssl.
Proof.
  unfold validate_ssl, ssl_complete. intros Hssl Hen. rewrite Hen in Hssl.
  destruct (String.eqb (SSLConfig.Email ssl) "") eqn:He;
    destruct (String.eqb (SSLConfig.DNSProvider ssl) "") eqn:Hp;
    destruct (SSLConfig.SelfSigned ssl);
    destruct (SSLConfig.DNSChallenge ssl);
    simpl in Hssl; try done; split; try done; intros _;
    by apply eqb_empty_false.
Qed.

(** X6. An accepted configuration has a version and a domain; its services,
    and likewise its apps, have non-empty, pairwise distinct names and
    non-empty images; with SSL enabled, an email is set unless the
    certificate is self-signed, and a DNS provider is set when the DNS
    challenge is used. *)
Theorem Validate_accepted_units config :
  Validate config = None →
  Config.Version config ≠ "" ∧ Config.Domain config ≠ "" ∧
  (∀ svc, svc ∈ Config.Services config →
     Service.Name svc ≠ "" ∧ Service.Image svc ≠ "") ∧
  NoDup (Service.Name <$> Config.Services config) ∧
  (∀ app, app ∈ Config.Apps config →
     App.Name app ≠ "" ∧ App.Image app ≠ "") ∧
  NoDup (App.Name <$> Config.Apps config) ∧
  ssl_complete (Config.SSL config).
Proof.
  intros (Hv & Hd & sn & Hs & Ha & Hssl)%Validate_None.
  apply validate_services_units in Hs as [Hs ?].
  apply validate_apps_units in Ha as [Ha ?].
  split_and!; [done..| |done| |done|by apply validate_ssl_None].
  - intros svc Hin. by destruct (Hs svc Hin) as (? & ? & _).
  - intros app Hin. by destruct (Ha app Hin) as (? & ? & _).
Qed.

Lemma Validate_accepted_units_witness :
  NoDup (Service.Name <$> Config.Services accepted_config) ∧
  NoDup (App.Name <$> Config.Apps accepted_config) ∧
  ssl_complete (Config.SSL accepted_config).
Proof.
  destruct (Validate_accepted_units accepted_config)
    as (_ & _ & _ & ? & _ & ? & ?); [vm_compute; reflexivity|done].
Defined.

(** X7. In an accepted configuration no two apps set the same subdomain, and
    no two apps set paths with the same normal form. *)
Theorem Validate_accepted_routes config :
  Validate config = None →
  NoDup (subdomains_set (Config.Apps config)) ∧
  NoDup (paths_set (Config.Apps config)).
Proof.
  intros (_ & _ & sn & _ & Ha & _)%Validate_None.
  by apply validate_apps_routes in Ha as (_ & ? & _ & ?).
Qed.

Lemma Validate_accepted_routes_witness :
  NoDup (subdomains_set (Config.Apps accepted_config)) ∧
  NoDup (paths_set (Config.Apps accepted_config)).
Proof. apply Validate_accepted_routes. vm_compute. reflexivity. Defined.

(** X8. In an accepted configuration every dependency of a service names a
    service declared at or before it, and every dependency of an app names
    a service, or an app declared at or before it. *)
Theorem Validate_accepted_dependencies config :
  Validate config = None → dependencies_in_order config.
Proof.
  intros (_ & _ & sn & Hs & Ha & _)%Validate_None.
  pose proof (validate_services_spec 0 (Config.Services config) ∅) as Hss.
  rewrite Hs in Hss. destruct Hss as (Hsn & Hsk & _).
  pose proof (validate_apps_spec sn 0 (Config.Apps config) (AppMaps ∅ ∅ ∅)) as Has.
  rewrite Ha in Has. destruct Has as (Hak & _).
  split.
  - intros j svc d Hj Hd. by apply known_empty, (Hsk j svc d).
  - intros j app d Hj Hd. destruct (Hak j app d Hj Hd) as [Hf|Hk].
    + left. by apply Hsn, known_empty in Hf.
    + right. by apply known_empty in Hk.
Qed.

Lemma Validate_accepted_dependencies_witness :
  dependencies_in_order accepted_config.
Proof. apply Validate_accepted_dependencies. vm_compute. reflexivity. Defined.

Lemma find_all_false (P : string → bool) deps :
  (∀ d, d ∈ deps → P d = false) → List.find P deps = None.
Proof.
  induction deps as [|d deps IH]; intros H; [done|]. simpl.
  rewrite (H d) by (by left). apply IH. intros ? ?. apply H. by right.
Qed.

Lemma validate_services_accepts i services m :
  (∀ svc, svc ∈ services →
     Service.Name svc ≠ "" ∧ Service.Image svc ≠ "" ∧
     flag m (Service.Name svc) = false) →
  NoDup (Service.Name <$> services) →
  service_deps_known m services →
  ∃ m', validate_services i services m = inr m'.
Proof.
  revert i m. induction services as [|svc rest IH]; intros i m Hu Hnd Hk.
  { by eexists. }
  cbn [validate_services]. simpl.
  destruct (Hu svc) as (Hn%String.eqb_neq & Him%String.eqb_neq & Hf); [by left|].
  rewrite Hn, Hf, Him.
  cbn [fmap list_fmap] in Hnd. apply NoDup_cons in Hnd as [Hfresh Hnd].
  rewrite find_all_false.
  2:{ intros d Hd. apply negb_false_iff.
      destruct (Hk 0 svc d eq_refl Hd) as [Hm|Hm]; simpl in Hm.
      - rewrite flag_insert. by case_decide.
      - apply list_elem_of_singleton in Hm as ->. by rewrite flag_insert, decide_True. }
  apply IH; [|done|].
  - intros s Hs. destruct (Hu s) as (? & ? & ?); [by right|].
    split_and!; [done..|]. rewrite flag_insert, decide_False; [done|].
    intros Heq. apply Hfresh. rewrite Heq. by apply list_elem_of_fmap_2.
  - intros j s d Hj Hd. apply known_insert. by apply (Hk (S j) s d).
Qed.

Lemma validate_apps_accepts sn i apps m :
  (∀ app, app ∈ apps →
     App.Name app ≠ "" ∧ App.Image app ≠ "" ∧
     flag (appNames m) (App.Name app) = false) →
  NoDup (App.Name <$> apps) →
  (∀ d, d ∈ subdomains_set apps → flag (subdomains m) d = false) →
  NoDup (subdomains_set apps) →
  (∀ p, p ∈ paths_set apps → flag (paths m) p = false) →
  NoDup (paths_set apps) →
  app_deps_known sn (appNames m) apps →
  validate_apps sn i apps m = None.
Proof.
  revert i m. induction apps as [|app rest IH];
    intros i m Hu Hnd Hs Hsnd Hp Hpnd Hk; [done|].
  cbn [validate_apps].
  destruct (Hu app) as (Hn%String.eqb_neq & Him%String.eqb_neq & Hf); [by left|].
  rewrite Hn, Hf, Him.
  cbn [fmap list_fmap] in Hnd. apply NoDup_cons in Hnd as [Hfresh Hnd].
  rewrite subdomains_set_cons in Hs, Hsnd. rewrite paths_set_cons in Hp, Hpnd.
  assert (List.find
            (λ dep, negb (flag sn dep) &&
                    negb (flag (<[App.Name app := true]> (appNames m)) dep))
            (App.DependsOn app) = None) as Hfind.
  { apply find_all_false. intros d Hd. apply andb_false_iff.
    destruct (Hk 0 app d eq_refl Hd) as [Hm|[Hm|Hm]]; simpl in Hm.
    - left. by rewrite Hm.
    - right. rewrite flag_insert. apply negb_false_iff. by case_decide.
    - right. apply list_elem_of_singleton in Hm as ->.
      by rewrite flag_insert, decide_True. }
  assert (∀ s, s ∈ rest →
            App.Name s ≠ "" ∧ App.Image s ≠ "" ∧
            flag (<[App.Name app := true]> (appNames m)) (App.Name s) = false)
    as Hu'.
  { intros s Hin. destruct (Hu s) as (? & ? & ?); [by right|].
    split_and!; [done..|]. rewrite flag_insert, decide_False; [done|].
    intros Heq. apply Hfresh. rewrite Heq. by apply list_elem_of_fmap_2. }
  assert (app_deps_known sn (<[App.Name app := true]> (appNames m)) rest) as Hk'.
  { intros j s d Hj Hd. destruct (Hk (S j) s d Hj Hd) as [?|?]; [by left|].
    right. by apply known_insert. }
  destruct (String.eqb (App.Subdomain app) "") eqn:Hsub;
    destruct (String.eqb (App.Path app) "") eqn:Hpath; cbn [negb andb].
  - rewrite Hfind. by apply IH.
  - apply NoDup_cons in Hpnd as [Hpf Hpnd].
    rewrite (Hp (normalizePath (App.Path app))) by (by left). rewrite Hfind.
    apply IH; cbn [appNames subdomains paths]; try done.
    intros p Hin. rewrite flag_insert, decide_False by (by intros <-).
    apply Hp. by right.
  - apply NoDup_cons in Hsnd as [Hsf Hsnd].
    rewrite (Hs (App.Subdomain app)) by (by left). rewrite Hfind.
    apply IH; cbn [appNames subdomains paths]; try done.
    intros p Hin. rewrite flag_insert, decide_False by (by intros <-).
    apply Hs. by right.
  - apply NoDup_cons in Hsnd as [Hsf Hsnd]. apply NoDup_cons in Hpnd as [Hpf Hpnd].
    rewrite (Hs (App.Subdomain app)) by (by left). cbn [negb andb].
    rewrite (Hp (normalizePath (App.Path app))) by (by left). rewrite Hfind.
    apply IH; cbn [appNames subdomains paths]; try done.
    + intros p Hin. rewrite flag_insert, decide_False by (by intros <-).
      apply Hs. by right.
    + intros p Hin. rewrite flag_insert, decide_False by (by intros <-).
      apply Hp. by right.
Qed.

Lemma validate_ssl_complete ssl : ssl_complete ssl → validate_ssl ssl = None.
Proof.
  unfold ssl_complete, validate_ssl. intros H.
  destruct (SSLConfig.Enabled ssl); [|done]. destruct (H eq_refl) as [He Hp].
  destruct (SSLConfig.SelfSigned ssl); simpl.
  - destruct (SSLConfig.DNSChallenge ssl); [|done]. simpl.
    by apply String.eqb_neq in Hp as ->.
  - apply String.eqb_neq in He as ->; [|done].
    destruct (SSLConfig.DNSChallenge ssl); [|done]. simpl.
    by apply String.eqb_neq in Hp as ->.
Qed.

(** X9. [Validate] accepts every configuration with a version and a domain,
    units with non-empty, distinct names and non-empty images, distinct
    subdomains and normal forms of paths, dependencies in declaration
    order and complete SSL settings. *)
Theorem Validate_accepts config :
  Config.Version config ≠ "" → Config.Domain config ≠ "" →
  (∀ svc, svc ∈ Config.Services config →
     Service.Name svc ≠ "" ∧ Service.Image svc ≠ "") →
  NoDup (Service.Name <$> Config.Services config) →
  (∀ app, app ∈ Config.Apps config →
     App.Name app ≠ "" ∧ App.Image app ≠ "") →
  NoDup (App.Name <$> Config.Apps config) →
  NoDup (subdomains_set (Config.Apps config)) →
  NoDup (paths_set (Config.Apps config)) →
  dependencies_in_order config →
  ssl_complete (Config.SSL config) →
  Validate config = None.
Proof.
  intros Hv%String.eqb_neq Hd%String.eqb_neq Hs Hsnd Ha Hand Hsub Hpath
         [Hsdeps Hadeps] Hssl.
  unfold Validate. rewrite Hv, Hd.
  destruct (validate_services_accepts 0 (Config.Services config) ∅)
    as [sn Hsn]; [|done| |].
  { intros svc Hin. destruct (Hs svc Hin). split_and!; [done..|apply flag_empty]. }
  { intros j svc d Hj Hin. by apply known_empty, (Hsdeps j svc d). }
  rewrite Hsn.
  pose proof (validate_services_spec 0 (Config.Services config) ∅) as Hspec.
  rewrite Hsn in Hspec. destruct Hspec as (Hflags & _).
  rewrite validate_apps_accepts; [by apply validate_ssl_complete| |done| |done| |done|].
  - intros app Hin. destruct (Ha app Hin). split_and!; [done..|apply flag_empty].
  - intros. apply flag_empty.
  - intros. apply flag_empty.
  - intros j app d Hj Hin. destruct (Hadeps j app d Hj Hin) as [?|?].
    + left. by apply Hflags, known_empty.
    + right. by apply known_empty.
Qed.

Lemma Validate_accepts_witness : Validate accepted_config = None.
Proof.
  apply Validate_accepts; try done.
  - intros svc [->|[->|?%elem_of_nil]%elem_of_cons]%elem_of_cons; done.
  - apply (bool_decide_unpack _). vm_compute. exact I.
  - intros app [->|?%elem_of_nil]%elem_of_cons; done.
  - apply (bool_decide_unpack _). vm_compute. exact I.
  - apply (bool_decide_unpack _). vm_compute. exact I.
  - apply (bool_decide_unpack _). vm_compute. exact I.
  - split.
    + intros [|[|j]] svc d Hj Hd; simplify_eq/=.
      * by apply elem_of_nil in Hd.
      * apply list_elem_of_singleton in Hd as ->. by left.
    + intros [|j] app d Hj Hd; simplify_eq/=.
      apply list_elem_of_singleton in Hd as ->. left. right. by left.
Defined.

End ValidationMore.

(** ** Path normalisation *)

Module PathMore.
Import Validation.
Import ExternalFacts.
Import Stdlib.Strings.Ascii.

(** The path with a leading slash, the first step of [normalizePath]. *)
Lemma lead_rooted p :
  ∃ r, (if HasPrefix p "/" then p else "/" +:+ p) = String "/"%char r.
Proof.
  unfold HasPrefix. destruct p as [|c r]; [by eexists|]. cbn [String.prefix].
  destruct (Ascii.ascii_dec "/"%char c) as [<-|]; [destruct r|]; eexists; reflexivity.
Qed.

Lemma substring_whole q t : String.substring 0 (String.length q) (q +:+ t) = q.
Proof.
  induction q as [|c q IH]; [by destruct t|].
  rewrite append_cons. cbn [String.length String.substring]. by rewrite IH.
Qed.

Lemma length_append q t :
  String.length (q +:+ t) = String.length q + String.length t.
Proof. induction q as [|c q IH]; [done|]. rewrite append_cons. simpl. by rewrite IH. Qed.

Lemma substring_last q : String.substring (String.length q) 1 (q +:+ "/") = "/".
Proof. induction q as [|c q IH]; [done|]. rewrite append_cons. simpl. by rewrite IH. Qed.

Lemma HasSuffix_slash q : HasSuffix (q +:+ "/") "/" = true.
Proof.
  unfold HasSuffix. rewrite length_append. cbn [String.length].
  replace (String.length q + 1 - 1) with (String.length q) by lia.
  rewrite substring_last. rewrite Nat.add_1_r. reflexivity.
Qed.

Lemma HasSuffix_cons c r : r ≠ "" → HasSuffix (String c r) "/" = HasSuffix r "/".
Proof.
  intros Hr. unfold HasSuffix. destruct r as [|c' r']; [done|].
  cbn [String.length]. simpl Nat.sub. rewrite Nat.sub_0_r. reflexivity.
Qed.

Lemma HasPrefix_rooted r : HasPrefix (String "/"%char r) "/" = true.
Proof. by destruct r. Qed.

(** X10. The result of [normalizePath] starts with a slash. *)
Theorem normalizePath_rooted p : HasPrefix (normalizePath p) "/" = true.
Proof.
  unfold normalizePath. destruct (lead_rooted p) as [r ->].
  destruct (negb (String.eqb (String "/"%char r) "/") && HasSuffix (String "/"%char r) "/")
    eqn:E; [|apply HasPrefix_rooted].
  apply andb_true_iff in E as [E _]. apply negb_true_iff, String.eqb_neq in E.
  destruct r as [|c r]; [done|]. cbn [String.length Nat.sub String.substring].
  apply HasPrefix_rooted.
Qed.

(** X11. [normalizePath] gives the same result with or without a leading slash,
    and with or without one trailing slash. *)
Theorem normalizePath_slashes p :
  (HasPrefix p "/" = false → normalizePath ("/" +:+ p) = normalizePath p) ∧
  (HasSuffix p "/" = false → normalizePath (p +:+ "/") = normalizePath p).
Proof.
  split.
  - intros H. unfold normalizePath. rewrite H.
    change ("/" +:+ p) with (String "/"%char p). by rewrite HasPrefix_rooted.
  - intros H. destruct p as [|c r]; [reflexivity|].
    assert (∀ q, q ≠ "" → HasSuffix q "/" = false →
              (if negb (String.eqb (q +:+ "/") "/") && HasSuffix (q +:+ "/") "/"
               then String.substring 0 (String.length (q +:+ "/") - 1) (q +:+ "/")
               else q +:+ "/") =
              (if negb (String.eqb q "/") && HasSuffix q "/"
               then String.substring 0 (String.length q - 1) q else q)) as Htrim.
    { intros q Hq Hs. rewrite Hs, andb_false_r, HasSuffix_slash, andb_true_r.
      assert (String.eqb (q +:+ "/") "/" = false) as ->.
      { apply String.eqb_neq. destruct q as [|a [|b q]]; done. }
      cbn [negb]. rewrite length_append. simpl String.length.
      replace (String.length q + 1 - 1) with (String.length q) by lia.
      apply substring_whole. }
    unfold normalizePath.
    assert (HasPrefix (String c r +:+ "/") "/" = HasPrefix (String c r) "/") as ->.
    { rewrite append_cons. unfold HasPrefix. cbn [String.prefix].
      destruct (Ascii.ascii_dec "/"%char c); [by destruct r|done]. }
    destruct (HasPrefix (String c r) "/").
    + by apply Htrim.
    + change ("/" +:+ (String c r +:+ "/")) with (("/" +:+ String c r) +:+ "/").
      apply Htrim; [done|].
      change ("/" +:+ String c r) with (String "/"%char (String c r)).
      by rewrite HasSuffix_cons.
Qed.

Lemma normalizePath_slashes_witness :
  normalizePath ("/" +:+ "api") = normalizePath "api" ∧
  normalizePath ("api" +:+ "/") = normalizePath "api".
Proof.
  split.
  - apply (proj1 (normalizePath_slashes "api")). reflexivity.
  - apply (proj2 (normalizePath_slashes "api")). reflexivity.
Defined.

End PathMore.

(** ** More on the health gate *)

Module HealthMore.
Import Health.
Import HealthSpec.
Import HealthFacts.

(** The gate up to its loop: nothing, or the wait for the start period. *)
Lemma Check_start w ctx name options s :
  (Check w ctx name options s =
     attempts w ctx options (Z.to_nat (CheckOptions.Retries options)) 0 None s) ∨
  (∃ s1, log s1 = log s ++ [EvWait (CheckOptions.StartPeriod options) true] ∧
         Check w ctx name options s =
         attempts w ctx options (Z.to_nat (CheckOptions.Retries options)) 0 None s1) ∨
  (∃ s1, log s1 = log s ++ [EvWait (CheckOptions.StartPeriod options) false] ∧
         Check w ctx name options s = (Fail (Context.err ctx), s1)).
Proof.
  unfold Check, bind.
  destruct (0 <? CheckOptions.StartPeriod options)%Z; [|by left].
  destruct (wait_run w ctx (CheckOptions.StartPeriod options) s)
    as (fired & s1 & -> & Hlog).
  destruct fired; right; [left|right]; by exists s1.
Qed.

(** X12. With no retries configured the gate probes nothing and fails: with the
    error of the context when the wait for the start period is cut short,
    and otherwise with an error that wraps no cause. *)
Theorem Check_without_retries w ctx name options s :
  (CheckOptions.Retries options ≤ 0)%Z →
  ∃ e s' start,
    Check w ctx name options s = (Fail e, s') ∧
    log s' = log s ++ start ∧
    ((start = [] ∧ e = health_check_failed None) ∨
     (start = [EvWait (CheckOptions.StartPeriod options) true] ∧
      e = health_check_failed None) ∨
     (start = [EvWait (CheckOptions.StartPeriod options) false] ∧
      e = Context.err ctx)).
Proof.
  intros Hr.
  assert (Z.to_nat (CheckOptions.Retries options) = 0) as Hn by lia.
  destruct (Check_start w ctx name options s)
    as [->|[(s1 & Hlog & ->)|(s1 & Hlog & ->)]]; rewrite ?Hn; cbn [attempts].
  - exists (health_check_failed None), s, []. rewrite app_nil_r. auto.
  - eexists _, s1, _. split_and!; [done..|]. auto.
  - eexists _, s1, _. split_and!; [done..|]. auto.
Qed.

Lemma Check_without_retries_witness :
  ∃ e s' start,
    Check refusing Context.Background "db" (tcp_options 0) (Proc 0 []) = (Fail e, s') ∧
    log s' = [] ++ start ∧
    ((start = [] ∧ e = health_check_failed None) ∨
     (start = [EvWait 0 true] ∧ e = health_check_failed None) ∨
     (start = [EvWait 0 false] ∧ e = Context.err Context.Background)).
Proof.
  apply (Check_without_retries refusing Context.Background "db" (tcp_options 0)
           (Proc 0 [])).
  simpl. lia.
Defined.

(** X13. A health check of a type other than http and tcp makes the gate fail
    before any probe, once the start period is over, as long as a retry is
    configured. *)
Theorem Check_unsupported_type w ctx name options s :
  CheckOptions.Type_ options ≠ "http" →
  CheckOptions.Type_ options ≠ "tcp" →
  (0 < CheckOptions.Retries options)%Z →
  ∃ e s' start,
    Check w ctx name options s = (Fail e, s') ∧
    log s' = log s ++ start ∧
    ((start = [] ∧ e = unsupported_type (CheckOptions.Type_ options)) ∨
     (start = [EvWait (CheckOptions.StartPeriod options) true] ∧
      e = unsupported_type (CheckOptions.Type_ options)) ∨
     (start = [EvWait (CheckOptions.StartPeriod options) false] ∧
      e = Context.err ctx)).
Proof.
  intros Hh%String.eqb_neq Ht%String.eqb_neq Hr.
  destruct (Z.to_nat (CheckOptions.Retries options)) as [|n] eqn:Hn; [lia|].
  assert (∀ s1, attempts w ctx options (S n) 0 None s1 =
                (Fail (unsupported_type (CheckOptions.Type_ options)), s1)) as Hrun.
  { intros s1. cbn [attempts]. unfold bind, probe. simpl. by rewrite Hh, Ht. }
  destruct (Check_start w ctx name options s)
    as [->|[(s1 & Hlog & ->)|(s1 & Hlog & ->)]]; rewrite ?Hn, ?Hrun.
  - eexists _, s, []. rewrite app_nil_r. auto.
  - eexists _, s1, _. split_and!; [done..|]. auto.
  - eexists _, s1, _. split_and!; [done..|]. auto.
Qed.

Lemma Check_unsupported_type_witness :
  ∃ e s' start,
    Check refusing Context.Background "db"
      (CheckOptions.mk "exec" "db" 0 "" 0 0 3 0) (Proc 0 []) = (Fail e, s') ∧
    log s' = [] ++ start ∧
    ((start = [] ∧ e = unsupported_type "exec") ∨
     (start = [EvWait 0 true] ∧ e = unsupported_type "exec") ∨
     (start = [EvWait 0 false] ∧ e = Context.err Context.Background)).
Proof.
  apply (Check_unsupported_type refusing Context.Background "db"
           (CheckOptions.mk "exec" "db" 0 "" 0 0 3 0) (Proc 0 [])); [done..|].
  simpl. lia.
Defined.

End HealthMore.

(** ** More on the external verifier *)

Module ExternalMore.
Import External.
Import ExternalSpec.
Import ExternalFacts.
Import BackoffSpec.
Import HealthSpec.



(** X15. On a context that is already done, [VerifyExternalAccess] makes no
    request: with no apps it returns without an error, and otherwise it
    fails with the error of the context, wrapped for the first app. *)
Theorem VerifyExternalAccess_on_done_context w config ctx s :
  Context.is_done ctx (now s) = true →
  VerifyExternalAccess w config ctx s =
  match Config.Apps config with
  | [] => (Return tt, s)
  | app :: _ =>
      (Fail (Wrap ("external verification failed for app " +:+ App.Name app +:+
                   " at " +:+ app_url config app)
                  (Context.err ctx)), s)
  end.
Proof.
  intros Hdone. unfold VerifyExternalAccess.
  destruct (Config.Apps config) as [|app rest]; [done|].
  cbn [for_each]. unfold bind at 1. unfold verify_app. unfold bind at 1.
  unfold wrapf at 1. unfold checkEndpoint. change (S (Z.to_nat 5)) with 6.
  cbn [endpoint_loop]. change (1 <=? 5)%Z with true. cbv iota.
  unfold bind at 1. unfold poll. by rewrite Hdone.
Qed.

Lemma VerifyExternalAccess_on_done_context_witness :
  VerifyExternalAccess refusing ManagerSpec.example_config
    (Context.mk (Some 0%Z) Canceled) (Proc 0 []) =
  (Fail (Wrap "external verification failed for app A1 at http://example.com"
              Canceled), Proc 0 []).
Proof.
  apply (VerifyExternalAccess_on_done_context refusing ManagerSpec.example_config
           (Context.mk (Some 0%Z) Canceled) (Proc 0 [])).
  reflexivity.
Defined.

End ExternalMore.

(** ** More on the registry, deployment and rollback *)

Module ManagerMore.
Import Dependencies.
Import Manager.
Import HealthSpec.
Import ManagerSpec.
Import DependenciesSpec.
Import DependenciesFacts.
Import HealthFacts.
Import ManagerFacts.
Import RegistrySpec.
Import HealthMore.
Import ResolverMore.

(** *** What the resolvers return *)

Section covers.
Context {A : Type} (name : A → string) (deps : A → list string).

Lemma unit_graph_name units : ∀ i m d k,
  k ∈ name <$> units →
  ∃ j v, (unit_graph name deps i units m d).1 !! k = Some (i + j) ∧
         units !! j = Some v ∧ name v = k.
Proof.
  induction units as [|u rest IH]; intros i m d k Hk; [by apply elem_of_nil in Hk|].
  cbn [unit_graph].
  destruct (decide (k ∈ name <$> rest)) as [Hin|Hout].
  - destruct (IH (S i) (<[name u := i]> m) (<[name u := deps u]> d) k Hin)
      as (j & v & Hl & Hj & Hv).
    exists (S j), v. rewrite Hl. split_and!; [f_equal; lia|done..].
  - destruct (unit_graph_other name deps (S i) rest (<[name u := i]> m)
                (<[name u := deps u]> d) k Hout) as [Hl _].
    cbn [fmap list_fmap] in Hk. apply elem_of_cons in Hk as [->|?]; [|done].
    exists 0, u. rewrite Hl, lookup_insert_eq. split_and!; [f_equal; lia|done..].
Qed.

(** A resolver returns units of its input, and a unit for every name of
    the input. *)
Lemma resolve_units_covers units result :
  resolve_units name deps units = Return result →
  (∀ u, u ∈ result → u ∈ units) ∧
  (∀ u, u ∈ units → name u ∈ name <$> result).
Proof.
  unfold resolve_units.
  destruct (unit_graph name deps 0 units ∅ ∅) as [nameToIndex dependencies] eqn:Hg.
  destruct (resolveDependencyOrder (name <$> units) dependencies)
    as [sorted| | |] eqn:Hr; [|done..].
  intros Hp. apply pick_omap in Hp as ->. split.
  - intros u (n & _ & Hu)%list_elem_of_omap. by eapply list_elem_of_lookup_2.
  - intros u Hu.
    apply resolveDependencyOrder_Return in Hr as (_ & Hnames & _).
    assert (name u ∈ name <$> units) as Hn by (by apply list_elem_of_fmap_2).
    destruct (unit_graph_name units 0 ∅ ∅ (name u) Hn) as (j & v & Hl & Hj & Hv).
    rewrite Hg in Hl. simpl in Hl.
    apply list_elem_of_fmap. exists v. split; [done|].
    apply list_elem_of_omap. exists (name u). split; [by apply Hnames|].
    unfold index_at. by rewrite Hl.
Qed.

End covers.

(** *** The health gate always ends *)

Lemma Check_settled w ctx name options s :
  settled (Health.Check w ctx name options s).1.
Proof.
  assert (∀ s1, settled (Health.attempts w ctx options
                           (Z.to_nat (Health.CheckOptions.Retries options)) 0 None s1).1)
    as Hloop.
  { intros s1.
    destruct (attempts_run w ctx options
                (Z.to_nat (Health.CheckOptions.Retries options)) 0 None s1)
      as (body & r & s' & -> & _ & _ & fails & Hr); [lia|].
    by destruct r. }
  destruct (Check_start w ctx name options s)
    as [->|[(s1 & _ & ->)|(s1 & _ & ->)]]; [apply Hloop..|done].
Qed.

Lemma performHealthCheck_settled w ctx name hc st :
  settled (performHealthCheck w ctx name hc st).1.
Proof.
  unfold performHealthCheck, lift.
  match goal with |- context [Health.Check w ctx name ?o ?s] =>
    pose proof (Check_settled w ctx name o s) as H;
    destruct (Health.Check w ctx name o s) as [r s']
  end.
  done.
Qed.

(** *** Registries that grow *)

Lemma extends_refl names D : extends names D D.
Proof. split_and!; [done|by left|done]. Qed.

Lemma extends_trans names1 names2 names D1 D2 D3 :
  (∀ k, k ∈ names1 → k ∈ names) → (∀ k, k ∈ names2 → k ∈ names) →
  extends names1 D1 D2 → extends names2 D2 D3 → extends names D1 D3.
Proof.
  intros H1 H2 (Hs1 & Hk1 & Hw1) (Hs2 & Hk2 & Hw2). split_and!.
  - by etrans.
  - intros k [?|?]%Hk2; [|by right; apply H2].
    destruct (Hk1 k) as [?|?]; [done|by left|by right; apply H1].
  - auto.
Qed.

Lemma extends_insert name record (D : gmap string Deployment.t) :
  D !! name = None → Deployment.Name record = name →
  extends [name] D (<[name := record]> D).
Proof.
  intros Hnone Hname. split_and!.
  - by apply insert_subseteq.
  - intros k. destruct (decide (name = k)) as [->|].
    + right. by left.
    + rewrite lookup_insert_ne by done. by left.
  - intros Hwk k d. destruct (decide (name = k)) as [->|].
    + rewrite lookup_insert_eq. by intros [= <-].
    + rewrite lookup_insert_ne by done. apply Hwk.
Qed.

(** *** One round of a deployment loop *)

Lemma guarded_run w ctx name dependencies hc missing wrap deploy st :
  gate_after_registration w ctx name hc st (deploy st).1 (deploy st).2 →
  step_ok name dependencies st
    (guarded name dependencies missing wrap deploy st).1
    (guarded name dependencies missing wrap deploy st).2.
Proof.
  intros Hgate. unfold guarded, bind, get_deployments.
  destruct (bool_decide (is_Some (deployments st !! name))) eqn:Hreg.
  { apply bool_decide_eq_true in Hreg. split_and!; [done|apply extends_refl|done|].
    intros Hnone. rewrite Hnone in Hreg. by destruct Hreg. }
  apply bool_decide_eq_false in Hreg.
  assert (deployments st !! name = None) as Hnone.
  { destruct (deployments st !! name) eqn:E; [|done]. by destruct Hreg. }
  destruct (areDependenciesDeployed (deployments st) dependencies) eqn:Hdeps;
    cbn [negb].
  2:{ split_and!; [done|apply extends_refl|done|]. intros _ _. by eexists. }
  unfold wrapf, step_ok. destruct (deploy st) as [r st'].
  cbn [fst snd] in Hgate.
  destruct Hgate as [(HD & msg & e & -> & _)
                    |(record & Hname & HD & [[_ ->]|(_ & p1 & r0 & Hrun & ->)])].
  - cbn [fst snd]. rewrite HD.
    split_and!; [done|apply extends_refl|done|intros _ ?; congruence].
  - cbn [fst snd]. rewrite HD.
    split_and!; [done|by apply extends_insert| |intros _ ?; congruence].
    intros _. by rewrite lookup_insert_eq.
  - pose proof (performHealthCheck_settled w ctx name hc
                  (State (deployments st') p1)) as Hs.
    rewrite Hrun in Hs. cbn [fst] in Hs.
    destruct r0 as [[]|e| |]; [| |done..]; cbn [fst snd]; rewrite HD;
      (split_and!; [done|by apply extends_insert| |intros _ ?; congruence]).
    + intros _. by rewrite lookup_insert_eq.
    + done.
Qed.

Lemma deploy_service_step_run w ctx service st :
  step_ok (Service.Name service) (Service.DependsOn service) st
    (deploy_service_step w ctx service st).1
    (deploy_service_step w ctx service st).2.
Proof.
  apply (guarded_run w ctx _ _ (Service.HealthCheck service) _ _
           (deployService w ctx service)), deployService_run.
Qed.

Lemma deploy_app_step_run w ctx app st :
  step_ok (App.Name app) (App.DependsOn app) st
    (deploy_app_step w ctx app st).1 (deploy_app_step w ctx app st).2.
Proof.
  apply (guarded_run w ctx _ _ (App.HealthCheck app) _ _ (deployApp w ctx app)),
    deployApp_run.
Qed.

(** *** The deployment loops *)

Section loops.
Context {A : Type} (body : A → M state unit).
Context (name : A → string) (deps : A → list string).
Hypothesis body_ok : ∀ x st, step_ok (name x) (deps x) st (body x st).1 (body x st).2.

Lemma for_each_run l : ∀ st,
  settled (for_each body l st).1 ∧
  extends (name <$> l) (deployments st) (deployments (for_each body l st).2) ∧
  ((for_each body l st).1 = Return tt →
   ∀ x, x ∈ l → is_Some (deployments (for_each body l st).2 !! name x)).
Proof.
  induction l as [|x rest IH]; intros st.
  { split_and!; [done|apply extends_refl|]. by intros _ ? ?%elem_of_nil. }
  cbn [for_each]. unfold bind.
  destruct (body_ok x st) as (Hs & Hext & Hreg & _).
  destruct (body x st) as [r st1]. cbn [fst snd] in *.
  destruct r as [[]|e| |]; [| |done..].
  - destruct (IH st1) as (Hs' & Hext' & Hreg'). split_and!; [done| |].
    + eapply extends_trans; [| |exact Hext|exact Hext'].
      * intros k ->%list_elem_of_singleton. by left.
      * intros k ?. by right.
    + intros Hr y [->|Hy]%elem_of_cons; [|by apply Hreg'].
      destruct (Hreg eq_refl) as [d Hd]. destruct Hext' as (Hsub & _).
      exists d. by eapply lookup_weaken.
  - cbn [fst snd]. split_and!; [done| |done].
    eapply extends_trans; [| |exact Hext|apply (extends_refl [])].
    + intros k ->%list_elem_of_singleton. by left.
    + by intros k ?%elem_of_nil.
Qed.

Lemma for_each_app l1 l2 st :
  for_each body (l1 ++ l2) st =
  (let* _ := for_each body l1 in for_each body l2) st.
Proof.
  revert st. induction l1 as [|x l1 IH]; intros st; [done|].
  cbn [app for_each]. unfold bind in *.
  destruct (body x st) as [[[]|e| |] st1]; [|done..]. apply IH.
Qed.

(** A unit that lists a dependency which is neither registered nor
    deployed by an earlier round stops the loop. *)
Lemma for_each_blocked l1 x l2 d st :
  deployments st !! name x = None → deployments st !! d = None →
  name x ∉ name <$> l1 → d ∉ name <$> l1 → d ∈ deps x →
  ∃ e, (for_each body (l1 ++ x :: l2) st).1 = Fail e.
Proof.
  intros Hx Hd Hx1 Hd1 Hdep. rewrite for_each_app. unfold bind.
  destruct (for_each_run l1 st) as (Hs & (_ & Hkeys & _) & _).
  destruct (for_each body l1 st) as [r st1]. cbn [fst snd] in *.
  destruct r as [[]|e| |]; [|by eexists|done..].
  cbn [for_each]. unfold bind.
  assert (∀ k, deployments st !! k = None → k ∉ name <$> l1 →
               deployments st1 !! k = None) as Hnone.
  { intros k Hk Hk1. destruct (deployments st1 !! k) eqn:E; [|done].
    destruct (Hkeys k) as [[? ?]|?]; [by eexists|congruence|done]. }
  destruct (body_ok x st1) as (_ & _ & _ & Hfail).
  destruct Hfail as [e He]; [by apply Hnone| |].
  { unfold areDependenciesDeployed. apply not_true_is_false.
    intros Hall. rewrite forallb_forall in Hall.
    specialize (Hall d (proj1 (list_elem_of_In _ _) Hdep)).
    apply bool_decide_eq_true in Hall as [? Hsome].
    by rewrite Hnone in Hsome. }
  destruct (body x st1) as [r st2]. cbn [fst] in He. subst r. by eexists.
Qed.

End loops.

Section deploy.
Variable w : World.
Variable config : Config.t.

Lemma deployServices_run ctx st :
  settled (deployServices w config ctx st).1 ∧
  extends (Service.Name <$> Config.Services config) (deployments st)
          (deployments (deployServices w config ctx st).2) ∧
  ((deployServices w config ctx st).1 = Return tt →
   ∀ k, k ∈ Service.Name <$> Config.Services config →
        is_Some (deployments (deployServices w config ctx st).2 !! k)).
Proof.
  unfold deployServices, bind, wrapf, of_outcome.
  pose proof (resolve_units_settled Service.Name Service.DependsOn
                (Config.Services config)) as Hs.
  pose proof (resolve_units_covers Service.Name Service.DependsOn
                (Config.Services config)) as Hc.
  rewrite <- resolveServiceDependencies_eq in Hs, Hc.
  destruct (resolveServiceDependencies (Config.Services config))
    as [ordered|e| |]; [| |done..].
  2:{ cbn [fst snd]. split_and!; [done|apply extends_refl|done]. }
  destruct (Hc ordered eq_refl) as [Hin Hall].
  destruct (for_each_run (deploy_service_step w ctx) Service.Name Service.DependsOn
              (deploy_service_step_run w ctx) ordered st) as (Hs' & Hext & Hreg).
  split_and!; [done| |].
  - eapply extends_trans; [| |apply (extends_refl [])|exact Hext].
    + by intros k ?%elem_of_nil.
    + intros k (u & -> & Hu)%list_elem_of_fmap. apply list_elem_of_fmap_2. by apply Hin.
  - intros Hr k (u & -> & Hu)%list_elem_of_fmap.
    destruct (proj1 (list_elem_of_fmap _ _ _) (Hall u Hu)) as (v & -> & Hv).
    by apply Hreg.
Qed.

Lemma deployApps_run ctx st :
  settled (deployApps w config ctx st).1 ∧
  extends (App.Name <$> Config.Apps config) (deployments st)
          (deployments (deployApps w config ctx st).2) ∧
  ((deployApps w config ctx st).1 = Return tt →
   ∀ k, k ∈ App.Name <$> Config.Apps config →
        is_Some (deployments (deployApps w config ctx st).2 !! k)).
Proof.
  unfold deployApps, bind, wrapf, of_outcome.
  pose proof (resolve_units_settled App.Name App.DependsOn (Config.Apps config)) as Hs.
  pose proof (resolve_units_covers App.Name App.DependsOn (Config.Apps config)) as Hc.
  rewrite <- resolveAppDependencies_eq in Hs, Hc.
  destruct (resolveAppDependencies (Config.Apps config))
    as [ordered|e| |]; [| |done..].
  2:{ cbn [fst snd]. split_and!; [done|apply extends_refl|done]. }
  destruct (Hc ordered eq_refl) as [Hin Hall].
  destruct (for_each_run (deploy_app_step w ctx) App.Name App.DependsOn
              (deploy_app_step_run w ctx) ordered st) as (Hs' & Hext & Hreg).
  split_and!; [done| |].
  - eapply extends_trans; [| |apply (extends_refl [])|exact Hext].
    + by intros k ?%elem_of_nil.
    + intros k (u & -> & Hu)%list_elem_of_fmap. apply list_elem_of_fmap_2. by apply Hin.
  - intros Hr k (u & -> & Hu)%list_elem_of_fmap.
    destruct (proj1 (list_elem_of_fmap _ _ _) (Hall u Hu)) as (v & -> & Hv).
    by apply Hreg.
Qed.

(** A call to a collaborator that can only fail or go on: the registry is
    as before. *)
Lemma setup_run (oracle : list event → option error) ev msg st :
  ∃ r p, wrapf msg (lift (let* err := call oracle ev in of_error err)) st =
         (r, State (deployments st) p) ∧ settled r.
Proof.
  unfold wrapf, lift, bind, call, of_error, ret, fail.
  destruct (oracle (log (sys st))); by eexists _, _.
Qed.

Local Abbreviation deploy_units := (RegistrySpec.deploy_units w config).

Lemma Deploy_unfold ctx D t l :
  let ctx' :=
    if (0 <? Config.Timeout config)%Z
    then Context.WithTimeout ctx t (wrap64 (Config.Timeout config * Minute))
    else ctx in
  Deploy w config ctx (State D (Proc t l)) =
  match docker_setup w l with
  | Some e =>
      (Fail (Wrap "failed to setup Docker network" e),
       State D (Proc t (l ++ [EvDockerSetup (Some e)])))
  | None =>
      if SSLConfig.Enabled (Config.SSL config) then
        match ssl_setup w (l ++ [EvDockerSetup None]) with
        | Some e =>
            (Fail (Wrap "failed to setup SSL" e),
             State D (Proc t ((l ++ [EvDockerSetup None]) ++ [EvSSLSetup (Some e)])))
        | None =>
            deploy_units ctx'
              (State D (Proc t ((l ++ [EvDockerSetup None]) ++ [EvSSLSetup None])))
        end
      else deploy_units ctx' (State D (Proc t (l ++ [EvDockerSetup None])))
  end.
Proof.
  intros ctx'. unfold Deploy, RegistrySpec.deploy_units.
  unfold bind at 1. unfold lift at 1, Now. cbn [sys now log deployments].
  fold ctx'.
  unfold bind at 1. unfold wrapf at 1, lift at 1, bind at 1, call at 1, of_error at 1.
  cbn [sys now log deployments].
  destruct (docker_setup w l) as [e|]; [done|].
  unfold ret at 1. unfold bind at 1.
  destruct (SSLConfig.Enabled (Config.SSL config)); [|done].
  unfold wrapf at 1, lift at 1, bind at 1, call at 1, of_error at 1.
  cbn [sys now log deployments].
  by destruct (ssl_setup w _) as [e|].
Qed.

Lemma Deploy_cases ctx st :
  (∃ e p, Deploy w config ctx st = (Fail e, State (deployments st) p)) ∨
  (∃ ctx' p, Deploy w config ctx st = deploy_units ctx' (State (deployments st) p)).
Proof.
  destruct st as [D [t l]]. rewrite Deploy_unfold. cbn [deployments].
  destruct (docker_setup w l) as [e|]; [left; by eexists _, _|].
  destruct (SSLConfig.Enabled (Config.SSL config)); [|right; by eexists _, _].
  destruct (ssl_setup w _) as [e|]; [left; by eexists _, _|right; by eexists _, _].
Qed.

Lemma deploy_units_run ctx st :
  settled (deploy_units ctx st).1 ∧
  extends (unit_names config) (deployments st) (deployments (deploy_units ctx st).2) ∧
  ((deploy_units ctx st).1 = Return tt →
   ∀ k, k ∈ unit_names config → is_Some (deployments (deploy_units ctx st).2 !! k)).
Proof.
  unfold RegistrySpec.deploy_units, bind, wrapf.
  destruct (deployServices_run ctx st) as (Hs & Hext & Hreg).
  destruct (deployServices w config ctx st) as [r st1]. cbn [fst snd] in *.
  assert (∀ k, k ∈ Service.Name <$> Config.Services config → k ∈ unit_names config)
    as HS by (intros k ?; apply elem_of_app; by right).
  assert (∀ k, k ∈ App.Name <$> Config.Apps config → k ∈ unit_names config)
    as HA by (intros k ?; apply elem_of_app; by left).
  destruct r as [[]|e| |]; [| |done..].
  2:{ cbn [fst snd]. split_and!; [done| |done].
      eapply extends_trans; [| |exact Hext|apply (extends_refl [])]; [exact HS|].
      by intros k ?%elem_of_nil. }
  destruct (deployApps_run ctx st1) as (Hs' & Hext' & Hreg').
  destruct (deployApps w config ctx st1) as [r st2]. cbn [fst snd] in *.
  assert (extends (unit_names config) (deployments st) (deployments st2)) as Hext2
    by (eapply extends_trans; [| |exact Hext|exact Hext']; [exact HS|exact HA]).
  destruct r as [[]|e| |]; [| |done..].
  2:{ cbn [fst snd]. by split_and!. }
  unfold lift, call, of_error, ret, fail.
  destruct (proxy_setup w (log (sys st2))); cbn [fst snd deployments];
    (split_and!; [done..|]); [done|].
  intros _ k [Hk|Hk]%elem_of_app.
  - by apply Hreg'.
  - destruct (Hreg eq_refl k Hk) as [d Hd]. destruct Hext' as (Hsub & _).
    exists d. by eapply lookup_weaken.
Qed.

Lemma Deploy_run ctx st :
  settled (Deploy w config ctx st).1 ∧
  extends (unit_names config) (deployments st) (deployments (Deploy w config ctx st).2) ∧
  ((Deploy w config ctx st).1 = Return tt →
   ∀ k, k ∈ unit_names config → is_Some (deployments (Deploy w config ctx st).2 !! k)).
Proof.
  destruct (Deploy_cases ctx st) as [(e & p & ->)|(ctx' & p & ->)].
  - cbn [fst snd deployments]. split_and!; [done|apply extends_refl|done].
  - apply (deploy_units_run ctx' (State (deployments st) p)).
Qed.

End deploy.

(** *** Rollback with a container runtime that works *)

Section working.
Variable w : World.
Variable config : Config.t.
Variable ctx : Context.t.
Hypothesis Hw : tears_down w.

Lemma cleared_lookup names : ∀ (D : gmap string Deployment.t) k,
  cleared names D !! k = if decide (k ∈ names) then None else D !! k.
Proof.
  induction names as [|n names IH]; intros D k.
  { rewrite decide_False; [done|]. by intros ?%elem_of_nil. }
  change (cleared (n :: names) D) with (cleared names (delete n D)).
  rewrite IH. destruct (decide (k ∈ names)) as [Hin|Hout].
  - rewrite decide_True; [done|]. by right.
  - destruct (decide (n = k)) as [->|Hne].
    + rewrite lookup_delete_eq, decide_True; [done|]. by left.
    + rewrite lookup_delete_ne by done. rewrite decide_False; [done|].
      intros [?|?]%elem_of_cons; by simplify_eq.
Qed.

Lemma rollback_loop_working names : ∀ errors st,
  well_keyed (deployments st) →
  ∃ p, for_fold (rollback_step w ctx) names errors st =
       (Return errors, State (cleared names (deployments st)) p).
Proof.
  destruct Hw as [Hstop Hremove].
  induction names as [|n names IH]; intros errors st Hwk.
  { exists (sys st). by destruct st. }
  cbn [for_fold]. unfold bind at 1. unfold rollback_step at 1.
  unfold bind at 1. unfold get_deployments at 1.
  destruct (deployments st !! n) as [d|] eqn:Hd.
  - unfold bind at 1, catch at 1. rewrite rollbackDeployment_run, Hstop, Hremove.
    unfold ret at 1. rewrite (Hwk n d Hd).
    edestruct (IH errors) as [p ->].
    { cbn [deployments]. intros k d'. destruct (decide (n = k)) as [->|].
      - by rewrite lookup_delete_eq.
      - rewrite lookup_delete_ne by done. apply Hwk. }
    by exists p.
  - unfold ret at 1. destruct (IH errors st Hwk) as [p ->]. exists p.
    simpl. by rewrite (delete_id _ _ Hd).
Qed.

Lemma Rollback_working st :
  well_keyed (deployments st) →
  ∃ p, Rollback w config ctx st =
       (Return tt, State (cleared (rollback_order config) (deployments st)) p).
Proof.
  intros Hwk. unfold Rollback. unfold bind at 1. unfold lift at 1, call at 1.
  cbn [fst snd].
  match goal with |- context [State (deployments st) ?p] =>
    set (st1 := State (deployments st) p)
  end.
  destruct (rollback_loop_working (rollback_order config) [] st1 Hwk) as [p Hrun].
  unfold rollback_order in Hrun at 1. rewrite for_fold_app in Hrun.
  unfold bind in Hrun. unfold bind at 1.
  destruct (for_fold (rollback_step w ctx) (App.Name <$> Config.Apps config) [] st1)
    as [[errsA| | |] stA]; [|done..].
  unfold bind at 1. rewrite Hrun. by exists p.
Qed.

End working.

(** X16. When the container runtime stops and removes every container,
    [Rollback] returns without an error and removes from a well-keyed
    registry exactly the records of the units of the configuration. *)
Theorem Rollback_removes_the_units w config ctx st :
  tears_down w →
  well_keyed (deployments st) →
  ∃ st', Rollback w config ctx st = (Return tt, st') ∧
         ∀ k, deployments st' !! k =
              if decide (k ∈ unit_names config) then None else deployments st !! k.
Proof.
  intros Hw Hwk. destruct (Rollback_working w config ctx Hw st Hwk) as [p ->].
  eexists. split; [done|]. intros k. cbn [deployments]. rewrite cleared_lookup.
  destruct (decide (k ∈ rollback_order config)) as [Hin|Hout].
  - rewrite decide_True; [done|]. by apply rollback_order_elem.
  - rewrite decide_False; [done|]. by rewrite <- rollback_order_elem.
Qed.

Lemma refusing_tears_down : tears_down refusing.
Proof. by split. Qed.

Lemma Rollback_removes_the_units_witness :
  ∃ st', Rollback refusing example_config Context.Background
           (State example_registry (Proc 0 [])) = (Return tt, st') ∧
         ∀ k, deployments st' !! k =
              if decide (k ∈ unit_names example_config) then None
              else example_registry !! k.
Proof.
  apply (Rollback_removes_the_units refusing example_config Context.Background
           (State example_registry (Proc 0 []))).
  - exact refusing_tears_down.
  - exact example_registry_well_keyed.
Defined.

(** X17. Whatever [Deploy] did on an empty registry, a [Rollback] with a
    container runtime that stops and removes every container returns
    without an error and leaves the registry empty. *)
Theorem Rollback_after_Deploy_empties w config ctx ctx' st :
  tears_down w →
  deployments st = ∅ →
  ∃ st', Rollback w config ctx' (Deploy w config ctx st).2 = (Return tt, st') ∧
         deployments st' = ∅.
Proof.
  intros Hw Hempty.
  destruct (Deploy_run w config ctx st) as (_ & (_ & Hkeys & Hwk) & _).
  rewrite Hempty in Hkeys, Hwk.
  assert (well_keyed (deployments (Deploy w config ctx st).2)) as Hwk'.
  { apply Hwk. intros k d. by rewrite lookup_empty. }
  destruct (Rollback_working w config ctx' Hw _ Hwk') as [p ->].
  eexists. split; [done|]. cbn [deployments]. apply map_empty. intros k.
  rewrite cleared_lookup.
  destruct (decide (k ∈ rollback_order config)) as [Hin|Hout]; [done|].
  destruct (deployments (Deploy w config ctx st).2 !! k) eqn:E; [|done].
  destruct (Hkeys k) as [[? Hk]|Hk]; [by eexists|by rewrite lookup_empty in Hk|].
  by apply rollback_order_elem in Hk.
Qed.

Lemma Rollback_after_Deploy_empties_witness :
  ∃ st', Rollback refusing (config_of [] [checked_app "A1"]) Context.Background
           (Deploy refusing (config_of [] [checked_app "A1"]) Context.Background
                   (State ∅ (Proc 0 []))).2 = (Return tt, st') ∧
         deployments st' = ∅.
Proof.
  apply (Rollback_after_Deploy_empties refusing (config_of [] [checked_app "A1"])
           Context.Background Context.Background (State ∅ (Proc 0 []))).
  - exact refusing_tears_down.
  - reflexivity.
Defined.

(** *** The registry during [Deploy] *)

(** X18. [Deploy] keeps every record that the registry holds, adds only
    records of units of the configuration, and keeps a well-keyed
    registry well keyed. *)
Theorem Deploy_keeps_the_registry w config ctx st :
  well_keyed (deployments st) →
  deployments st ⊆ deployments (Deploy w config ctx st).2 ∧
  well_keyed (deployments (Deploy w config ctx st).2) ∧
  ∀ k, is_Some (deployments (Deploy w config ctx st).2 !! k) →
       is_Some (deployments st !! k) ∨ k ∈ unit_names config.
Proof.
  intros Hwk. destruct (Deploy_run w config ctx st) as (_ & (? & ? & ?) & _). auto.
Qed.

Lemma Deploy_keeps_the_registry_witness :
  well_keyed (deployments (Deploy refusing example_config Context.Background
                                  (State example_registry (Proc 0 []))).2).
Proof.
  apply (Deploy_keeps_the_registry refusing example_config Context.Background
           (State example_registry (Proc 0 []))).
  exact example_registry_well_keyed.
Defined.

(** X19. When [Deploy] returns without an error, the registry holds a record
    for every unit of the configuration. *)
Theorem Deploy_success_registers_all w config ctx st st' :
  Deploy w config ctx st = (Return tt, st') →
  ∀ k, k ∈ unit_names config → is_Some (deployments st' !! k).
Proof.
  intros Hrun. destruct (Deploy_run w config ctx st) as (_ & _ & Hall).
  rewrite Hrun in Hall. by apply Hall.
Qed.

Lemma Deploy_success_registers_all_witness :
  is_Some (deployments
             (Deploy refusing example_config Context.Background
                     (State ∅ (Proc 0 []))).2 !! "S1").
Proof.
  apply (Deploy_success_registers_all refusing example_config Context.Background
           (State ∅ (Proc 0 []))).
  - vm_compute. reflexivity.
  - right. by left.
Defined.

(** *** Rollback: order and the empty registry *)

(** X20. [Rollback] tears down the registered apps in their declared order and
    then the registered services in the reverse of their declared order. *)
Theorem Rollback_teardown_order w config ctx st :
  NoDup (unit_names config) →
  well_keyed (deployments st) →
  ∃ cleanup new r st',
    Rollback w config ctx st = (r, st') ∧
    log (sys st') = log (sys st) ++ EvProxyCleanup cleanup :: new ∧
    attempted new =
    Deployment.ContainerID <$>
      (registered (deployments st) (App.Name <$> Config.Apps config) ++
       registered (deployments st)
         (Service.Name <$> reverse (Config.Services config))).
Proof.
  intros Hnd Hwk.
  destruct (Rollback_run w config ctx st Hnd Hwk)
    as (cleanup & errs & new & D' & -> & Hatt & _).
  eexists cleanup, new, _, _. split_and!; [done..|].
  rewrite Hatt. unfold rollback_order, registered, reverseServices.
  by rewrite omap_app.
Qed.

Lemma Rollback_teardown_order_witness :
  ∃ cleanup new r st',
    Rollback stuck example_config Context.Background
      (State example_registry (Proc 0 [])) = (r, st') ∧
    log (sys st') = [] ++ EvProxyCleanup cleanup :: new ∧
    attempted new =
    Deployment.ContainerID <$>
      (registered example_registry (App.Name <$> Config.Apps example_config) ++
       registered example_registry
         (Service.Name <$> reverse (Config.Services example_config))).
Proof.
  apply (Rollback_teardown_order stuck example_config Context.Background
           (State example_registry (Proc 0 []))).
  - exact example_units_NoDup.
  - exact example_registry_well_keyed.
Defined.

Lemma rollback_loop_empty w ctx names : ∀ errors p,
  for_fold (rollback_step w ctx) names errors (State ∅ p) =
  (Return errors, State ∅ p).
Proof.
  induction names as [|n names IH]; intros errors p; [done|].
  cbn [for_fold]. unfold bind at 1. unfold rollback_step at 1.
  unfold bind at 1. unfold get_deployments at 1. cbn [deployments].
  rewrite lookup_empty. unfold ret at 1. apply IH.
Qed.

(** X21. On an empty registry [Rollback] only cleans up the proxy, whose
    failure it does not report, and returns without an error. *)
Theorem Rollback_nothing_registered w config ctx p :
  Rollback w config ctx (State ∅ p) =
  (Return tt,
   State ∅ (Proc (now p) (log p ++ [EvProxyCleanup (proxy_cleanup w (log p))]))).
Proof.
  unfold Rollback. unfold bind at 1. unfold lift at 1, call at 1. cbn [fst snd sys deployments].
  unfold bind at 1. rewrite rollback_loop_empty.
  unfold bind at 1. rewrite rollback_loop_empty. reflexivity.
Qed.

End ManagerMore.

(** ** Accepted configurations, resolved and deployed *)

Module AcceptedMore.
Import Validation.
Import Dependencies.
Import Manager.
Import DependenciesSpec.
Import ValidationSpec.
Import ManagerSpec.
Import MoreSpec.
Import HealthSpec.
Import RegistrySpec.
Import DependenciesFacts.
Import ValidationFacts.
Import ResolverMore.
Import ValidationMore.
Import HealthMore.
Import ManagerMore.

(** A unit that lists itself makes the resolver fail. *)
Lemma resolve_units_self_cycle {A} (name : A → string) (deps : A → list string)
    units u :
  NoDup (name <$> units) → u ∈ units → name u ∈ deps u →
  ∃ n, resolve_units name deps units = Fail (cycle_error n).
Proof.
  intros Hnd Hin Hself. unfold resolve_units.
  destruct (unit_graph name deps 0 units ∅ ∅) as [nameToIndex dependencies] eqn:Hg.
  apply list_elem_of_lookup in Hin as [j Hj].
  destruct (unit_graph_lookup name deps 0 units ∅ ∅ j u Hnd Hj) as [_ Hd].
  rewrite Hg in Hd. simpl in Hd.
  assert (edge dependencies (name u) (name u)) as Hedge.
  { unfold edge, slice_at. by rewrite Hd. }
  destruct (resolveDependencyOrder_cyclic (name <$> units) dependencies
              (name u) (name u)) as (n & -> & _).
  - apply list_elem_of_fmap. exists u. split; [done|]. by eapply list_elem_of_lookup_2.
  - done.
  - by apply tc_once.
  - by exists n.
Qed.

(** What [Validate] has checked of the services that it accepts. *)
Lemma accepted_services config :
  Validate config = None →
  NoDup (Service.Name <$> Config.Services config) ∧
  ∀ j svc d, Config.Services config !! j = Some svc →
             d ∈ Service.DependsOn svc →
             d ∈ Service.Name <$> take (S j) (Config.Services config).
Proof.
  intros (_ & _ & sn & Hs & _)%Validate_None.
  pose proof (validate_services_spec 0 (Config.Services config) ∅) as Hspec.
  rewrite Hs in Hspec. destruct Hspec as (_ & Hk & _).
  apply validate_services_units in Hs as [_ Hnd]. split; [done|].
  intros j svc d Hj Hd. by apply known_empty, (Hk j svc d).
Qed.

Lemma accepted_services_earlier config j svc d :
  Validate config = None →
  Config.Services config !! j = Some svc → d ∈ Service.DependsOn svc →
  d ≠ Service.Name svc →
  d ∈ Service.Name <$> take j (Config.Services config).
Proof.
  intros [_ Hk]%accepted_services Hj Hd Hne.
  specialize (Hk j svc d Hj Hd).
  rewrite (take_S_r _ _ _ Hj), fmap_app, elem_of_app in Hk.
  destruct Hk as [?|Hk]; [done|]. by apply list_elem_of_singleton in Hk.
Qed.

(** X22. For an accepted configuration in which no service lists itself as a
    dependency, the service resolver returns the services in the reverse
    of their declared order. *)
Theorem accepted_services_resolve_reversed config :
  Validate config = None →
  (∀ svc, svc ∈ Config.Services config →
     Service.Name svc ∉ Service.DependsOn svc) →
  resolveServiceDependencies (Config.Services config) =
  Return (reverse (Config.Services config)).
Proof.
  intros Hv Hself. destruct (accepted_services config Hv) as [Hnd _].
  rewrite resolveServiceDependencies_eq.
  apply resolve_units_declared_order; [done|].
  intros j svc d Hj Hd. apply (accepted_services_earlier config j svc d); try done.
  intros ->. destruct (Hself svc); [|done]. by eapply list_elem_of_lookup_2.
Qed.

Lemma accepted_services_resolve_reversed_witness :
  resolveServiceDependencies (Config.Services accepted_config) =
  Return (reverse (Config.Services accepted_config)).
Proof.
  apply accepted_services_resolve_reversed; [vm_compute; reflexivity|].
  intros svc [->|[->|?%elem_of_nil]%elem_of_cons]%elem_of_cons; [| |done].
  - by intros ?%elem_of_nil.
  - by intros [=]%list_elem_of_singleton.
Defined.

(** X23. [Validate] lets a service list itself as a dependency; the service
    resolver then fails with the error of a circular dependency. *)
Theorem accepted_self_dependency_is_a_cycle config svc :
  Validate config = None →
  svc ∈ Config.Services config →
  Service.Name svc ∈ Service.DependsOn svc →
  ∃ n, resolveServiceDependencies (Config.Services config) =
       Fail (cycle_error n).
Proof.
  intros [Hnd _]%accepted_services Hin Hself.
  rewrite resolveServiceDependencies_eq.
  by apply (resolve_units_self_cycle _ _ _ svc).
Qed.

Lemma accepted_self_dependency_is_a_cycle_witness :
  ∃ n, resolveServiceDependencies [service_of "S1" ["S1"]] = Fail (cycle_error n).
Proof.
  apply (accepted_self_dependency_is_a_cycle
           (Config.mk "1.0" "example.com" (SSLConfig.mk false "" "" false false "" ∅)
              (ProxyConfig.mk "" 0 0) [service_of "S1" ["S1"]] [] ∅ 0 "")
           (service_of "S1" ["S1"])).
  - vm_compute. reflexivity.
  - by left.
  - by left.
Defined.

(** In an accepted configuration a service with a dependency stops the
    loop of [deployServices] on an empty registry. *)
Lemma deployServices_blocked w config ctx st svc d :
  Validate config = None →
  svc ∈ Config.Services config → d ∈ Service.DependsOn svc →
  deployments st = ∅ →
  ∃ e, (deployServices w config ctx st).1 = Fail e.
Proof.
  intros Hv Hin Hd Hempty. pose proof (accepted_services config Hv) as [Hnd _].
  unfold deployServices. unfold bind at 1. unfold wrapf at 1, of_outcome at 1.
  destruct (decide (Exists (λ s, Service.Name s ∈ Service.DependsOn s)
                      (Config.Services config))) as [Hex|Hall].
  { apply Exists_exists in Hex as (s & Hs & Hself).
    destruct (resolve_units_self_cycle Service.Name Service.DependsOn
                (Config.Services config) s Hnd Hs Hself) as [n Hn].
    rewrite resolveServiceDependencies_eq, Hn. by eexists. }
  assert (∀ s, s ∈ Config.Services config →
               Service.Name s ∉ Service.DependsOn s) as Hself.
  { intros s Hs ?. apply Hall, Exists_exists. by exists s. }
  pose proof (resolve_units_declared_order Service.Name Service.DependsOn
                (Config.Services config) Hnd) as Hrev.
  rewrite resolveServiceDependencies_eq, Hrev.
  2:{ intros j s x Hj Hx. apply (accepted_services_earlier config j s x); try done.
      intros ->. destruct (Hself s); [|done]. by eapply list_elem_of_lookup_2. }
  assert (svc ∈ reverse (Config.Services config)) as Hin'
    by (by rewrite elem_of_reverse).
  apply list_elem_of_split in Hin' as (l1 & l2 & Hsplit).
  assert (Config.Services config = reverse l2 ++ svc :: reverse l1) as Hsvcs.
  { rewrite <- (reverse_involutive (Config.Services config)), Hsplit.
    by rewrite reverse_app, reverse_cons, <- app_assoc. }
  assert (NoDup (Service.Name <$> (l1 ++ svc :: l2))) as Hnd'.
  { rewrite <- Hsplit, fmap_reverse. by apply NoDup_reverse. }
  rewrite fmap_app, fmap_cons in Hnd'.
  apply NoDup_app in Hnd' as (_ & Hdisj & _).
  assert (Config.Services config !! length (reverse l2) = Some svc) as Hj.
  { rewrite Hsvcs. by apply list_lookup_middle. }
  assert (d ≠ Service.Name svc) as Hne.
  { intros ->. by destruct (Hself svc). }
  pose proof (accepted_services_earlier config _ svc d Hv Hj Hd Hne) as Hearlier.
  rewrite Hsvcs, take_app_length in Hearlier.
  rewrite fmap_reverse, elem_of_reverse in Hearlier.
  rewrite Hsplit.
  apply (for_each_blocked (deploy_service_step w ctx) Service.Name Service.DependsOn
           (deploy_service_step_run w ctx) l1 svc l2 d st).
  - by rewrite Hempty, lookup_empty.
  - by rewrite Hempty, lookup_empty.
  - intros Hl1. apply (Hdisj _ Hl1). by left.
  - intros Hl1. apply (Hdisj _ Hl1). by right.
  - done.
Qed.

(** X24. On an empty registry, [Deploy] fails for every accepted configuration
    in which some service declares a dependency: the services are
    deployed in the reverse of their declared order, so the dependency is
    not yet deployed when its dependent is reached. *)
Theorem service_dependency_blocks_Deploy w config ctx st svc d :
  Validate config = None →
  svc ∈ Config.Services config → d ∈ Service.DependsOn svc →
  deployments st = ∅ →
  ∃ e st', Deploy w config ctx st = (Fail e, st').
Proof.
  intros Hv Hin Hd Hempty.
  destruct (Deploy_cases w config ctx st) as [(e & p & ->)|(ctx' & p & ->)];
    [by eexists _, _|].
  unfold deploy_units. unfold bind at 1. unfold wrapf at 1.
  destruct (deployServices_blocked w config ctx' (State (deployments st) p) svc d)
    as [e He]; [done..|].
  destruct (deployServices w config ctx' _) as [r st1]. cbn [fst] in He. subst r.
  by eexists _, _.
Qed.

Lemma service_dependency_blocks_Deploy_witness :
  ∃ e st', Deploy refusing accepted_config Context.Background (State ∅ (Proc 0 [])) =
           (Fail e, st').
Proof.
  apply (service_dependency_blocks_Deploy refusing accepted_config Context.Background
           (State ∅ (Proc 0 [])) (service_of "S2" ["S1"]) "S1").
  - vm_compute. reflexivity.
  - right. by left.
  - by left.
  - reflexivity.
Defined.

End AcceptedMore.

(** ** Health checks without retries *)

Module GateMore.
Import Manager.
Import HealthSpec.
Import ManagerSpec.
Import DependenciesSpec.
Import ManagerFacts.
Import HealthMore.

Lemma Check_no_retries_fails w ctx name options s :
  (Health.CheckOptions.Retries options ≤ 0)%Z →
  ∃ e s', Health.Check w ctx name options s = (Fail e, s').
Proof.
  intros Hr.
  assert (Z.to_nat (Health.CheckOptions.Retries options) = 0) as Hn by lia.
  destruct (Check_start w ctx name options s)
    as [->|[(s1 & _ & ->)|(s1 & _ & ->)]]; rewrite ?Hn; by eexists _, _.
Qed.

Lemma gate_without_retries w ctx name hc st r st' :
  HealthCheck.Type_ hc ≠ "" → (HealthCheck.Retries hc ≤ 0)%Z →
  gate_after_registration w ctx name hc st r st' →
  ∃ e, r = Fail e.
Proof.
  intros Htype Hr [(_ & msg & e & -> & _)
                  |(record & _ & _ & [[? _]|(_ & p1 & r0 & Hrun & ->)])];
    [by eexists|done|].
  unfold performHealthCheck, lift in Hrun.
  match type of Hrun with context [Health.Check w ctx name ?o ?s] =>
    destruct (Check_no_retries_fails w ctx name o s) as (e & s' & Hc); [done|];
    rewrite Hc in Hrun
  end.
  simplify_eq. by eexists.
Qed.

(** X25. A unit whose health check names a type and allows no retry is never
    deployed: [deployService] and [deployApp] fail for it. *)
Theorem unit_without_retries_never_deploys w ctx :
  (∀ service st,
     HealthCheck.Type_ (Service.HealthCheck service) ≠ "" →
     (HealthCheck.Retries (Service.HealthCheck service) ≤ 0)%Z →
     ∃ e st', deployService w ctx service st = (Fail e, st')) ∧
  (∀ app st,
     HealthCheck.Type_ (App.HealthCheck app) ≠ "" →
     (HealthCheck.Retries (App.HealthCheck app) ≤ 0)%Z →
     ∃ e st', deployApp w ctx app st = (Fail e, st')).
Proof.
  split.
  - intros service st Htype Hr.
    destruct (gate_without_retries w ctx _ _ st _ _ Htype Hr
                (deployService_run w ctx service st)) as [e He].
    destruct (deployService w ctx service st) as [r st']. cbn [fst] in He.
    subst r. by eexists _, _.
  - intros app st Htype Hr.
    destruct (gate_without_retries w ctx _ _ st _ _ Htype Hr
                (deployApp_run w ctx app st)) as [e He].
    destruct (deployApp w ctx app st) as [r st']. cbn [fst] in He.
    subst r. by eexists _, _.
Qed.

Lemma unit_without_retries_never_deploys_witness :
  ∃ e st',
    deployApp refusing Context.Background
      (App.mk "A1" "image" "" "" ∅ [] [] [] (HealthCheck.mk "http" "/health" 80 0 0 0 0) "")
      (State ∅ (Proc 0 [])) = (Fail e, st').
Proof.
  apply (proj2 (unit_without_retries_never_deploys refusing Context.Background)
           (App.mk "A1" "image" "" "" ∅ [] [] []
              (HealthCheck.mk "http" "/health" 80 0 0 0 0) "")
           (State ∅ (Proc 0 []))); [done|simpl; lia].
Defined.

End GateMore.

(** ** Defaults *)

Module DefaultsMore.
Import Dependencies.
Import Defaults.
Import DependenciesSpec.
Import DependenciesFacts.
Import ResolverMore.
Import DefaultsSpec.

Section defaults.
Variable ToLower : string → string.
Local Abbreviation applyHealthCheckDefaults := (Defaults.applyHealthCheckDefaults ToLower).
Local Abbreviation applyServiceDefaults := (Defaults.applyServiceDefaults ToLower).
Local Abbreviation applyAppDefaults := (Defaults.applyAppDefaults ToLower).
Local Abbreviation ApplyDefaults := (Defaults.ApplyDefaults ToLower).

Lemma applyHealthCheckDefaults_cases name image health :
  (HealthCheck.Type_ health ≠ "" ∧
   applyHealthCheckDefaults name image health = health) ∨
  (HealthCheck.Type_ health = "" ∧
   completed health (applyHealthCheckDefaults name image health)).
Proof.
  unfold Defaults.applyHealthCheckDefaults.
  destruct (String.eqb_spec (HealthCheck.Type_ health) "") as [Heq|Hne];
    [right|by left].
  split; [done|]. cbn [negb].
  repeat match goal with
         | |- context [if ?b then _ else _] => destruct b
         end;
    unfold completed; cbn; split_and!; auto; try done; lia.
Qed.

Lemma applyHealthCheckDefaults_typed name image health :
  HealthCheck.Type_ (applyHealthCheckDefaults name image health) ≠ "".
Proof.
  destruct (applyHealthCheckDefaults_cases name image health)
    as [[? ->]|[_ ([->| ->] & _)]]; done.
Qed.

Lemma applyHealthCheckDefaults_again name image name' image' health :
  applyHealthCheckDefaults name' image'
    (applyHealthCheckDefaults name image health) =
  applyHealthCheckDefaults name image health.
Proof.
  pose proof (applyHealthCheckDefaults_typed name image health) as Ht.
  destruct (applyHealthCheckDefaults_cases name' image'
              (applyHealthCheckDefaults name image health)) as [[_ ?]|[? _]]; done.
Qed.

Lemma default_again (s d : string) :
  d ≠ "" →
  (if String.eqb (if String.eqb s "" then d else s) "" then d
   else if String.eqb s "" then d else s) =
  (if String.eqb s "" then d else s).
Proof.
  intros Hd. destruct (String.eqb_spec s "") as [->|Hs].
  - by apply String.eqb_neq in Hd as ->.
  - by apply String.eqb_neq in Hs as ->.
Qed.

Lemma default_positive_again (z d : Z) :
  (0 < d)%Z →
  (if ((if (z <=? 0)%Z then d else z) <=? 0)%Z then d
   else if (z <=? 0)%Z then d else z) =
  (if (z <=? 0)%Z then d else z).
Proof.
  intros Hd. destruct (Z.leb_spec z 0).
  - destruct (Z.leb_spec d 0); [lia|done].
  - destruct (Z.leb_spec z 0); [lia|done].
Qed.

Lemma applyServiceDefaults_again service :
  applyServiceDefaults (applyServiceDefaults service) = applyServiceDefaults service.
Proof.
  unfold Defaults.applyServiceDefaults. cbn [Service.Name Service.Image
    Service.Volumes Service.Environment Service.Ports Service.DependsOn
    Service.HealthCheck Service.RestartPolicy].
  by rewrite applyHealthCheckDefaults_again, default_again.
Qed.

Lemma applyAppDefaults_again app :
  applyAppDefaults (applyAppDefaults app) = applyAppDefaults app.
Proof.
  unfold Defaults.applyAppDefaults. cbn [App.Name App.Image App.Subdomain App.Path
    App.Environment App.Ports App.Volumes App.DependsOn App.HealthCheck
    App.RestartPolicy].
  rewrite applyHealthCheckDefaults_again, default_again by done.
  f_equal.
  destruct (String.eqb_spec (App.Subdomain app) "") as [Hs|Hs];
    destruct (String.eqb_spec (App.Path app) "") as [Hp|Hp]; cbn [andb].
  - by destruct (String.eqb (App.Name app) "").
  - by rewrite Hs.
  - apply String.eqb_neq in Hs. by rewrite Hs.
  - apply String.eqb_neq in Hs. by rewrite Hs.
Qed.

(** X26. Applying the defaults twice gives what applying them once gives. *)
Theorem ApplyDefaults_idempotent config :
  ApplyDefaults (ApplyDefaults config) = ApplyDefaults config.
Proof.
  unfold Defaults.ApplyDefaults.
  cbn [Config.Version Config.Domain Config.SSL Config.Proxy Config.Services
       Config.Apps Config.EnvGlobal Config.Timeout Config.LogLevel
       ProxyConfig.Type_ ProxyConfig.Port ProxyConfig.HTTPSPort].
  rewrite !default_again, !default_positive_again by done.
  rewrite <- !list_fmap_compose.
  rewrite (list_fmap_ext (applyServiceDefaults ∘ applyServiceDefaults)
             applyServiceDefaults (Config.Services config))
    by (intros; apply applyServiceDefaults_again).
  rewrite (list_fmap_ext (applyAppDefaults ∘ applyAppDefaults)
             applyAppDefaults (Config.Apps config))
    by (intros; apply applyAppDefaults_again).
  f_equal.
  destruct (Config.SSL config) as [en pr em ss dc dp cr]; cbn.
  destruct en, dc; cbn; try done; destruct (String.eqb dp ""); cbn; try done;
    by rewrite ?Tauto.if_same.
Qed.

(** X27. After the defaults every service and every app has a health check
    with a type and a restart policy. A health check that named a type is
    as it was; one that named none is of type tcp or http, with interval
    30, timeout 10, 3 retries, start period 60 and a port. *)
Theorem ApplyDefaults_completes_units config :
  (∀ service, service ∈ Config.Services config →
     let service' := applyServiceDefaults service in
     service' ∈ Config.Services (ApplyDefaults config) ∧
     Service.RestartPolicy service' ≠ "" ∧
     HealthCheck.Type_ (Service.HealthCheck service') ≠ "" ∧
     (if decide (HealthCheck.Type_ (Service.HealthCheck service) = "")
      then completed (Service.HealthCheck service) (Service.HealthCheck service')
      else Service.HealthCheck service' = Service.HealthCheck service)) ∧
  (∀ app, app ∈ Config.Apps config →
     let app' := applyAppDefaults app in
     app' ∈ Config.Apps (ApplyDefaults config) ∧
     App.RestartPolicy app' ≠ "" ∧
     HealthCheck.Type_ (App.HealthCheck app') ≠ "" ∧
     (if decide (HealthCheck.Type_ (App.HealthCheck app) = "")
      then completed (App.HealthCheck app) (App.HealthCheck app')
      else App.HealthCheck app' = App.HealthCheck app)).
Proof.
  split.
  - intros service Hin service'. split_and!.
    + by apply list_elem_of_fmap_2.
    + cbn. by destruct (String.eqb_spec (Service.RestartPolicy service) "").
    + apply applyHealthCheckDefaults_typed.
    + cbn [service' Defaults.applyServiceDefaults Service.HealthCheck].
      destruct (applyHealthCheckDefaults_cases (Service.Name service)
                  (Service.Image service) (Service.HealthCheck service))
        as [[Hne ->]|[Heq Hc]].
      * by rewrite decide_False.
      * by rewrite decide_True.
  - intros app Hin app'. split_and!.
    + by apply list_elem_of_fmap_2.
    + cbn. by destruct (String.eqb_spec (App.RestartPolicy app) "").
    + apply applyHealthCheckDefaults_typed.
    + cbn [app' Defaults.applyAppDefaults App.HealthCheck].
      destruct (applyHealthCheckDefaults_cases (App.Name app)
                  (App.Image app) (App.HealthCheck app))
        as [[Hne ->]|[Heq Hc]].
      * by rewrite decide_False.
      * by rewrite decide_True.
Qed.

End defaults.

(** *** Defaults and the dependency order *)

Section fmap.
Context {A : Type} (name : A → string) (deps : A → list string) (f : A → A).
Hypothesis f_name : ∀ u, name (f u) = name u.
Hypothesis f_deps : ∀ u, deps (f u) = deps u.

Lemma unit_graph_fmap units : ∀ i m d,
  unit_graph name deps i (f <$> units) m d = unit_graph name deps i units m d.
Proof.
  induction units as [|u rest IH]; intros i m d; [done|].
  cbn [fmap list_fmap unit_graph]. rewrite f_name, f_deps. apply IH.
Qed.

Lemma pick_fmap units nameToIndex sortedNames :
  pick (f <$> units) nameToIndex sortedNames =
  outcome_map (fmap f) (pick units nameToIndex sortedNames).
Proof.
  induction sortedNames as [|n rest IH]; [done|].
  cbn [pick]. rewrite list_lookup_fmap, IH.
  destruct (units !! index_at nameToIndex n); [|done].
  by destruct (pick units nameToIndex rest).
Qed.

Lemma resolve_units_fmap units :
  resolve_units name deps (f <$> units) =
  outcome_map (fmap f) (resolve_units name deps units).
Proof.
  unfold resolve_units. rewrite unit_graph_fmap.
  destruct (unit_graph name deps 0 units ∅ ∅) as [nameToIndex dependencies].
  rewrite <- list_fmap_compose.
  rewrite (list_fmap_ext (name ∘ f) name units) by (intros; apply f_name).
  destruct (resolveDependencyOrder (name <$> units) dependencies); [|done..].
  apply pick_fmap.
Qed.

End fmap.

(** X28. The defaults change neither the names nor the dependencies of the
    units, and the two resolvers return for the completed units what they
    return for the units as declared, completed. *)
Theorem ApplyDefaults_keeps_the_order ToLower config :
  resolveServiceDependencies (Config.Services (Defaults.ApplyDefaults ToLower config)) =
  outcome_map (fmap (Defaults.applyServiceDefaults ToLower))
              (resolveServiceDependencies (Config.Services config)) ∧
  resolveAppDependencies (Config.Apps (Defaults.ApplyDefaults ToLower config)) =
  outcome_map (fmap (Defaults.applyAppDefaults ToLower))
              (resolveAppDependencies (Config.Apps config)).
Proof.
  rewrite !resolveServiceDependencies_eq, !resolveAppDependencies_eq.
  split; by apply resolve_units_fmap.
Qed.

Lemma ApplyDefaults_completes_units_witness :
  let service' := Defaults.applyServiceDefaults lower_case_text (service_of "S1" []) in
  service' ∈ Config.Services
               (Defaults.ApplyDefaults lower_case_text ManagerSpec.example_config) ∧
  Service.RestartPolicy service' ≠ "" ∧
  HealthCheck.Type_ (Service.HealthCheck service') ≠ "" ∧
  (if decide (HealthCheck.Type_ (Service.HealthCheck (service_of "S1" [])) = "")
   then completed (Service.HealthCheck (service_of "S1" []))
                  (Service.HealthCheck service')
   else Service.HealthCheck service' = Service.HealthCheck (service_of "S1" [])).
Proof.
  apply (proj1 (ApplyDefaults_completes_units lower_case_text
                  ManagerSpec.example_config) (service_of "S1" [])).
  by left.
Defined.

End DefaultsMore.

(** ** The status reporter *)

Module StatusMore.
Import Stdlib.Strings.Ascii.
Import Status.
Import StatusSpec.
Import ExternalFacts.

Lemma ReplaceAll_other s old new :
  occurs old s = false → ReplaceAll s old new = s.
Proof.
  induction s as [|c rest IH]; [done|]. cbn [occurs ReplaceAll].
  intros [-> ?]%orb_false_iff. by rewrite IH.
Qed.

Lemma ReplaceAll_app a b old new :
  ReplaceAll (a +:+ b) old new = ReplaceAll a old new +:+ ReplaceAll b old new.
Proof.
  induction a as [|c a IH]; [done|]. rewrite append_cons. cbn [ReplaceAll].
  rewrite IH. destruct (Ascii.eqb c old); [|done]. by rewrite append_assoc.
Qed.

Lemma ReplaceAll_cons c s old new :
  ReplaceAll (String c s) old new =
  (if Ascii.eqb c old then new else String c "") +:+ ReplaceAll s old new.
Proof. cbn [ReplaceAll]. by destruct (Ascii.eqb c old). Qed.

Lemma escape_cons c rest :
  escape (String c rest) =
  (if Ascii.eqb c percent then "%25"
   else if Ascii.eqb c CR then "%0D"
   else if Ascii.eqb c LF then "%0A"
   else String c "") +:+ escape rest.
Proof.
  unfold escape. rewrite (ReplaceAll_cons c rest percent).
  rewrite !ReplaceAll_app. f_equal.
  destruct (Ascii.eqb_spec c percent) as [->|Hp]; [reflexivity|].
  cbn [ReplaceAll].
  destruct (Ascii.eqb_spec c CR) as [->|Hc]; [reflexivity|].
  cbn [ReplaceAll]. by destruct (Ascii.eqb_spec c LF) as [->|Hl].
Qed.

(** The three replacements, one after the other, amount to one pass that
    escapes each byte on its own. *)
Lemma escape_escape_bytes value : escape value = escape_bytes value.
Proof.
  induction value as [|c rest IH]; [done|].
  rewrite escape_cons, IH. cbn [escape_bytes].
  by repeat destruct (Ascii.eqb c _).
Qed.

Lemma unescape_escape_bytes value : unescape (escape_bytes value) = value.
Proof.
  induction value as [|c rest IH]; [done|]. cbn [escape_bytes].
  destruct (Ascii.eqb_spec c percent) as [->|Hp].
  { change ("%25" +:+ escape_bytes rest)
      with (String percent (String "2" (String "5" (escape_bytes rest)))).
    cbn [unescape]. rewrite Ascii.eqb_refl. cbn. by rewrite IH. }
  destruct (Ascii.eqb_spec c CR) as [->|Hc].
  { change ("%0D" +:+ escape_bytes rest)
      with (String percent (String "0" (String "D" (escape_bytes rest)))).
    cbn [unescape]. rewrite Ascii.eqb_refl. cbn. by rewrite IH. }
  destruct (Ascii.eqb_spec c LF) as [->|Hl].
  { change ("%0A" +:+ escape_bytes rest)
      with (String percent (String "0" (String "A" (escape_bytes rest)))).
    cbn [unescape]. rewrite Ascii.eqb_refl. cbn. by rewrite IH. }
  cbn [unescape]. apply Ascii.eqb_neq in Hp. by rewrite Hp, IH.
Qed.

Lemma occurs_app c a b : occurs c (a +:+ b) = occurs c a || occurs c b.
Proof.
  induction a as [|x a IH]; [done|]. rewrite append_cons. cbn [occurs].
  by rewrite IH, orb_assoc.
Qed.

(** X29. Two values with the same escaped form are the same value: the value
    can be read back from the output. *)
Theorem escape_injective value1 value2 :
  escape value1 = escape value2 → value1 = value2.
Proof.
  rewrite !escape_escape_bytes. intros H.
  by rewrite <- (unescape_escape_bytes value1), H, unescape_escape_bytes.
Qed.

Lemma escape_injective_witness : "50%" = "50%".
Proof. apply escape_injective. reflexivity. Defined.

Lemma escape_no_line_break value :
  occurs CR (escape value) = false ∧ occurs LF (escape value) = false.
Proof.
  rewrite escape_escape_bytes.
  induction value as [|c rest [IH1 IH2]]; [done|]. cbn [escape_bytes].
  destruct (Ascii.eqb_spec c percent) as [->|Hp];
    [rewrite !occurs_app, IH1, IH2; by split|].
  destruct (Ascii.eqb_spec c CR) as [->|Hc];
    [rewrite !occurs_app, IH1, IH2; by split|].
  destruct (Ascii.eqb_spec c LF) as [->|Hl];
    [rewrite !occurs_app, IH1, IH2; by split|].
  cbn [occurs]. rewrite IH1, IH2.
  apply Ascii.eqb_neq in Hc, Hl. by rewrite Hc, Hl.
Qed.

(** X30. For a name without line breaks, what [SetOutput] prints when it is
    enabled is one line, whatever the value: the only carriage return or
    line feed is the line feed at the end. *)
Theorem SetOutput_prints_one_line name value :
  occurs CR name = false → occurs LF name = false →
  ∃ line, SetOutput true name value = line +:+ String LF "" ∧
          occurs CR line = false ∧ occurs LF line = false.
Proof.
  intros Hcr Hlf. destruct (escape_no_line_break value) as [Hv1 Hv2].
  exists ("::set-output name=" +:+ name +:+ "::" +:+ escape value).
  split; [|by rewrite !occurs_app, Hcr, Hlf, Hv1, Hv2].
  unfold SetOutput. by rewrite !append_assoc.
Qed.

Lemma SetOutput_prints_one_line_witness :
  ∃ line, SetOutput true "url" "50%" = line +:+ String LF "" ∧
          occurs CR line = false ∧ occurs LF line = false.
Proof. apply SetOutput_prints_one_line; reflexivity. Defined.

End StatusMore.
